(** * crypto-tracker-api: subscription registry, alert evaluator, rate limiter

    A shallow embedding of
      - src/websocket/handlers/priceHandler.ts and src/websocket/index.ts
        (module [PriceHandler]),
      - src/services/alertService.ts and the POST handler of
        src/api/routes/alerts.ts (module [AlertService]),
      - src/api/middleware/rateLimit.ts (module [RateLimit]),
    followed by the properties of the specification that concern them.

    Conventions.  A JavaScript [number] is an IEEE 754 binary64 value and is
    modelled by Rocq's primitive [float]; the comparisons [>=], [<=], [>], [<]
    are [PrimFloat.leb] and [PrimFloat.ltb].  Integral quantities (epoch
    milliseconds, request counts) are [Z].  A [Map] is a [gmap], a [Set] a
    [gset]; iteration over either follows [map_to_list] / [elements].
    Built-ins of the JavaScript runtime that the repository only calls
    ([String.prototype.toUpperCase], [Number(string)],
    [Number.prototype.toString]) are Section variables. *)

From Stdlib Require Import Floats ZArith Uint63 Ascii.
From stdpp Require Import gmap strings list fin_maps fin_sets pretty sorting.

Local Open Scope Z_scope.
Set Warnings "-clear-no-such-hyp".


(** ** src/types/index.ts *)

Module Types.

Record CryptoPrice := {
  symbol : string;
  price : float;
  change24h : float;
  changePercent24h : float;
  volume24h : float;
  marketCap : float;
  lastUpdated : string
}.

(** The API view of an alert ([PriceAlert] of types/index.ts).  Dates are
    kept as epoch milliseconds instead of ISO strings; the field [symbol]
    is [alertSymbol] here, next to the [symbol] of [CryptoPrice]. *)
Record PriceAlert := {
  id : string;
  userId : string;
  alertSymbol : string;
  condition : string;
  targetPrice : float;
  percentChange : option float;
  isTriggered : bool;
  isActive : bool;
  createdAt : Z;
  triggeredAt : option Z
}.

(** A snapshot with only the symbol and the price filled in. *)
Definition snapshot (symbol : string) (price : float) : CryptoPrice :=
  {| symbol := symbol; price := price; change24h := 0; changePercent24h := 0;
     volume24h := 0; marketCap := 0; lastUpdated := "" |}.

(** [String.prototype.length]: the number of UTF-16 code units of a
    string, which is held here as the bytes of its UTF-8 encoding.  A
    character of one, two or three bytes is one code unit, a character of
    four bytes is a surrogate pair; a continuation byte adds nothing.  On
    ASCII this is the number of bytes. *)
Fixpoint utf16Length (s : string) : nat :=
  match s with
  | EmptyString => 0
  | String c s =>
      let byte := Ascii.nat_of_ascii c in
      (if (byte <? 128)%nat then 1
       else if (byte <? 192)%nat then 0
       else if (byte <? 240)%nat then 1
       else 2)%nat + utf16Length s
  end.

Inductive WSServerMessage :=
| Subscribed (symbols : list string)
| Unsubscribed (symbols : list string)
| PriceUpdate (data : CryptoPrice)
| AlertTriggered (data : PriceAlert)
| Error (message : string) (code : option string).

End Types.

(** ** The price service, as far as the other modules call it *)

Module PriceService.

(** [getSupportedSymbols()]: the keys of [CRYPTO_MAP], in insertion order. *)
Definition getSupportedSymbols : list string :=
  ["BTC"; "ETH"; "SOL"; "AVAX"; "MATIC"; "DOT"; "ADA"; "XRP"; "DOGE"; "LINK";
   "UNI"; "ATOM"; "LTC"; "BCH"; "NEAR"]%string.

(** [isSymbolSupported(symbol)] is [SYMBOL_TO_ID.has(symbol.toUpperCase())]. *)
Definition isSymbolSupported (toUpperCase : string → string) (symbol : string) : bool :=
  bool_decide (toUpperCase symbol ∈ getSupportedSymbols).

(** What [await getPrice(symbol)] comes to: a snapshot; [null], when the
    symbol is not supported or the source answered without it; or a
    rejection, when the source could not be reached ([fetchPricesFromAPI]
    rethrows). *)
Inductive PriceAnswer :=
| Quoted (price : Types.CryptoPrice)
| NoPrice
| SourceFailed.

(** [toUpperCase] on ASCII strings, for running the model on examples. *)
Definition asciiUpperCase (c : Ascii.ascii) : Ascii.ascii :=
  let n := Ascii.nat_of_ascii c in
  if ((97 <=? n) && (n <=? 122))%nat then Ascii.ascii_of_nat (n - 32) else c.

Fixpoint asciiToUpperCase (s : string) : string :=
  match s with
  | EmptyString => EmptyString
  | String c s => String (asciiUpperCase c) (asciiToUpperCase s)
  end.

End PriceService.

(** ** src/websocket/handlers/priceHandler.ts, src/websocket/index.ts *)

Module PriceHandler.
Import Types PriceService.

(** A [WebSocket] object is identified by the number the transport gave it
    when it accepted the connection; object identity is what the two
    [Map]s of the handler are keyed by. *)
Abbreviation WebSocket := positive.

Inductive ReadyState := CONNECTING | OPEN | CLOSING | CLOSED.

#[global] Instance ReadyState_eq_dec : EqDecision ReadyState.
Proof. solve_decision. Defined.

(** [interface ClientConnection]; the [socket] field is the key under
    which the record is stored. *)
Record ClientConnection := {
  subscribedSymbols : gset string;
  userId : option string;
  lastPing : Z
}.

(** The module-level state ([connections], [symbolSubscribers]) together
    with the part of the transport the handlers touch: the ready state of
    every socket and the frames handed to [socket.send], oldest first. *)
Record State := {
  connections : gmap positive ClientConnection;
  symbolSubscribers : gmap string (gset positive);
  readyState : gmap positive ReadyState;
  sent : list (positive * WSServerMessage);
  nextSocket : positive
}.

Definition init : State :=
  {| connections := ∅; symbolSubscribers := ∅; readyState := ∅;
     sent := []; nextSocket := 1%positive |}.

Definition readyStateOf (st : State) (socket : WebSocket) : ReadyState :=
  default CLOSED (readyState st !! socket).

Definition setConnections (f : gmap positive ClientConnection → gmap positive ClientConnection)
    (st : State) : State :=
  {| connections := f (connections st); symbolSubscribers := symbolSubscribers st;
     readyState := readyState st; sent := sent st; nextSocket := nextSocket st |}.

Definition setSymbolSubscribers (f : gmap string (gset positive) → gmap string (gset positive))
    (st : State) : State :=
  {| connections := connections st; symbolSubscribers := f (symbolSubscribers st);
     readyState := readyState st; sent := sent st; nextSocket := nextSocket st |}.

Definition setReadyState (socket : WebSocket) (rs : ReadyState) (st : State) : State :=
  {| connections := connections st; symbolSubscribers := symbolSubscribers st;
     readyState := <[socket := rs]> (readyState st); sent := sent st;
     nextSocket := nextSocket st |}.

(** [function sendToClient]: the frame is handed to the transport only when
    the socket is OPEN; otherwise nothing happens. *)
Definition sendToClient (socket : WebSocket) (message : WSServerMessage) (st : State) : State :=
  if decide (readyStateOf st socket = OPEN) then
    {| connections := connections st; symbolSubscribers := symbolSubscribers st;
       readyState := readyState st; sent := sent st ++ [(socket, message)];
       nextSocket := nextSocket st |}
  else st.

Definition sendError (socket : WebSocket) (message : string) (code : option string)
    (st : State) : State :=
  sendToClient socket (Error message code) st.

(** [export function handleConnection]; [now] is [Date.now()]. *)
Definition handleConnection (socket : WebSocket) (userId : option string) (now : Z)
    (st : State) : State :=
  let connection :=
    {| subscribedSymbols := ∅; userId := userId; lastPing := now |} in
  let st := setConnections (insert socket connection) st in
  sendToClient socket (Subscribed []) st.

(** The body shared by the loops of [handleDisconnection] and
    [handleUnsubscribe]:
      const subscribers = symbolSubscribers.get(symbol);
      if (subscribers) { subscribers.delete(socket);
                         if (subscribers.size === 0) symbolSubscribers.delete(symbol); } *)
Definition dropSubscriber (socket : WebSocket) (subs : gmap string (gset positive))
    (symbol : string) : gmap string (gset positive) :=
  match subs !! symbol with
  | Some subscribers =>
      let subscribers := subscribers ∖ {[socket]} in
      if decide (size subscribers = 0%nat) then delete symbol subs
      else <[symbol := subscribers]> subs
  | None => subs
  end.

(** [export function handleDisconnection] *)
Definition handleDisconnection (socket : WebSocket) (st : State) : State :=
  match connections st !! socket with
  | Some connection =>
      let st :=
        setSymbolSubscribers
          (λ subs, foldl (dropSubscriber socket) subs
                     (elements (subscribedSymbols connection))) st in
      setConnections (delete socket) st
  | None => st
  end.

(** What [JSON.parse(data)] can yield, as far as [WSClientMessageSchema]
    tells the values apart. *)
Inductive Json :=
| JUnparsable                                   (* JSON.parse throws *)
| JOther                                        (* not { type: string, symbols: string[] } *)
| JMessage (type : string) (symbols : list string).

Inductive WSClientMessage :=
| Subscribe (symbols : list string)
| Unsubscribe (symbols : list string).

Section WithRuntime.
(** [String.prototype.toUpperCase] *)
Variable toUpperCase : string → string.

(** [z.string().min(1).max(10).toUpperCase()] on every element; zod
    measures the [length] of the string. *)
Definition symbolsSchema (symbols : list string) : option (list string) :=
  if forallb (λ s, (1 <=? Types.utf16Length s)%nat && (Types.utf16Length s <=? 10)%nat)
       symbols
  then Some (toUpperCase <$> symbols) else None.

(** [WSClientMessageSchema.safeParse]; [None] is [success: false]. *)
Definition WSClientMessageSchema (parsed : Json) : option WSClientMessage :=
  match parsed with
  | JMessage type symbols =>
      if decide (type = "subscribe"%string) then Subscribe <$> symbolsSchema symbols
      else if decide (type = "unsubscribe"%string) then Unsubscribe <$> symbolsSchema symbols
      else None
  | _ => None
  end.

(** The first loop of [handleSubscribe]: split into supported symbols
    (upper-cased) and unsupported ones (as received). *)
Fixpoint classify (symbols : list string) : list string * list string :=
  match symbols with
  | [] => ([], [])
  | symbol :: rest =>
      let '(validSymbols, invalidSymbols) := classify rest in
      let upperSymbol := toUpperCase symbol in
      if decide (upperSymbol ∈ getSupportedSymbols)
      then (upperSymbol :: validSymbols, invalidSymbols)
      else (validSymbols, symbol :: invalidSymbols)
  end.

(** [symbolSubscribers.has(symbol) || set(symbol, new Set());
    symbolSubscribers.get(symbol).add(socket)] *)
Definition addSubscriber (socket : WebSocket) (subs : gmap string (gset positive))
    (symbol : string) : gmap string (gset positive) :=
  <[symbol := default ∅ (subs !! symbol) ∪ {[socket]}]> subs.

(** [invalidSymbols.join(', ')] *)
Definition join (sep : string) (l : list string) : string :=
  match l with
  | [] => ""
  | x :: l => foldl (λ acc y, acc +:+ sep +:+ y) x l
  end%string.

(** The last loop of [handleSubscribe]:
      for (const symbol of validSymbols) {
        const price = await getPrice(symbol);
        if (price) sendToClient(socket, { type: 'price_update', data: price }); }
    The boolean tells whether [getPrice] rejected, which ends the loop and
    makes [handleSubscribe] throw. *)
Fixpoint sendCurrentPrices (getPrice : string → PriceAnswer) (socket : WebSocket)
    (symbols : list string) (st : State) : State * bool :=
  match symbols with
  | [] => (st, false)
  | symbol :: symbols =>
      match getPrice symbol with
      | Quoted price =>
          sendCurrentPrices getPrice socket symbols (sendToClient socket (PriceUpdate price) st)
      | NoPrice => sendCurrentPrices getPrice socket symbols st
      | SourceFailed => (st, true)
      end
  end.

(** [async function handleSubscribe]; the boolean tells whether it threw.
    [connection] is the record found under [socket] by the caller; the
    JavaScript mutates that very object, which the model renders by
    writing the updated record back under [socket].  [getPrice] is the
    answer of the price service at the time of the call; the frames of the
    final loop are appended at once, although the source awaits between
    them. *)
Definition handleSubscribe (getPrice : string → PriceAnswer)
    (socket : WebSocket) (connection : ClientConnection)
    (symbols : list string) (st : State) : State * bool :=
  let '(validSymbols, invalidSymbols) := classify symbols in
  let st :=
    if decide (0 < length invalidSymbols)%nat then
      sendError socket ("Unsupported symbols: " +:+ join ", " invalidSymbols)
        (Some "INVALID_SYMBOLS"%string) st
    else st in
  let connection :=
    {| subscribedSymbols :=
         foldl (λ set symbol, set ∪ {[symbol]}) (subscribedSymbols connection) validSymbols;
       userId := userId connection; lastPing := lastPing connection |} in
  let st := setConnections (insert socket connection) st in
  let st := setSymbolSubscribers (λ subs, foldl (addSubscriber socket) subs validSymbols) st in
  let st := sendToClient socket (Subscribed (elements (subscribedSymbols connection))) st in
  sendCurrentPrices getPrice socket validSymbols st.

(** [function handleUnsubscribe] *)
Definition handleUnsubscribe (socket : WebSocket) (connection : ClientConnection)
    (symbols : list string) (st : State) : State :=
  let connection :=
    {| subscribedSymbols :=
         foldl (λ set symbol, set ∖ {[toUpperCase symbol]})
           (subscribedSymbols connection) symbols;
       userId := userId connection; lastPing := lastPing connection |} in
  let st := setConnections (insert socket connection) st in
  let st :=
    setSymbolSubscribers
      (λ subs, foldl (λ subs symbol, dropSubscriber socket subs (toUpperCase symbol))
                 subs symbols) st in
  sendToClient socket (Unsubscribed (toUpperCase <$> symbols)) st.

(** [export async function handleMessage]; [data] is given by what
    [JSON.parse] makes of it.  The [catch] also receives what
    [handleSubscribe] throws. *)
Definition handleMessage (getPrice : string → PriceAnswer)
    (socket : WebSocket) (data : Json) (now : Z) (st : State) : State :=
  match connections st !! socket with
  | None => sendError socket "Connection not found" (Some "CONNECTION_ERROR"%string) st
  | Some connection =>
      let connection :=
        {| subscribedSymbols := subscribedSymbols connection;
           userId := userId connection; lastPing := now |} in
      let st := setConnections (insert socket connection) st in
      match data with
      | JUnparsable =>
          sendError socket "Failed to parse message" (Some "PARSE_ERROR"%string) st
      | parsed =>
          match WSClientMessageSchema parsed with
          | None =>
              sendError socket "Invalid message format" (Some "INVALID_MESSAGE"%string) st
          | Some (Subscribe symbols) =>
              let '(st, threw) := handleSubscribe getPrice socket connection symbols st in
              if threw then
                sendError socket "Failed to parse message" (Some "PARSE_ERROR"%string) st
              else st
          | Some (Unsubscribe symbols) =>
              handleUnsubscribe socket connection symbols st
          end
      end
  end.
End WithRuntime.

(** [export function broadcastPriceUpdate] *)
Definition broadcastPriceUpdate (price : CryptoPrice) (st : State) : State :=
  match symbolSubscribers st !! symbol price with
  | Some subscribers =>
      if decide (0 < size subscribers)%nat then
        let message := PriceUpdate price in
        foldl (λ st socket, sendToClient socket message st) st (elements subscribers)
      else st
  | None => st
  end.

(** [export function broadcastAlertTriggered] *)
Definition broadcastAlertTriggered (alert : PriceAlert) (price : CryptoPrice)
    (st : State) : State :=
  foldl (λ st '(socket, connection),
           if decide (userId connection = Some (Types.userId alert)) then
             sendToClient socket (PriceUpdate price)
               (sendToClient socket (AlertTriggered alert) st)
           else st)
    st (map_to_list (connections st)).

(** [export function getConnectionCount] *)
Definition getConnectionCount (st : State) : nat := size (connections st).

(** [export function getSubscribedSymbols] *)
Definition getSubscribedSymbols (st : State) : list string :=
  (map_to_list (symbolSubscribers st)).*1.

(** [socket.close(code, reason)]: an open socket starts the closing
    handshake; the 'close' event comes later. *)
Definition close (socket : WebSocket) (st : State) : State :=
  match readyStateOf st socket with
  | CLOSED => st
  | _ => setReadyState socket CLOSING st
  end.

(** [export function cleanupStaleConnections]; [now] is [Date.now()]. *)
Definition cleanupStaleConnections (maxAge : Z) (now : Z) (st : State) : State :=
  foldl (λ st '(socket, connection),
           if decide (now - lastPing connection > maxAge) then
             handleDisconnection socket (close socket st)
           else st)
    st (map_to_list (connections st)).

(** [export function handlePing] *)
Definition handlePing (socket : WebSocket) (now : Z) (st : State) : State :=
  match connections st !! socket with
  | Some connection =>
      setConnections
        (insert socket {| subscribedSymbols := subscribedSymbols connection;
                          userId := userId connection; lastPing := now |}) st
  | None => st
  end.

(** The default of [WS_MAX_CONNECTIONS] in src/config/env.ts. *)
Definition WS_MAX_CONNECTIONS : nat := 1000.

(** What can happen to the handler, one event-loop turn each: the events
    wired up by [registerWebSocket] (index.ts), the two broadcasts called
    by the price-update job, and the transport starting to close a
    socket.  [Ping] is the frame 'ping': [handlePing], then the raw reply
    'pong', which is not a server message and is not kept in [sent]. *)
Inductive Event :=
| Connect (userId : option string) (now : Z)
| Message (socket : WebSocket) (data : Json) (now : Z)
          (getPrice : string → PriceAnswer)
| Ping (socket : WebSocket) (now : Z)
| Closing (socket : WebSocket)
| Close (socket : WebSocket)
| SocketError (socket : WebSocket)
| Heartbeat (maxAge : Z) (now : Z)
| Price (price : CryptoPrice)
| Alert (alert : PriceAlert) (price : CryptoPrice).

Section EventLoop.
Variable toUpperCase : string → string.

(** The route handler of [fastify.get('/ws', ...)] and the listeners it
    installs.  A connection is a new socket object, OPEN on arrival. *)
Definition step (st : State) (ev : Event) : State :=
  match ev with
  | Connect userId now =>
      let socket := nextSocket st in
      let st :=
        {| connections := connections st; symbolSubscribers := symbolSubscribers st;
           readyState := <[socket := OPEN]> (readyState st); sent := sent st;
           nextSocket := (socket + 1)%positive |} in
      handleConnection socket userId now st
  | Message socket data now getPrice =>
      handleMessage toUpperCase getPrice socket data now st
  | Ping socket now => handlePing socket now st
  | Closing socket => close socket st
  | Close socket => handleDisconnection socket (setReadyState socket CLOSED st)
  | SocketError socket => handleDisconnection socket st
  | Heartbeat maxAge now => cleanupStaleConnections maxAge now st
  | Price price => broadcastPriceUpdate price st
  | Alert alert price => broadcastAlertTriggered alert price st
  end.

Definition run (events : list Event) (st : State) : State := foldl step st events.
End EventLoop.

(** One client connects and subscribes to BTC; then its transport starts
    the closing handshake, and the 'close' event has not been delivered
    yet. *)
Definition closingSubscriber : list Event :=
  [Connect None 0;
   Message 1 (JMessage "subscribe" ["btc"%string]) 1 (λ _, NoPrice);
   Closing 1].

(** *** The two views of a subscription *)

(** [socket] is in [symbolSubscribers[symbol]]. *)
Definition interested (subs : gmap string (gset positive)) (symbol : string)
    (socket : WebSocket) : Prop :=
  ∃ subscribers, subs !! symbol = Some subscribers ∧ socket ∈ subscribers.

(** [symbol] is in the [subscribedSymbols] of the connection of [socket]. *)
Definition subscribed (conns : gmap positive ClientConnection) (socket : WebSocket)
    (symbol : string) : Prop :=
  ∃ connection, conns !! socket = Some connection ∧ symbol ∈ subscribedSymbols connection.

Definition consistent (st : State) : Prop :=
  ∀ socket symbol,
    interested (symbolSubscribers st) symbol socket ↔ subscribed (connections st) socket symbol.

(** Sockets are handed out in increasing order, so the next one is new. *)
Definition allocated (st : State) : Prop :=
  ∀ socket, is_Some (connections st !! socket) → (socket < nextSocket st)%positive.

Definition registryInv (st : State) : Prop := consistent st ∧ allocated st.

(** Two states with the same registry part; the transport part may differ. *)
Definition sameRegistry (st st' : State) : Prop :=
  connections st' = connections st ∧ symbolSubscribers st' = symbolSubscribers st ∧
  nextSocket st' = nextSocket st.

(** *** Further invariants and views of the registry *)

(** No symbol is kept with an empty set of subscribers. *)
Definition populated (st : State) : Prop :=
  ∀ symbol subscribers,
    symbolSubscribers st !! symbol = Some subscribers → subscribers ≠ ∅.

(** Only supported symbols are subscribed to. *)
Definition supportedOnly (st : State) : Prop :=
  ∀ socket connection symbol,
    connections st !! socket = Some connection →
    symbol ∈ subscribedSymbols connection → symbol ∈ getSupportedSymbols.

Definition tidy (st : State) : Prop := populated st ∧ supportedOnly st.

(** The frames handed to the transport on the way from [st] to [st']. *)
Definition framesSince (st st' : State) : list (positive * WSServerMessage) :=
  drop (length (sent st)) (sent st').

(** A connection that the sweep at [now] with [maxAge] closes. *)
Definition stale (maxAge now : Z) (connection : ClientConnection) : Prop :=
  now - lastPing connection > maxAge.

#[global] Instance stale_dec maxAge now connection : Decision (stale maxAge now connection).
Proof. unfold stale. apply _. Defined.

(** The symbols that a subscribe message with [symbols] from [socket] adds
    in state [st]: none if the socket has no connection or the message does
    not pass the schema, else the supported ones, upper-cased. *)
Definition accepted (toUpperCase : string → string) (st : State) (socket : WebSocket)
    (symbols : list string) : list string :=
  match connections st !! socket, symbolsSchema toUpperCase symbols with
  | Some _, Some upper => (classify toUpperCase upper).1
  | _, _ => []
  end.

(** The symbols that an unsubscribe message with [symbols] from [socket]
    removes in state [st]. *)
Definition dropped (toUpperCase : string → string) (st : State) (socket : WebSocket)
    (symbols : list string) : list string :=
  match connections st !! socket, symbolsSchema toUpperCase symbols with
  | Some _, Some upper => toUpperCase <$> upper
  | _, _ => []
  end.

(** A string of ASCII characters only: every character is one byte and
    one UTF-16 code unit. *)
Fixpoint isAscii (s : string) : bool :=
  match s with
  | EmptyString => true
  | String c s => (Ascii.nat_of_ascii c <? 128)%nat && isAscii s
  end.

(** The symbols of a message, if it has any, are ASCII strings. *)
Definition asciiSymbols (data : Json) : Prop :=
  match data with
  | JMessage _ symbols => Forall (λ symbol, isAscii symbol = true) symbols
  | _ => True
  end.

(** The interest set stored for [socket], empty when there is no
    connection. *)
Definition interestsOf (st : State) (socket : WebSocket) : gset string :=
  match connections st !! socket with
  | Some connection => subscribedSymbols connection
  | None => ∅
  end.

End PriceHandler.

(** ** src/db/schema.ts (price_alerts), src/services/alertService.ts,
       POST /alerts of src/api/routes/alerts.ts *)

Module AlertService.
Import PriceService.

(** A row of [price_alerts] without its primary key [id], under which the
    table keeps it.  A [decimal] column is read and written as a string and
    may be null. *)
Record PriceAlertRow := {
  userId : string;
  symbol : string;
  condition : string;
  targetPrice : option string;
  percentChange : option string;
  basePrice : option string;
  isTriggered : bool;
  isActive : bool;
  createdAt : Z;
  triggeredAt : option Z
}.

(** What leaves the service, in order: the batch UPDATE that marks alerts
    as triggered, and the calls of [notifyAlertTriggered], which hands the
    alert to every callback registered with [onAlertTriggered]. *)
Inductive Effect :=
| Persisted (ids : list string) (triggeredAt : Z)
| Announced (alert : Types.PriceAlert) (price : Types.CryptoPrice).

(** The table, and what the service cannot decide itself: the time
    ([new Date()]), whether the statements to come fail ([true]: the next
    statement is rejected by the database; no entry: it succeeds), the
    values [defaultRandom()] will give to new rows, and how the database
    renders a numeral that is written to a column [decimal(precision,
    scale)], padding and rounding it to the scale. *)
Record World := {
  priceAlerts : gmap string PriceAlertRow;
  clock : Z;
  outages : list bool;
  uuids : list string;
  log : list Effect;
  decimal : nat → nat → string → string
}.

Definition setPriceAlerts (table : gmap string PriceAlertRow) (w : World) : World :=
  {| priceAlerts := table; clock := clock w; outages := outages w; uuids := uuids w;
     log := log w; decimal := decimal w |}.

Definition setOutages (outages : list bool) (w : World) : World :=
  {| priceAlerts := priceAlerts w; clock := clock w; outages := outages; uuids := uuids w;
     log := log w; decimal := decimal w |}.

Definition setUuids (uuids : list string) (w : World) : World :=
  {| priceAlerts := priceAlerts w; clock := clock w; outages := outages w; uuids := uuids;
     log := log w; decimal := decimal w |}.

Definition record (effect : Effect) (w : World) : World :=
  {| priceAlerts := priceAlerts w; clock := clock w; outages := outages w; uuids := uuids w;
     log := log w ++ [effect]; decimal := decimal w |}.

(** An [async] function either returns or throws (its promise rejects). *)
Inductive Outcome (A : Type) :=
| Returned (value : A)
| Thrown (error : string).
Arguments Returned {A} value.
Arguments Thrown {A} error.

Definition Async (A : Type) : Type := World → Outcome A * World.

#[global] Instance Async_ret : MRet Async := λ A value w, (Returned value, w).

#[global] Instance Async_bind : MBind Async := λ A B k m w,
  match m w with
  | (Returned value, w) => k value w
  | (Thrown error, w) => (Thrown error, w)
  end.

(** [try { body } catch (error) { handler }] *)
Definition tryCatch {A} (body : Async A) (handler : string → Async A) : Async A := λ w,
  match body w with
  | (Returned value, w) => (Returned value, w)
  | (Thrown error, w) => handler error w
  end.

(** Whether the next statement fails, and the world after that has been
    decided. *)
Definition nextStatement (w : World) : bool * World :=
  match outages w with
  | [] => (false, w)
  | failed :: outages => (failed, setOutages outages w)
  end.

(** One SQL statement: it fails as a whole or takes effect as a whole. *)
Definition statement {A} (effect : World → Outcome A * World) : Async A := λ w,
  let '(failed, w) := nextStatement w in
  if failed then (Thrown "database error", w) else effect w.

(** [select().from(priceAlerts).where(and(eq(symbol, s), eq(isActive, true),
    eq(isTriggered, false)))] *)
Definition selectActiveBySymbol (s : string) : Async (list (string * PriceAlertRow)) :=
  statement (λ w,
    (Returned (filter (λ alert, symbol alert.2 = s ∧ isActive alert.2 = true ∧
                                isTriggered alert.2 = false)
                 (map_to_list (priceAlerts w))), w)).

Definition markTriggered (at_ : Z) (row : PriceAlertRow) : PriceAlertRow :=
  {| userId := userId row; symbol := symbol row; condition := condition row;
     targetPrice := targetPrice row; percentChange := percentChange row;
     basePrice := basePrice row; isTriggered := true; isActive := isActive row;
     createdAt := createdAt row; triggeredAt := Some at_ |}.

(** [update(priceAlerts).set({ isTriggered: true, triggeredAt: new Date() })
    .where(inArray(priceAlerts.id, ids))] *)
Definition updateTriggered (ids : list string) : Async unit :=
  statement (λ w,
    let table :=
      map_imap (λ id row, Some (if decide (id ∈ ids) then markTriggered (clock w) row else row))
        (priceAlerts w) in
    (Returned (), record (Persisted ids (clock w)) (setPriceAlerts table w))).

(** A row as the table keeps it: [target_price] and [base_price] are
    columns [decimal(20, 8)], [percent_change] is a column
    [decimal(10, 4)]. *)
Definition stored (w : World) (row : PriceAlertRow) : PriceAlertRow :=
  {| userId := userId row; symbol := symbol row; condition := condition row;
     targetPrice := decimal w 20 8 <$> targetPrice row;
     percentChange := decimal w 10 4 <$> percentChange row;
     basePrice := decimal w 20 8 <$> basePrice row;
     isTriggered := isTriggered row; isActive := isActive row;
     createdAt := createdAt row; triggeredAt := triggeredAt row |}.

(** [insert(priceAlerts).values(newAlert).returning()]: the row gets the
    next generated id and is kept, and returned, as the columns render it;
    an id already in use violates the primary key.  A numeral that a
    column cannot hold is a rejected statement. *)
Definition insertAlert (newAlert : PriceAlertRow) : Async (string * PriceAlertRow) :=
  statement (λ w,
    match uuids w with
    | id :: uuids =>
        match priceAlerts w !! id with
        | Some _ => (Thrown "duplicate key", setUuids uuids w)
        | None =>
            let created := stored w newAlert in
            (Returned (id, created),
             setPriceAlerts (<[id := created]> (priceAlerts w)) (setUuids uuids w))
        end
    | [] => (Thrown "no id generated", w)
    end).

(** [select({ id }).from(priceAlerts).where(and(eq(userId, u), eq(isActive, true)))] *)
Definition selectActiveByUser (u : string) : Async (list (string * PriceAlertRow)) :=
  statement (λ w,
    (Returned (filter (λ alert, userId alert.2 = u ∧ isActive alert.2 = true)
                 (map_to_list (priceAlerts w))), w)).

(** [function notifyAlertTriggered] *)
Definition notifyAlertTriggered (alert : Types.PriceAlert) (price : Types.CryptoPrice)
    : Async unit :=
  λ w, (Returned (), record (Announced alert price) w).

(** [for (const alert of triggeredAlerts) notifyAlertTriggered(alert, price)] *)
Fixpoint notifyEach (alerts : list Types.PriceAlert) (price : Types.CryptoPrice)
    : Async unit :=
  match alerts with
  | [] => mret ()
  | alert :: alerts => notifyAlertTriggered alert price;; notifyEach alerts price
  end.

(** A string or null used as a condition: null and the empty string are
    falsy. *)
Definition truthy (value : option string) : bool :=
  match value with
  | Some s => negb (String.eqb s "")
  | None => false
  end.

(** What [MAX_ALERTS_BY_TIER[tier] ?? MAX_ALERTS_BY_TIER['free'] ?? 5]
    yields: a number, or a member of [Object.prototype], which the plain
    object [MAX_ALERTS_BY_TIER] inherits and which is not nullish. *)
Inductive MaxAlerts := Limit (n : nat) | Inherited.

(** The names of the members of [Object.prototype]. *)
Definition objectPrototype : list string :=
  ["constructor"; "__defineGetter__"; "__defineSetter__"; "hasOwnProperty";
   "__lookupGetter__"; "__lookupSetter__"; "isPrototypeOf"; "propertyIsEnumerable";
   "toString"; "valueOf"; "__proto__"; "toLocaleString"]%string.

(** [const MAX_ALERTS_BY_TIER] and [export function getMaxAlerts] *)
Definition getMaxAlerts (tier : string) : MaxAlerts :=
  if decide (tier = "free"%string) then Limit 5
  else if decide (tier = "pro"%string) then Limit 50
  else if decide (tier = "enterprise"%string) then Limit 500
  else if decide (tier ∈ objectPrototype) then Inherited
  else Limit 5.

(** [currentCount >= maxAlerts]: a function or an object compares as
    [NaN], so the comparison is false. *)
Definition reached (currentCount : nat) (maxAlerts : MaxAlerts) : bool :=
  match maxAlerts with
  | Limit n => bool_decide (n ≤ currentCount)%nat
  | Inherited => false
  end.

(** The body of POST /alerts, as [CreateAlertSchema] receives it. *)
Record CreateAlert := {
  bodySymbol : string;
  bodyCondition : string;
  bodyTargetPrice : option float;
  bodyPercentChange : option float
}.

(** [request.user], resolved by the authentication middleware. *)
Record AuthenticatedUser := {
  id : string;
  tier : string
}.

(** The reply of POST /alerts: status, alert on success, error code
    otherwise. *)
Record Reply := {
  status : nat;
  data : option Types.PriceAlert;
  code : option string
}.

(** The order of [orderBy(priceAlerts.createdAt)]; the database is free in
    the order of rows created at the same time. *)
Definition olderFirst (a b : string * PriceAlertRow) : Prop :=
  createdAt a.2 ≤ createdAt b.2.

#[global] Instance olderFirst_dec a b : Decision (olderFirst a b).
Proof. unfold olderFirst. apply _. Defined.

(** [select().from(priceAlerts).where(eq(userId, u)).orderBy(createdAt)] *)
Definition selectByUser (u : string) : Async (list (string * PriceAlertRow)) :=
  statement (λ w,
    (Returned (merge_sort olderFirst
                 (filter (λ alert, userId alert.2 = u) (map_to_list (priceAlerts w)))), w)).

(** [select().from(priceAlerts).where(and(eq(userId, u), eq(isActive, true),
    eq(isTriggered, false))).orderBy(createdAt)] *)
Definition selectOpenByUser (u : string) : Async (list (string * PriceAlertRow)) :=
  statement (λ w,
    (Returned (merge_sort olderFirst
                 (filter (λ alert, userId alert.2 = u ∧ isActive alert.2 = true ∧
                                   isTriggered alert.2 = false)
                    (map_to_list (priceAlerts w)))), w)).

(** The rows matched by [and(eq(id, alertId), eq(userId, u))]: [id] is the
    primary key, so there is at most one. *)
Definition owned (alertId u : string) (table : gmap string PriceAlertRow)
    : list (string * PriceAlertRow) :=
  match table !! alertId with
  | Some row => if decide (userId row = u) then [(alertId, row)] else []
  | None => []
  end.

(** [select().from(priceAlerts).where(and(eq(id, alertId), eq(userId, u))).limit(1)] *)
Definition selectOwned (alertId u : string) : Async (list (string * PriceAlertRow)) :=
  statement (λ w, (Returned (owned alertId u (priceAlerts w)), w)).

(** [delete(priceAlerts).where(and(eq(id, alertId), eq(userId, u)))
    .returning({ id })] *)
Definition deleteOwned (alertId u : string) : Async (list string) :=
  statement (λ w,
    let matched := owned alertId u (priceAlerts w) in
    (Returned matched.*1,
     setPriceAlerts (foldl (λ table id, delete id table) (priceAlerts w) matched.*1) w)).

Definition deactivated (row : PriceAlertRow) : PriceAlertRow :=
  {| userId := userId row; symbol := symbol row; condition := condition row;
     targetPrice := targetPrice row; percentChange := percentChange row;
     basePrice := basePrice row; isTriggered := isTriggered row; isActive := false;
     createdAt := createdAt row; triggeredAt := triggeredAt row |}.

(** [update(priceAlerts).set({ isActive: false })
    .where(and(eq(id, alertId), eq(userId, u))).returning()] *)
Definition deactivateOwned (alertId u : string) : Async (list (string * PriceAlertRow)) :=
  statement (λ w,
    let updated := prod_map Datatypes.id deactivated <$> owned alertId u (priceAlerts w) in
    (Returned updated,
     setPriceAlerts (foldl (λ table alert, <[alert.1 := alert.2]> table) (priceAlerts w)
                       updated) w)).

(** [export async function deleteAlert] *)
Definition deleteAlert (alertId userId : string) : Async bool :=
  result ← deleteOwned alertId userId; mret (bool_decide (0 < length result)%nat).

(** The number of rows that [getAlertCount] counts for [u] in [table]. *)
Definition activeCount (u : string) (table : gmap string PriceAlertRow) : nat :=
  length (filter (λ alert, userId alert.2 = u ∧ isActive alert.2 = true) (map_to_list table)).

Section WithRuntime.
(** [Number(string)], [Number.prototype.toString] and
    [String.prototype.toUpperCase] *)
Variable Number : string → float.
Variable toString : float → string.
Variable toUpperCase : string → string.

(** [Number(value)] for a string or null: [Number(null)] is [0]. *)
Definition NumberOf (value : option string) : float :=
  match value with
  | Some s => Number s
  | None => 0%float
  end.

(** [function toApiAlert] *)
Definition toApiAlert (dbAlert : string * PriceAlertRow) : Types.PriceAlert :=
  let '(id, row) := dbAlert in
  {| Types.id := id;
     Types.userId := userId row;
     Types.alertSymbol := symbol row;
     Types.condition := condition row;
     Types.targetPrice := NumberOf (targetPrice row);
     Types.percentChange :=
       if truthy (percentChange row) then Some (NumberOf (percentChange row)) else None;
     Types.isTriggered := isTriggered row;
     Types.isActive := isActive row;
     Types.createdAt := createdAt row;
     Types.triggeredAt := triggeredAt row |}.

(** [currentPrice?.price] *)
Definition priceOf (currentPrice : PriceAnswer) : option float :=
  match currentPrice with
  | Quoted price => Some (Types.price price)
  | _ => None
  end.

(** [export async function createAlert].  [getPrice] is the answer of the
    price service; when it rejects, so does [createAlert]. *)
Definition createAlert (getPrice : string → PriceAnswer)
    (userId : string) (symbol : string) (condition : string)
    (targetPrice : option float) (percentChange : option float)
    : Async Types.PriceAlert :=
  let currentPrice := getPrice symbol in
  let basePrice := priceOf currentPrice in
  λ w,
    match currentPrice with
    | SourceFailed => (Thrown "price source error", w)
    | _ =>
        let newAlert :=
          {| userId := userId;
             symbol := toUpperCase symbol;
             condition := condition;
             targetPrice := toString <$> targetPrice;
             percentChange := toString <$> percentChange;
             basePrice := toString <$> basePrice;
             isTriggered := false;
             isActive := true;
             createdAt := clock w;
             triggeredAt := None |} in
        (created ← insertAlert newAlert; mret (toApiAlert created)) w
    end.

(** The body of the loop of [checkAlertsForPrice]: the value of
    [shouldTrigger] for one alert. *)
Definition shouldTrigger (alert : PriceAlertRow) (price : Types.CryptoPrice) : bool :=
  if decide (condition alert = "above"%string) then
    truthy (targetPrice alert) && (NumberOf (targetPrice alert) <=? Types.price price)%float
  else if decide (condition alert = "below"%string) then
    truthy (targetPrice alert) && (Types.price price <=? NumberOf (targetPrice alert))%float
  else if decide (condition alert = "percent_change"%string) then
    if truthy (basePrice alert) && truthy (percentChange alert) then
      let basePrice := NumberOf (basePrice alert) in
      let targetPercent := NumberOf (percentChange alert) in
      let actualPercent := ((Types.price price - basePrice) / basePrice * 100)%float in
      if (0 <? targetPercent)%float && (targetPercent <=? actualPercent)%float then true
      else if (targetPercent <? 0)%float && (actualPercent <=? targetPercent)%float then true
      else false
    else false
  else false.

(** [export async function checkAlertsForPrice] *)
Definition checkAlertsForPrice (price : Types.CryptoPrice) : Async (list Types.PriceAlert) :=
  alerts ← selectActiveBySymbol (Types.symbol price);
  let hits := filter (λ alert, shouldTrigger alert.2 price = true) alerts in
  let alertIdsToTrigger := hits.*1 in
  let triggeredAlerts := toApiAlert <$> hits in
  if decide (0 < length alertIdsToTrigger)%nat then
    updateTriggered alertIdsToTrigger;;
    notifyEach triggeredAlerts price;;
    mret triggeredAlerts
  else mret triggeredAlerts.

(** [export async function checkAllAlerts] *)
Fixpoint checkAllAlerts (prices : list Types.CryptoPrice) : Async (list Types.PriceAlert) :=
  match prices with
  | [] => mret []
  | price :: prices =>
      triggered ← checkAlertsForPrice price;
      allTriggered ← checkAllAlerts prices;
      mret (triggered ++ allTriggered)
  end.

(** [export async function getAlertCount] *)
Definition getAlertCount (userId : string) : Async nat :=
  alerts ← selectActiveByUser userId; mret (length alerts).

(** [CreateAlertSchema.parse]: [None] stands for the [ZodError]. *)
Definition CreateAlertSchema (body : CreateAlert) : option CreateAlert :=
  let symbolOk :=
    ((1 <=? Types.utf16Length (bodySymbol body)) &&
     (Types.utf16Length (bodySymbol body) <=? 10))%nat in
  let conditionOk :=
    bool_decide (bodyCondition body ∈ ["above"; "below"; "percent_change"]%string) in
  let targetPriceOk :=
    match bodyTargetPrice body with
    | Some x => (0 <? x)%float
    | None => true
    end in
  let percentChangeOk :=
    match bodyPercentChange body with
    | Some x => negb (PrimFloat.is_nan x)
    | None => true
    end in
  let refinement :=
    if decide (bodyCondition body = "percent_change"%string)
    then bool_decide (is_Some (bodyPercentChange body))
    else bool_decide (is_Some (bodyTargetPrice body)) in
  if symbolOk && conditionOk && targetPriceOk && percentChangeOk && refinement then
    Some {| bodySymbol := toUpperCase (bodySymbol body);
            bodyCondition := bodyCondition body;
            bodyTargetPrice := bodyTargetPrice body;
            bodyPercentChange := bodyPercentChange body |}
  else None.

Definition failure (status : nat) (code : string) : Reply :=
  {| status := status; data := None; code := Some code |}.

(** The handler of [fastify.post('/', ...)] in alertsRoutes, entered once
    the authentication and rate-limit hooks and Fastify's own body schema
    (which also leaves [targetPrice] and [percentChange] optional) have let
    the request through. *)
Definition postAlert (getPrice : string → PriceAnswer)
    (user : option AuthenticatedUser) (requestBody : CreateAlert) : Async Reply :=
  tryCatch
    (match user with
     | None => mret (failure 401 "UNAUTHORIZED")
     | Some user =>
         if decide (id user = ""%string) then mret (failure 401 "UNAUTHORIZED") else
         match CreateAlertSchema requestBody with
         | None => mret (failure 400 "VALIDATION_ERROR")
         | Some body =>
             if negb (isSymbolSupported toUpperCase (bodySymbol body)) then
               mret (failure 400 "INVALID_SYMBOL")
             else
               currentCount ← getAlertCount (id user);
               let maxAlerts := getMaxAlerts (tier user) in
               if reached currentCount maxAlerts then
                 mret (failure 403 "ALERT_LIMIT_REACHED")
               else
                 alert ← createAlert getPrice (id user) (bodySymbol body)
                           (bodyCondition body) (bodyTargetPrice body)
                           (bodyPercentChange body);
                 mret {| status := 201; data := Some alert; code := None |}
         end
     end)
    (λ _, mret (failure 500 "INTERNAL_ERROR")).

(** An alert that a pass over [price] selects and finds to trigger. *)
Definition dueRow (price : Types.CryptoPrice) (alert : PriceAlertRow) : Prop :=
  (symbol alert = Types.symbol price ∧ isActive alert = true ∧ isTriggered alert = false) ∧
  shouldTrigger alert price = true.

(** The alerts of [table] that a pass over [price] selects and finds to
    trigger, in the order of the pass. *)
Definition due (price : Types.CryptoPrice) (table : gmap string PriceAlertRow)
    : list (string * PriceAlertRow) :=
  filter (λ alert, shouldTrigger alert.2 price = true)
    (filter (λ alert, symbol alert.2 = Types.symbol price ∧ isActive alert.2 = true ∧
                      isTriggered alert.2 = false)
       (map_to_list table)).

(** The trigger rule in the words of the specification: [above] triggers
    iff current ≥ target, [below] iff current ≤ target, [percent_change]
    computes actual = (current - basePrice) / basePrice * 100 and triggers
    iff threshold > 0 and actual ≥ threshold, or threshold < 0 and
    actual ≤ threshold. *)
Definition triggerRule (alert : PriceAlertRow) (current : float) : Prop :=
  (condition alert = "above"%string ∧
   ∃ target, targetPrice alert = Some target ∧ (Number target <=? current)%float = true) ∨
  (condition alert = "below"%string ∧
   ∃ target, targetPrice alert = Some target ∧ (current <=? Number target)%float = true) ∨
  (condition alert = "percent_change"%string ∧
   ∃ base threshold,
     basePrice alert = Some base ∧ percentChange alert = Some threshold ∧
     let actual := ((current - Number base) / Number base * 100)%float in
     ((0 <? Number threshold)%float = true ∧ (Number threshold <=? actual)%float = true) ∨
     ((Number threshold <? 0)%float = true ∧ (actual <=? Number threshold)%float = true)).

(** One run of the price-update job as far as the alerts are concerned:
    [checkAllAlerts] on the snapshots of the run, at the time of the run and
    under the database weather of the run. *)
Record Pass := {
  snapshots : list Types.CryptoPrice;
  time : Z;
  weather : list bool
}.

Definition evaluate (w : World) (pass : Pass) : World :=
  (checkAllAlerts (snapshots pass)
     {| priceAlerts := priceAlerts w; clock := time pass; outages := weather pass;
        uuids := uuids w; log := log w; decimal := decimal w |}).2.

Definition evaluations (passes : list Pass) (w : World) : World := foldl evaluate w passes.

(** [export async function getUserAlerts] *)
Definition getUserAlerts (userId : string) : Async (list Types.PriceAlert) :=
  alerts ← selectByUser userId; mret (toApiAlert <$> alerts).

(** [export async function getActiveAlerts] *)
Definition getActiveAlerts (userId : string) : Async (list Types.PriceAlert) :=
  alerts ← selectOpenByUser userId; mret (toApiAlert <$> alerts).

(** [export async function getAlert]: [const [alert] = ...;
    return alert ? toApiAlert(alert) : null] *)
Definition getAlert (alertId userId : string) : Async (option Types.PriceAlert) :=
  alerts ← selectOwned alertId userId; mret (toApiAlert <$> head alerts).

(** [export async function deactivateAlert] *)
Definition deactivateAlert (alertId userId : string) : Async (option Types.PriceAlert) :=
  updated ← deactivateOwned alertId userId; mret (toApiAlert <$> head updated).

(** [export async function getActiveAlertsBySymbol] *)
Definition getActiveAlertsBySymbol (symbol : string) : Async (list Types.PriceAlert) :=
  alerts ← selectActiveBySymbol (toUpperCase symbol); mret (toApiAlert <$> alerts).

End WithRuntime.

(** The driver renders a non-null [decimal] as a numeral, never as the
    empty string. *)
Definition numerals (alert : PriceAlertRow) : Prop :=
  targetPrice alert ≠ Some ""%string ∧ percentChange alert ≠ Some ""%string ∧
  basePrice alert ≠ Some ""%string.

(** The required field of an alert is there: the threshold of a
    [percent_change] alert, the target price of an [above] or [below]
    alert. *)
Definition requiredFieldSet (alert : PriceAlertRow) : Prop :=
  (condition alert = "percent_change"%string → is_Some (percentChange alert)) ∧
  (condition alert = "above"%string ∨ condition alert = "below"%string →
   is_Some (targetPrice alert)).

(** Effects that do not concern the alert [id]. *)
Definition silentAbout (id : string) (effects : list Effect) : Prop :=
  ∀ effect, effect ∈ effects →
    match effect with
    | Persisted ids _ => id ∉ ids
    | Announced alert _ => Types.id alert ≠ id
    end.

(** Stand-ins for the runtime, to run the model on examples.
    [decimalNumber] reads an optionally signed decimal numeral with an
    optional fraction and is [NaN] on anything else; [integerToString]
    prints integral values and drops the fraction of the others. *)
Fixpoint digitsValue (acc : Z) (scale : nat) (fraction : bool) (s : string)
    : option (Z * nat) :=
  match s with
  | EmptyString => Some (acc, scale)
  | String c s =>
      let n := Ascii.nat_of_ascii c in
      if ((48 <=? n) && (n <=? 57))%nat then
        digitsValue (10 * acc + Z.of_nat (n - 48)) (if fraction then S scale else scale)
          fraction s
      else if (n =? 46)%nat && negb fraction then digitsValue acc scale true s
      else None
  end.

Definition floatOfZ (z : Z) : float := PrimFloat.of_uint63 (Uint63.of_Z z).

Definition decimalNumber (s : string) : float :=
  let '(negative, digits) :=
    match s with
    | String ("-")%char rest => (true, rest)
    | _ => (false, s)
    end in
  match digits with
  | EmptyString => PrimFloat.nan
  | _ =>
      match digitsValue 0 0 false digits with
      | Some (mantissa, scale) =>
          let magnitude := (floatOfZ mantissa / floatOfZ (10 ^ Z.of_nat scale))%float in
          if negative then (- magnitude)%float else magnitude
      | None => PrimFloat.nan
      end
  end.

Definition integerToString (x : float) : string :=
  match Prim2SF x with
  | S754_zero _ => "0"
  | S754_infinity negative => if negative then "-Infinity" else "Infinity"
  | S754_nan => "NaN"
  | S754_finite negative mantissa exponent =>
      let magnitude :=
        if (0 <=? exponent)%Z then Z.pos mantissa * 2 ^ exponent
        else Z.pos mantissa / 2 ^ (- exponent) in
      ((if negative then "-" else "") +:+ pretty magnitude)%string
  end.

(** Whether a numeral has a decimal point. *)
Fixpoint hasPoint (s : string) : bool :=
  match s with
  | EmptyString => false
  | String c s => (Ascii.nat_of_ascii c =? 46)%nat || hasPoint s
  end.

(** [n] zeros. *)
Fixpoint zeros (n : nat) : string :=
  match n with
  | O => ""
  | S n => String "0" (zeros n)
  end.

(** Stand-in for the rendering of a column [decimal(precision, scale)], to
    run the model on examples: a numeral without a fraction gets [scale]
    zeros after the point; any other string is kept as it is. *)
Definition fixedPoint (precision scale : nat) (s : string) : string :=
  if hasPoint s then s
  else match scale with
       | O => s
       | S _ => (s +:+ "." +:+ zeros scale)%string
       end.

(** Example data: an [above] alert, and a table with one such alert on BTC
    at 100 and one on ETH at 10. *)
Definition aboveAlert (userId symbol target : string) : PriceAlertRow :=
  {| userId := userId; symbol := symbol; condition := "above";
     targetPrice := Some target; percentChange := None; basePrice := None;
     isTriggered := false; isActive := true; createdAt := 0; triggeredAt := None |}.

(** A [percent_change] alert on BTC with the given base price and
    threshold. *)
Definition changeAlert (base threshold : string) : PriceAlertRow :=
  {| userId := "u1"; symbol := "BTC"; condition := "percent_change";
     targetPrice := None; percentChange := Some threshold; basePrice := Some base;
     isTriggered := false; isActive := true; createdAt := 0; triggeredAt := None |}.

Definition twoAlerts : World :=
  {| priceAlerts := {[ "a1"%string := aboveAlert "u1" "BTC" "100";
                      "a2"%string := aboveAlert "u1" "ETH" "10" ]};
     clock := 1000; outages := []; uuids := ["a3"; "a4"]%string; log := [];
     decimal := fixedPoint |}.

Definition emptyWorld : World :=
  {| priceAlerts := ∅; clock := 1000; outages := []; uuids := ["a1"; "a2"]%string;
     log := []; decimal := fixedPoint |}.

End AlertService.

(** ** src/api/middleware/rateLimit.ts *)

Module RateLimit.

(** A Redis sorted set: members with their scores, and the time at which
    the key expires if a time to live was set.  A member written by
    [checkRateLimit] is the string [`${now}:${Math.random()}`]; it is kept as
    the pair of the two values, the random one as a number that stands for
    the digits printed. *)
Record SortedSet := {
  members : gmap (Z * N) Z;
  expireAt : option Z
}.

(** The sorted set under [key] at time [now]; a key past its expiry is
    gone.  Redis and [Date.now()] are read off the same clock. *)
Definition lookupKey (now : Z) (store : gmap string SortedSet) (key : string)
    : option SortedSet :=
  match store !! key with
  | Some set =>
      match expireAt set with
      | Some deadline => if decide (deadline < now) then None else Some set
      | None => Some set
      end
  | None => None
  end.

(** Redis keeps no empty sorted set: the key goes with its last member. *)
Definition storeKey (key : string) (set : SortedSet) (store : gmap string SortedSet)
    : gmap string SortedSet :=
  if decide (members set = ∅) then delete key store else <[key := set]> store.

(** [ZREMRANGEBYSCORE key min max]: removes the members whose score lies in
    [min, max], both ends included. *)
Definition zremrangebyscore (now : Z) (key : string) (min max : Z)
    (store : gmap string SortedSet) : gmap string SortedSet :=
  match lookupKey now store key with
  | Some set =>
      storeKey key
        {| members := filter (λ entry, ¬ (min ≤ entry.2 ≤ max)) (members set);
           expireAt := expireAt set |} store
  | None => delete key store
  end.

(** [ZCARD key] *)
Definition zcard (now : Z) (key : string) (store : gmap string SortedSet) : Z :=
  match lookupKey now store key with
  | Some set => Z.of_nat (size (members set))
  | None => 0
  end.

(** [ZADD key score member] *)
Definition zadd (now : Z) (key : string) (score : Z) (member : Z * N)
    (store : gmap string SortedSet) : gmap string SortedSet :=
  match lookupKey now store key with
  | Some set =>
      <[key := {| members := <[member := score]> (members set); expireAt := expireAt set |}]>
        store
  | None => <[key := {| members := {[member := score]}; expireAt := None |}]> store
  end.

(** [PEXPIRE key milliseconds] *)
Definition pexpire (now : Z) (key : string) (milliseconds : Z)
    (store : gmap string SortedSet) : gmap string SortedSet :=
  match lookupKey now store key with
  | Some set =>
      if decide (milliseconds ≤ 0) then delete key store
      else <[key := {| members := members set; expireAt := Some (now + milliseconds) |}]> store
  | None => delete key store
  end.

(** The replies of the four commands of the pipeline, as
    [pipeline.exec()] resolves with them, one [[err, result]] entry per
    command: [true] where the entry carries an error.  A command that
    replied with an error has done nothing. *)
Record Replies := {
  removeFails : bool;    (* ZREMRANGEBYSCORE key 0 windowStart *)
  countFails : bool;     (* ZCARD key *)
  addFails : bool;       (* ZADD key now member *)
  expireFails : bool     (* PEXPIRE key windowMs *)
}.

#[global] Instance Replies_eq_dec : EqDecision Replies.
Proof. solve_decision. Defined.

(** What the Redis client does with the commands of one call of
    [checkRateLimit]: all is well; [pipeline.exec()] rejects; it resolves
    with [null]; the pipeline goes through and the later
    [redis.zremrangebyscore] rejects; or the pipeline resolves with
    [replies], some of which carry an error, and the later removal rejects
    or not. *)
Inductive Fault :=
| Healthy
| ExecRejects
| ExecNull
| RemovalRejects
| ReplyErrors (replies : Replies) (removalRejects : bool).

#[global] Instance Fault_eq_dec : EqDecision Fault.
Proof. solve_decision. Defined.

(** The entries of [results] that carry an error. *)
Definition repliesOf (fault : Fault) : Replies :=
  match fault with
  | ReplyErrors replies _ => replies
  | _ => {| removeFails := false; countFails := false; addFails := false;
            expireFails := false |}
  end.

(** Whether [await redis.zremrangebyscore(key, now, now)] rejects. *)
Definition removalRejects (fault : Fault) : bool :=
  match fault with
  | RemovalRejects => true
  | ReplyErrors _ rejects => rejects
  | _ => false
  end.

(** A number that is an integer or [NaN]. *)
Inductive JsNumber := Finite (z : Z) | NaN.

(** What one call reads from outside: [Date.now()], [Math.random()] and the
    behaviour of the client. *)
Record Call := {
  now : Z;
  random : N;
  fault : Fault
}.

Record RateLimitResult := {
  allowed : bool;
  remaining : JsNumber;
  reset : Z
}.

(** [async function checkRateLimit].  [redis] is the module variable:
    [None] until [initializeRateLimitRedis] has run, then the store the
    client talks to.  A rejected or [null] pipeline is taken to have left
    the store as it was.  [currentCount] is [None] where the source has
    [undefined], the result of an entry [[err]]: then
    [limit - currentCount - 1] is [NaN] and [currentCount < limit] is
    false. *)
Definition checkRateLimit (redis : option (gmap string SortedSet)) (call : Call)
    (identifier : string) (limit windowMs : Z)
    : RateLimitResult * option (gmap string SortedSet) :=
  match redis with
  | None =>
      ({| allowed := true; remaining := Finite limit; reset := now call + windowMs |}, None)
  | Some store =>
      let now := now call in
      let windowStart := now - windowMs in
      let key := ("ratelimit:" +:+ identifier)%string in
      let failOpen :=
        {| allowed := true; remaining := Finite limit; reset := now + windowMs |} in
      match fault call with
      | ExecRejects => (failOpen, Some store)
      | ExecNull => (failOpen, Some store)
      | _ =>
          let replies := repliesOf (fault call) in
          let store :=
            if removeFails replies then store
            else zremrangebyscore now key 0 windowStart store in
          let currentCount :=
            if countFails replies then None else Some (zcard now key store) in
          let store :=
            if addFails replies then store
            else zadd now key now (now, random call) store in
          let store :=
            if expireFails replies then store else pexpire now key windowMs store in
          let remaining :=
            match currentCount with
            | Some count => Finite (Z.max 0 (limit - count - 1))
            | None => NaN
            end in
          let reset := now + windowMs in
          let allowed :=
            match currentCount with
            | Some count => count <? limit
            | None => false
            end in
          if negb allowed then
            if removalRejects (fault call) then (failOpen, Some store)
            else
              ({| allowed := allowed; remaining := remaining; reset := reset |},
               Some (zremrangebyscore now key now now store))
          else ({| allowed := allowed; remaining := remaining; reset := reset |}, Some store)
      end
  end.

(** A call at [now], with [Math.random()] giving [random], that the client
    carries out without fault. *)
Definition healthy (now : Z) (random : N) : Call :=
  {| now := now; random := random; fault := Healthy |}.

(** Successive calls for one identifier, oldest first: the answers, and the
    store they leave. *)
Fixpoint checks (redis : option (gmap string SortedSet)) (identifier : string)
    (limit windowMs : Z) (calls : list Call)
    : list RateLimitResult * option (gmap string SortedSet) :=
  match calls with
  | [] => ([], redis)
  | call :: calls =>
      let '(result, redis) := checkRateLimit redis call identifier limit windowMs in
      let '(results, redis) := checks redis identifier limit windowMs calls in
      (result :: results, redis)
  end.

(** The members under [key], with their scores, that a reader at time
    [now] finds. *)
Definition liveMembers (now : Z) (store : gmap string SortedSet) (key : string)
    : gmap (Z * N) Z :=
  match lookupKey now store key with
  | Some set => members set
  | None => ∅
  end.

(** The entries recorded for [identifier] that a reader at time [at_]
    finds. *)
Definition window (redis : option (gmap string SortedSet)) (identifier : string) (at_ : Z)
    : list (Z * N * Z) :=
  match redis with
  | Some store => map_to_list (liveMembers at_ store ("ratelimit:" +:+ identifier)%string)
  | None => []
  end.

(** *** The two middlewares *)

(** [AuthenticatedUser.tier] *)
Inductive Tier := free | pro | enterprise.

(** [request.user], as far as the limiter reads it.  [rateLimit] comes from
    a [decimal(10, 0)] column and is an integer. *)
Record AuthenticatedUser := {
  id : string;
  tier : Tier;
  rateLimit : Z
}.

Record Request := {
  user : option AuthenticatedUser;
  ip : string
}.

(** [env.RATE_LIMIT_MAX] and [env.RATE_LIMIT_WINDOW_MS] *)
Record Env := {
  RATE_LIMIT_MAX : Z;
  RATE_LIMIT_WINDOW_MS : Z
}.

(** [const tierLimits]: [requests] and [windowMs] *)
Definition tierLimits (tier : Tier) : Z * Z :=
  match tier with
  | free => (100, 60000)
  | pro => (1000, 60000)
  | enterprise => (10000, 60000)
  end.

(** [a || b] on numbers: zero is falsy. *)
Definition orElse (a b : Z) : Z := if decide (a = 0) then b else a.

(** [Math.ceil(a / b)] for integers [a] and [b > 0]. *)
Definition ceilDiv (a b : Z) : Z := - ((- a) / b).

(** The limit, the window and the identifier that [rateLimitMiddleware]
    passes to [checkRateLimit]. *)
Definition standardLimit (env : Env) (request : Request) : Z * Z * string :=
  match user request with
  | Some user =>
      let tierConfig := tierLimits (tier user) in
      (orElse (rateLimit user) tierConfig.1, tierConfig.2, "user:" +:+ id user)
  | None => (RATE_LIMIT_MAX env, RATE_LIMIT_WINDOW_MS env, "ip:" +:+ ip request)
  end%string.

(** ... and [strictRateLimitMiddleware]. *)
Definition strictLimit (request : Request) : Z * Z * string :=
  match user request with
  | Some user =>
      (ceilDiv (orElse (rateLimit user) 100) 10, 60000, "strict:user:" +:+ id user)
  | None => (10, 60000, "strict:ip:" +:+ ip request)
  end%string.

(** The middleware lets the request continue, or replies 429 with the
    header Retry-After. *)
Inductive Verdict := Continue | TooManyRequests (retryAfter : Z).

(** What the middleware does to the reply: the verdict, and the headers
    X-RateLimit-Limit, X-RateLimit-Remaining and X-RateLimit-Reset if it
    sets them. *)
Record Reply := {
  verdict : Verdict;
  headers : option (Z * JsNumber * Z)
}.

Definition verdictOf (result : RateLimitResult) (later : Z) : Verdict :=
  if allowed result then Continue
  else TooManyRequests (ceilDiv (reset result - later) 1000).

(** [export async function rateLimitMiddleware]; [later] is the
    [Date.now()] read for Retry-After. *)
Definition rateLimitMiddleware (env : Env) (redis : option (gmap string SortedSet))
    (call : Call) (later : Z) (request : Request)
    : Reply * option (gmap string SortedSet) :=
  let '(limit, windowMs, identifier) := standardLimit env request in
  let '(result, redis) := checkRateLimit redis call identifier limit windowMs in
  ({| verdict := verdictOf result later;
      headers := Some (limit, remaining result, ceilDiv (reset result) 1000) |}, redis).

(** [export async function strictRateLimitMiddleware] *)
Definition strictRateLimitMiddleware (redis : option (gmap string SortedSet))
    (call : Call) (later : Z) (request : Request)
    : Reply * option (gmap string SortedSet) :=
  let '(limit, windowMs, identifier) := strictLimit request in
  let '(result, redis) := checkRateLimit redis call identifier limit windowMs in
  ({| verdict := verdictOf result later; headers := None |}, redis).

End RateLimit.

(** ** The authentication middleware (auth.ts) *)

Module Auth.

(** A row of [users], as [validateApiKey] selects it; the column [api_key]
    is unique, and the table is kept by it. *)
Module Users.
Record Row := {
  id : string;
  tier : string;
  rateLimit : string;
  isActive : bool
}.
End Users.

Record AuthenticatedUser := {
  id : string;
  apiKey : string;
  tier : string;
  rateLimit : float
}.

(** An entry of [apiKeyCache] *)
Record CacheEntry := {
  user : AuthenticatedUser;
  expiresAt : Z
}.

Definition CACHE_TTL_MS : Z := 5 * 60 * 1000.

(** The reply of [authMiddleware]: 401 with a code, or the user attached to
    the request. *)
Inductive AuthReply :=
| Unauthorized (code : string)
| Authenticated (user : AuthenticatedUser).

Section WithRuntime.
(** [Number(string)] *)
Variable Number : string → float.

Definition authenticatedUser (key : string) (row : Users.Row) : AuthenticatedUser :=
  {| id := Users.id row; apiKey := key; tier := Users.tier row;
     rateLimit := Number (Users.rateLimit row) |}.

(** [async function validateApiKey].  [users] is the table and [failed]
    tells whether the query is rejected; [now] is the [Date.now()] of the
    cache check and [later] the one of the cache write. *)
Definition validateApiKey (apiKeyCache : gmap string CacheEntry)
    (users : gmap string Users.Row) (failed : bool) (key : string) (now later : Z)
    : option AuthenticatedUser * gmap string CacheEntry :=
  let query :=
    if failed then (None, apiKeyCache)
    else
      match users !! key with
      | Some row =>
          if Users.isActive row then
            let authenticated := authenticatedUser key row in
            (Some authenticated,
             <[key := {| user := authenticated; expiresAt := later + CACHE_TTL_MS |}]>
               apiKeyCache)
          else (None, apiKeyCache)
      | None => (None, apiKeyCache)
      end in
  match apiKeyCache !! key with
  | Some cached => if decide (now < expiresAt cached) then (Some (user cached), apiKeyCache)
                   else query
  | None => query
  end.

(** [export async function authMiddleware]; [header] is the value of the
    API-key header, if the request has one. *)
Definition authMiddleware (apiKeyCache : gmap string CacheEntry)
    (users : gmap string Users.Row) (failed : bool) (header : option string) (now later : Z)
    : AuthReply * gmap string CacheEntry :=
  match header with
  | None => (Unauthorized "MISSING_API_KEY", apiKeyCache)
  | Some key =>
      if decide (key = ""%string) then (Unauthorized "MISSING_API_KEY", apiKeyCache)
      else
        match validateApiKey apiKeyCache users failed key now later with
        | (Some user, apiKeyCache) => (Authenticated user, apiKeyCache)
        | (None, apiKeyCache) => (Unauthorized "INVALID_API_KEY", apiKeyCache)
        end
  end.
End WithRuntime.

(** [export function invalidateApiKeyCache] *)
Definition invalidateApiKeyCache (key : string) (apiKeyCache : gmap string CacheEntry)
    : gmap string CacheEntry :=
  delete key apiKeyCache.

(** [export function clearApiKeyCache] *)
Definition clearApiKeyCache (apiKeyCache : gmap string CacheEntry) : gmap string CacheEntry := ∅.

(** The cache has no entry for [key] that is still good at [now]. *)
Definition uncached (apiKeyCache : gmap string CacheEntry) (key : string) (now : Z) : Prop :=
  ∀ cached, apiKeyCache !! key = Some cached → expiresAt cached ≤ now.

(** The table has no active user with [key]. *)
Definition revoked (users : gmap string Users.Row) (key : string) : Prop :=
  ∀ row, users !! key = Some row → Users.isActive row = false.

(** Example data: one active free-tier user. *)
Definition oneUser : gmap string Users.Row :=
  {[ "k1"%string := {| Users.id := "u1"; Users.tier := "free"; Users.rateLimit := "100";
                       Users.isActive := true |} ]}.

End Auth.

(** ** src/jobs/priceUpdater.ts *)

Module PriceUpdater.


Section WithRuntime.
Variable Number : string → float.

End WithRuntime.

End PriceUpdater.

(** * Properties of the subscription registry *)

Module PriceHandlerFacts.
Import Types PriceService PriceHandler.

Lemma interested_dropSubscriber socket subs symbol symbol' socket' :
  interested (dropSubscriber socket subs symbol) symbol' socket' ↔
  interested subs symbol' socket' ∧ ¬ (socket' = socket ∧ symbol' = symbol).
Proof.
  unfold dropSubscriber, interested.
  destruct (subs !! symbol) as [subscribers|] eqn:Hsym.
  - cbn zeta. case_decide as Hsize.
    + apply size_empty_inv in Hsize.
      destruct (decide (symbol' = symbol)) as [->|Hne].
      * rewrite lookup_delete_eq, Hsym. split.
        { intros (? & ? & _); discriminate. }
        intros [(S & [= <-] & Hin) Hnot]. exfalso.
        assert (socket' ∈ subscribers ∖ {[socket]}) as Hx by set_solver.
        rewrite Hsize in Hx. set_solver.
      * rewrite lookup_delete_ne by done. naive_solver.
    + destruct (decide (symbol' = symbol)) as [->|Hne].
      * rewrite lookup_insert_eq, Hsym. split.
        { intros (S & [= <-] & Hin). split; [exists subscribers|]; set_solver. }
        intros [(S & [= <-] & Hin) Hnot].
        exists (subscribers ∖ {[socket]}). split; [done|]. set_solver.
      * rewrite lookup_insert_ne by done. naive_solver.
  - split; [|naive_solver].
    intros (S & Hlook & Hin). split; [eauto|].
    intros [_ ->]. congruence.
Qed.

Lemma interested_foldl_dropSubscriber socket (f : string → string) symbols :
  ∀ subs symbol' socket',
    interested (foldl (λ subs symbol, dropSubscriber socket subs (f symbol)) subs symbols)
      symbol' socket' ↔
    interested subs symbol' socket' ∧ ¬ (socket' = socket ∧ symbol' ∈ f <$> symbols).
Proof.
  induction symbols as [|symbol symbols IH]; intros subs symbol' socket'; cbn.
  - set_solver.
  - rewrite IH, interested_dropSubscriber. set_solver.
Qed.

Lemma interested_addSubscriber socket subs symbol symbol' socket' :
  interested (addSubscriber socket subs symbol) symbol' socket' ↔
  interested subs symbol' socket' ∨ (socket' = socket ∧ symbol' = symbol).
Proof.
  unfold addSubscriber, interested.
  destruct (decide (symbol' = symbol)) as [->|Hne].
  - rewrite lookup_insert_eq. split.
    + intros (S & [= <-] & Hin). apply elem_of_union in Hin as [Hin|Hin].
      * left. destruct (subs !! symbol); [eauto | set_solver].
      * right. set_solver.
    + intros [(S & Hlook & Hin) | [-> _]]; eexists; (split; [done|]).
      * rewrite Hlook. set_solver.
      * set_solver.
  - rewrite lookup_insert_ne by done. naive_solver.
Qed.

Lemma interested_foldl_addSubscriber socket symbols :
  ∀ subs symbol' socket',
    interested (foldl (addSubscriber socket) subs symbols) symbol' socket' ↔
    interested subs symbol' socket' ∨ (socket' = socket ∧ symbol' ∈ symbols).
Proof.
  induction symbols as [|symbol symbols IH]; intros subs symbol' socket'; cbn.
  - set_solver.
  - rewrite IH, interested_addSubscriber. set_solver.
Qed.

Lemma elem_of_foldl_add (symbols : list string) :
  ∀ (set : gset string) x,
    x ∈ foldl (λ set symbol, set ∪ {[symbol]}) set symbols ↔ x ∈ set ∨ x ∈ symbols.
Proof.
  induction symbols as [|symbol symbols IH]; intros set x; cbn.
  - set_solver.
  - rewrite IH. set_solver.
Qed.

Lemma elem_of_foldl_delete (f : string → string) (symbols : list string) :
  ∀ (set : gset string) x,
    x ∈ foldl (λ set symbol, set ∖ {[f symbol]}) set symbols ↔ x ∈ set ∧ x ∉ f <$> symbols.
Proof.
  induction symbols as [|symbol symbols IH]; intros set x; cbn.
  - set_solver.
  - rewrite IH. set_solver.
Qed.

Lemma sameRegistry_refl st : sameRegistry st st.
Proof. by repeat split. Qed.

Lemma sameRegistry_trans st1 st2 st3 :
  sameRegistry st1 st2 → sameRegistry st2 st3 → sameRegistry st1 st3.
Proof. intros (? & ? & ?) (? & ? & ?). repeat split; congruence. Qed.

Lemma sendToClient_sameRegistry socket message st :
  sameRegistry st (sendToClient socket message st).
Proof. unfold sendToClient. case_decide; by repeat split. Qed.

Lemma foldl_sameRegistry {A} (f : State → A → State) (l : list A) :
  (∀ st a, sameRegistry st (f st a)) → ∀ st, sameRegistry st (foldl f st l).
Proof.
  intros Hf. induction l as [|a l IH]; intros st; cbn.
  - apply sameRegistry_refl.
  - eapply sameRegistry_trans; [apply Hf | apply IH].
Qed.

Lemma registryInv_sameRegistry st st' :
  sameRegistry st st' → registryInv st → registryInv st'.
Proof.
  intros (Hc & Hs & Hn) [Hcons Halloc]. split.
  - intros socket symbol. rewrite Hc, Hs. apply Hcons.
  - intros socket. rewrite Hc, Hn. apply Halloc.
Qed.

Lemma registryInv_setReadyState socket rs st :
  registryInv st → registryInv (setReadyState socket rs st).
Proof. apply registryInv_sameRegistry. by repeat split. Qed.

Lemma registryInv_close socket st : registryInv st → registryInv (close socket st).
Proof.
  unfold close. destruct (readyStateOf st socket); auto using registryInv_setReadyState.
Qed.

Lemma registryInv_handleDisconnection socket st :
  registryInv st → registryInv (handleDisconnection socket st).
Proof.
  intros [Hcons Halloc]. unfold handleDisconnection.
  destruct (connections st !! socket) as [connection|] eqn:Hconn; [|by split].
  split.
  - intros socket' symbol. cbn.
    pose proof (interested_foldl_dropSubscriber socket Datatypes.id
                  (elements (subscribedSymbols connection))
                  (symbolSubscribers st) symbol socket') as Hdrop.
    rewrite list_fmap_id in Hdrop. cbn in Hdrop. rewrite Hdrop, (Hcons socket' symbol).
    unfold subscribed. destruct (decide (socket' = socket)) as [->|Hne].
    + rewrite lookup_delete_eq, Hconn. split.
      * intros [(c & [= <-] & Hin) Hnot]. exfalso. apply Hnot. split; [done|].
        by apply elem_of_elements.
      * intros (? & ? & _). discriminate.
    + rewrite lookup_delete_ne by done. naive_solver.
  - intros socket' Hsome. cbn in *. apply Halloc.
    destruct (decide (socket' = socket)) as [->|Hne].
    + by rewrite lookup_delete_eq in Hsome; destruct Hsome.
    + by rewrite lookup_delete_ne in Hsome.
Qed.

Lemma allocated_insert socket connection connection' st :
  connections st !! socket = Some connection → allocated st →
  allocated (setConnections (insert socket connection') st).
Proof.
  intros Hconn Halloc socket' Hsome. cbn in *. apply Halloc.
  destruct (decide (socket' = socket)) as [->|Hne]; [by rewrite Hconn|].
  by rewrite lookup_insert_ne in Hsome.
Qed.

(** Replacing a connection record by one with the same interest set. *)
Lemma registryInv_touch socket connection connection' st :
  connections st !! socket = Some connection →
  subscribedSymbols connection' = subscribedSymbols connection →
  registryInv st → registryInv (setConnections (insert socket connection') st).
Proof.
  intros Hconn Hsame [Hcons Halloc]. split; [|by eapply allocated_insert].
  intros socket' symbol. cbn. rewrite (Hcons socket' symbol). unfold subscribed.
  destruct (decide (socket' = socket)) as [->|Hne].
  - rewrite lookup_insert_eq, Hconn. split; intros (c & [= <-] & Hin); eexists; split; eauto.
    + by rewrite Hsame.
    + by rewrite <- Hsame.
  - by rewrite lookup_insert_ne.
Qed.

Lemma registryInv_handlePing socket now st :
  registryInv st → registryInv (handlePing socket now st).
Proof.
  intros Hinv. unfold handlePing.
  destruct (connections st !! socket) as [connection|] eqn:Hconn; [|done].
  by eapply registryInv_touch.
Qed.

Lemma registryInv_init : registryInv init.
Proof.
  split.
  - intros socket symbol. unfold interested, subscribed. cbn.
    rewrite !lookup_empty. naive_solver.
  - intros socket [? Hsome]. cbn in Hsome. by rewrite lookup_empty in Hsome.
Qed.

Section Handlers.
Variable toUpperCase : string → string.

Lemma sendCurrentPrices_sameRegistry getPrice socket symbols :
  ∀ st, sameRegistry st (sendCurrentPrices getPrice socket symbols st).1.
Proof.
  induction symbols as [|symbol symbols IH]; intros st; cbn.
  - apply sameRegistry_refl.
  - destruct (getPrice symbol); [|apply IH|apply sameRegistry_refl].
    eapply sameRegistry_trans; [apply sendToClient_sameRegistry | apply IH].
Qed.

Lemma registryInv_handleSubscribe getPrice socket connection symbols st :
  connections st !! socket = Some connection →
  registryInv st →
  registryInv (handleSubscribe toUpperCase getPrice socket connection symbols st).1.
Proof.
  intros Hconn Hinv. unfold handleSubscribe.
  destruct (classify toUpperCase symbols) as [validSymbols invalidSymbols].
  set (st1 := if decide (0 < length invalidSymbols)%nat then _ else st).
  assert (sameRegistry st st1) as Hst1.
  { subst st1. case_decide; [apply sendToClient_sameRegistry | apply sameRegistry_refl]. }
  eapply registryInv_sameRegistry; [apply sendCurrentPrices_sameRegistry|].
  eapply registryInv_sameRegistry; [apply sendToClient_sameRegistry|].
  destruct Hst1 as (Hc & Hs & Hn). destruct Hinv as [Hcons Halloc]. split.
  - intros socket' symbol. cbn. rewrite Hc, Hs.
    rewrite interested_foldl_addSubscriber, (Hcons socket' symbol). unfold subscribed.
    destruct (decide (socket' = socket)) as [->|Hne].
    + rewrite lookup_insert_eq, Hconn. cbn. split.
      * intros [(c & [= <-] & Hin) | [_ Hin]]; eexists; (split; [done|]); cbn;
          apply elem_of_foldl_add; auto.
      * intros (c & [= <-] & Hin). cbn in Hin. apply elem_of_foldl_add in Hin as [Hin|Hin];
          [left; eauto | right; auto].
    + rewrite lookup_insert_ne by done. naive_solver.
  - intros socket' Hsome. cbn in *. rewrite Hn. rewrite Hc in Hsome. apply Halloc.
    destruct (decide (socket' = socket)) as [->|Hne]; [by rewrite Hconn|].
    by rewrite lookup_insert_ne in Hsome.
Qed.

Lemma registryInv_handleUnsubscribe socket connection symbols st :
  connections st !! socket = Some connection →
  registryInv st →
  registryInv (handleUnsubscribe toUpperCase socket connection symbols st).
Proof.
  intros Hconn [Hcons Halloc]. unfold handleUnsubscribe.
  eapply registryInv_sameRegistry; [apply sendToClient_sameRegistry|].
  split.
  - intros socket' symbol. cbn.
    rewrite interested_foldl_dropSubscriber, (Hcons socket' symbol). unfold subscribed.
    destruct (decide (socket' = socket)) as [->|Hne].
    + rewrite lookup_insert_eq, Hconn. cbn. split.
      * intros [(c & [= <-] & Hin) Hnot]. eexists; split; [done|]. cbn.
        apply elem_of_foldl_delete. split; [done|]. intros Hup. apply Hnot. by split.
      * intros (c & [= <-] & Hin). cbn in Hin.
        apply elem_of_foldl_delete in Hin as [Hin Hup]. split; [eauto|]. by intros [_ ?].
    + rewrite lookup_insert_ne by done. naive_solver.
  - intros socket' Hsome. cbn in *. apply Halloc.
    destruct (decide (socket' = socket)) as [->|Hne]; [by rewrite Hconn|].
    by rewrite lookup_insert_ne in Hsome.
Qed.

Lemma registryInv_handleMessage getPrice socket data now st :
  registryInv st → registryInv (handleMessage toUpperCase getPrice socket data now st).
Proof.
  intros Hinv. unfold handleMessage.
  destruct (connections st !! socket) as [connection|] eqn:Hconn.
  2: { eapply registryInv_sameRegistry; [apply sendToClient_sameRegistry | done]. }
  set (connection' := {| subscribedSymbols := subscribedSymbols connection;
                         userId := PriceHandler.userId connection; lastPing := now |}).
  assert (registryInv (setConnections (insert socket connection') st)) as Hinv'.
  { by eapply registryInv_touch. }
  assert (connections (setConnections (insert socket connection') st) !! socket
          = Some connection') as Hconn'.
  { cbn. apply lookup_insert_eq. }
  assert (∀ message code,
            registryInv (sendError socket message code
                           (setConnections (insert socket connection') st))) as Herr.
  { intros. eapply registryInv_sameRegistry; [apply sendToClient_sameRegistry | done]. }
  destruct data as [| |type symbols]; [apply Herr| |].
  - cbn. apply Herr.
  - destruct (WSClientMessageSchema toUpperCase (JMessage type symbols)) as [[upper|upper]|].
    + pose proof (registryInv_handleSubscribe getPrice socket connection' upper _
                    Hconn' Hinv') as Hsub.
      destruct (handleSubscribe toUpperCase getPrice socket connection' upper _)
        as [st' threw].
      destruct threw; [|done].
      eapply registryInv_sameRegistry; [apply sendToClient_sameRegistry | done].
    + by apply registryInv_handleUnsubscribe.
    + apply Herr.
Qed.

(** A connection is registered under a socket that was never used. *)
Lemma registryInv_handleConnection userId now st :
  registryInv st →
  registryInv
    (handleConnection (nextSocket st) userId now
       {| connections := connections st; symbolSubscribers := symbolSubscribers st;
          readyState := <[nextSocket st := OPEN]> (readyState st); sent := sent st;
          nextSocket := (nextSocket st + 1)%positive |}).
Proof.
  intros [Hcons Halloc]. unfold handleConnection.
  eapply registryInv_sameRegistry; [apply sendToClient_sameRegistry|].
  assert (connections st !! nextSocket st = None) as Hfresh.
  { destruct (connections st !! nextSocket st) eqn:Hlook; [|done].
    assert (nextSocket st < nextSocket st)%positive by (apply Halloc; eauto). lia. }
  split.
  - intros socket symbol. cbn. rewrite (Hcons socket symbol). unfold subscribed.
    destruct (decide (socket = nextSocket st)) as [->|Hne].
    + rewrite lookup_insert_eq, Hfresh. split.
      * intros (? & ? & _). discriminate.
      * intros (c & [= <-] & Hin). cbn in Hin. set_solver.
    + by rewrite lookup_insert_ne.
  - intros socket Hsome. cbn in *.
    destruct (decide (socket = nextSocket st)) as [->|Hne]; [lia|].
    rewrite lookup_insert_ne in Hsome by done. apply Halloc in Hsome. lia.
Qed.

Lemma foldl_registryInv {A} (f : State → A → State) (l : list A) :
  (∀ st a, registryInv st → registryInv (f st a)) →
  ∀ st, registryInv st → registryInv (foldl f st l).
Proof.
  intros Hf. induction l as [|a l IH]; intros st Hinv; cbn; [done|].
  apply IH, Hf, Hinv.
Qed.

Lemma registryInv_cleanupStaleConnections maxAge now st :
  registryInv st → registryInv (cleanupStaleConnections maxAge now st).
Proof.
  unfold cleanupStaleConnections. apply foldl_registryInv.
  intros st' [socket connection] Hinv. case_decide; [|done].
  by apply registryInv_handleDisconnection, registryInv_close.
Qed.

Lemma broadcastPriceUpdate_sameRegistry price st :
  sameRegistry st (broadcastPriceUpdate price st).
Proof.
  unfold broadcastPriceUpdate.
  destruct (symbolSubscribers st !! symbol price); [|apply sameRegistry_refl].
  case_decide; [|apply sameRegistry_refl].
  apply foldl_sameRegistry. intros. apply sendToClient_sameRegistry.
Qed.

Lemma broadcastAlertTriggered_sameRegistry alert price st :
  sameRegistry st (broadcastAlertTriggered alert price st).
Proof.
  unfold broadcastAlertTriggered. apply foldl_sameRegistry.
  intros st' [socket connection]. case_decide; [|apply sameRegistry_refl].
  eapply sameRegistry_trans; apply sendToClient_sameRegistry.
Qed.

Lemma registryInv_step st ev : registryInv st → registryInv (step toUpperCase st ev).
Proof.
  intros Hinv. destruct ev; cbn.
  - by apply registryInv_handleConnection.
  - by apply registryInv_handleMessage.
  - by apply registryInv_handlePing.
  - by apply registryInv_close.
  - by apply registryInv_handleDisconnection, registryInv_setReadyState.
  - by apply registryInv_handleDisconnection.
  - by apply registryInv_cleanupStaleConnections.
  - eapply registryInv_sameRegistry; [apply broadcastPriceUpdate_sameRegistry | done].
  - eapply registryInv_sameRegistry; [apply broadcastAlertTriggered_sameRegistry | done].
Qed.

Lemma registryInv_run events : ∀ st, registryInv st → registryInv (run toUpperCase events st).
Proof. apply foldl_registryInv. intros. by apply registryInv_step. Qed.

End Handlers.

(** C1.  Whatever happens to the handler from its initial, empty state on
    (connections, subscribe and unsubscribe messages, close and error
    events, heartbeat sweeps, broadcasts), the reverse index and the
    per-connection interest sets agree: a socket is in
    [symbolSubscribers[s]] exactly when [s] is in the [subscribedSymbols] of
    the connection stored for that socket. *)
Theorem registry_consistent (toUpperCase : string → string) (events : list Event) :
  ∀ socket symbol,
    (∃ subscribers,
        symbolSubscribers (run toUpperCase events init) !! symbol = Some subscribers ∧
        socket ∈ subscribers) ↔
    (∃ connection,
        connections (run toUpperCase events init) !! socket = Some connection ∧
        symbol ∈ subscribedSymbols connection).
Proof.
  pose proof (registryInv_run toUpperCase events init registryInv_init) as [Hcons _].
  exact Hcons.
Qed.

(** *** Broadcasting *)

Lemma sendToClient_readyState socket message st :
  readyState (sendToClient socket message st) = readyState st.
Proof. unfold sendToClient. by case_decide. Qed.

Lemma foldl_sendToClient message (sockets : list positive) :
  ∀ st,
    let st' := foldl (λ st socket, sendToClient socket message st) st sockets in
    readyState st' = readyState st ∧
    sent st' =
      sent st ++ ((λ socket, (socket, message)) <$>
                    filter (λ socket, readyStateOf st socket = OPEN) sockets).
Proof.
  induction sockets as [|socket sockets IH]; intros st; cbn.
  - by rewrite app_nil_r.
  - destruct (IH (sendToClient socket message st)) as [Hrs Hsent].
    rewrite Hrs, Hsent, sendToClient_readyState. split; [done|].
    assert (∀ k, readyStateOf (sendToClient socket message st) k = readyStateOf st k) as Hsame.
    { intros k. unfold readyStateOf. by rewrite sendToClient_readyState. }
    rewrite (list_filter_iff _ (λ k, readyStateOf st k = OPEN) sockets)
      by (intros k; by rewrite Hsame).
    unfold sendToClient at 1.
    destruct (decide (readyStateOf st socket = OPEN)) as [Hopen|Hopen]; cbn; [|done].
    by rewrite <- app_assoc.
Qed.

(** The frames of one price broadcast: one per OPEN socket of the interest
    set of the symbol, and nothing else. *)
Lemma broadcastPriceUpdate_sent price st :
  sent (broadcastPriceUpdate price st) =
    sent st ++ ((λ socket, (socket, PriceUpdate price)) <$>
                  filter (λ socket, readyStateOf st socket = OPEN)
                    (elements (default ∅ (symbolSubscribers st !! symbol price)))).
Proof.
  unfold broadcastPriceUpdate.
  destruct (symbolSubscribers st !! symbol price) as [subscribers|]; cbn.
  - case_decide as Hsize.
    + apply foldl_sendToClient.
    + assert (subscribers = ∅) as ->.
      { apply leibniz_equiv, size_empty_inv. lia. }
      rewrite elements_empty. cbn. by rewrite app_nil_r.
  - rewrite elements_empty. cbn. by rewrite app_nil_r.
Qed.

Lemma handleDisconnection_gone socket st :
  registryInv st →
  connections (handleDisconnection socket st) !! socket = None ∧
  ∀ symbol, ¬ interested (symbolSubscribers (handleDisconnection socket st)) symbol socket.
Proof.
  intros Hinv.
  assert (connections (handleDisconnection socket st) !! socket = None) as Hnone.
  { unfold handleDisconnection.
    destruct (connections st !! socket) eqn:Hconn; [|done]. cbn. apply lookup_delete_eq. }
  split; [done|]. intros symbol Hint.
  apply (registryInv_handleDisconnection socket) in Hinv as [Hcons _].
  apply Hcons in Hint as (c & Hc & _). congruence.
Qed.

(** C7 as stated fails.  A subscriber of BTC whose socket is CLOSING is
    still in the connection map and in the interest set of BTC after a BTC
    price has been broadcast: the broadcast does not deregister it. *)
Lemma broadcastPriceUpdate_keeps_closing_socket :
  let st := run asciiToUpperCase closingSubscriber init in
  let st' := broadcastPriceUpdate (snapshot "BTC" 100) st in
  readyStateOf st 1 = CLOSING ∧
  interested (symbolSubscribers st) "BTC" 1 ∧
  is_Some (connections st' !! 1%positive) ∧
  interested (symbolSubscribers st') "BTC" 1.
Proof.
  cbv zeta. split; [by vm_compute|]. split; [|split].
  - exists {[1%positive]}. split; [by vm_compute | set_solver].
  - apply elem_of_dom. by vm_compute.
  - exists {[1%positive]}. split; [by vm_compute | set_solver].
Qed.

(** The frames of a price broadcast go to OPEN sockets of registered
    connections only. *)
Lemma broadcastPriceUpdate_frame price st socket message :
  consistent st →
  (socket, message) ∈ framesSince st (broadcastPriceUpdate price st) →
  readyStateOf st socket = OPEN ∧ is_Some (connections st !! socket).
Proof.
  intros Hcons. unfold framesSince. rewrite broadcastPriceUpdate_sent, drop_app_length.
  intros Hin. apply list_elem_of_fmap in Hin as (socket' & [= <- _] & Hin).
  apply list_elem_of_filter in Hin as [Hopen Hin]. split; [done|].
  apply elem_of_elements in Hin.
  destruct (symbolSubscribers st !! symbol price) as [subscribers|] eqn:Hlook;
    cbn in Hin; [|set_solver].
  destruct (proj1 (Hcons socket (symbol price))) as (connection & Hconn & _);
    [by exists subscribers|]. by rewrite Hconn.
Qed.

(** C7, amended.  In every reachable state, a price broadcast leaves the
    connection map and every interest set as they are, and among the
    frames it hands to the transport there is none for a socket that is not
    OPEN and none for a socket without a connection: a closed connection is
    skipped, and nothing is retried or redelivered.  A failed send is
    reported by the transport with the 'error' event of the socket, a
    closed transport with its 'close' event; when either is handled after
    the broadcast, the connection is removed from the connection map and
    from every interest set, and a broadcast that follows hands the socket
    no frame. *)
Theorem broadcastPriceUpdate_skips_unreachable_socket
    (toUpperCase : string → string) (events : list Event)
    (price : CryptoPrice) (socket : WebSocket) :
  let st := run toUpperCase events init in
  let st' := broadcastPriceUpdate price st in
  connections st' = connections st ∧
  symbolSubscribers st' = symbolSubscribers st ∧
  (readyStateOf st socket ≠ OPEN ∨ connections st !! socket = None →
   ∀ message, (socket, message) ∉ framesSince st st') ∧
  (∀ ev, ev = Close socket ∨ ev = SocketError socket →
     let st'' := step toUpperCase st' ev in
     connections st'' !! socket = None ∧
     (∀ symbol, ¬ interested (symbolSubscribers st'') symbol socket) ∧
     ∀ later message,
       (socket, message) ∉ framesSince st'' (broadcastPriceUpdate later st'')).
Proof.
  intros st st'.
  pose proof (registryInv_run toUpperCase events init registryInv_init) as Hinv.
  fold st in Hinv.
  destruct (broadcastPriceUpdate_sameRegistry price st) as (Hc & Hs & Hn). fold st' in Hc, Hs, Hn.
  assert (registryInv st') as Hinv'.
  { eapply registryInv_sameRegistry; [|exact Hinv]. by repeat split. }
  split; [done|]. split; [done|]. split.
  - intros Hunreachable message Hin. subst st'.
    apply broadcastPriceUpdate_frame in Hin as [Hopen Hconn]; [|by destruct Hinv].
    destruct Hunreachable as [Hclosed|Hnone]; [done|].
    rewrite Hnone in Hconn. by destruct Hconn.
  - intros ev Hev st''.
    assert (registryInv st'') as Hinv'' by by apply registryInv_step.
    assert (connections st'' !! socket = None ∧
            ∀ symbol, ¬ interested (symbolSubscribers st'') symbol socket) as [Hnone Hout].
    { subst st''. destruct Hev as [->| ->]; cbn.
      - by apply handleDisconnection_gone, registryInv_setReadyState.
      - by apply handleDisconnection_gone. }
    split; [done|]. split; [done|].
    intros later message Hin.
    apply broadcastPriceUpdate_frame in Hin as [_ Hconn]; [|by destruct Hinv''].
    rewrite Hnone in Hconn. by destruct Hconn.
Qed.

Lemma broadcastPriceUpdate_skips_unreachable_socket_witness :
  let st := run asciiToUpperCase closingSubscriber init in
  let st' := broadcastPriceUpdate (snapshot "BTC" 100) st in
  readyStateOf st 1 ≠ OPEN ∧
  interested (symbolSubscribers st) "BTC" 1 ∧
  connections st' = connections st ∧
  symbolSubscribers st' = symbolSubscribers st ∧
  (∀ message, (1%positive, message) ∉ framesSince st st') ∧
  (∀ ev, ev = Close 1 ∨ ev = SocketError 1 →
     let st'' := step asciiToUpperCase st' ev in
     connections st'' !! 1%positive = None ∧
     (∀ symbol, ¬ interested (symbolSubscribers st'') symbol 1) ∧
     ∀ later message,
       (1%positive, message) ∉ framesSince st'' (broadcastPriceUpdate later st'')).
Proof.
  cbv zeta.
  assert (readyStateOf (run asciiToUpperCase closingSubscriber init) 1 ≠ OPEN) as Hclosed.
  { vm_compute. discriminate. }
  split; [exact Hclosed|].
  split; [exists {[1%positive]}; split; [by vm_compute | set_solver]|].
  destruct (broadcastPriceUpdate_skips_unreachable_socket asciiToUpperCase closingSubscriber
              (snapshot "BTC" 100) 1%positive) as (Hc & Hs & Hskip & Hgone).
  split; [exact Hc|]. split; [exact Hs|]. split; [|exact Hgone].
  apply Hskip. by left.
Defined.

(** *** Admission of connections *)

Lemma getConnectionCount_connects (toUpperCase : string → string) userId now (n : nat) :
  ∀ st, registryInv st →
    getConnectionCount (run toUpperCase (replicate n (Connect userId now)) st)
    = (n + getConnectionCount st)%nat.
Proof.
  induction n as [|n IH]; intros st Hinv; [done|].
  change (replicate (S n) (Connect userId now))
    with (Connect userId now :: replicate n (Connect userId now)).
  unfold run in *. cbn [foldl].
  rewrite IH by (by apply registryInv_step).
  assert (connections st !! nextSocket st = None) as Hfresh.
  { destruct Hinv as [_ Halloc]. destruct (connections st !! nextSocket st) eqn:Hlook; [|done].
    assert (nextSocket st < nextSocket st)%positive by (apply Halloc; eauto). lia. }
  cbn. unfold handleConnection, getConnectionCount.
  destruct (sendToClient_sameRegistry (nextSocket st) (Subscribed [])
              (setConnections
                 (insert (nextSocket st)
                    {| subscribedSymbols := ∅; userId := userId; lastPing := now |})
                 {| connections := connections st; symbolSubscribers := symbolSubscribers st;
                    readyState := <[nextSocket st := OPEN]> (readyState st); sent := sent st;
                    nextSocket := (nextSocket st + 1)%positive |})) as (-> & _ & _).
  cbn. rewrite map_size_insert_None by done. lia.
Qed.

(** A connection is admitted whatever the number of connections is. *)
Lemma handleConnection_accepts (toUpperCase : string → string) userId now st :
  registryInv st →
  let st' := step toUpperCase st (Connect userId now) in
  getConnectionCount st' = S (getConnectionCount st) ∧
  (∃ connection,
      connections st' !! nextSocket st = Some connection ∧
      subscribedSymbols connection = ∅) ∧
  sent st' = sent st ++ [(nextSocket st, Subscribed [])].
Proof.
  intros Hinv st'.
  pose proof (getConnectionCount_connects toUpperCase userId now 1 st Hinv) as Hone.
  cbn [replicate run foldl] in Hone. fold st' in Hone.
  split; [by rewrite Hone|]. split.
  - subst st'. cbn [step]. unfold handleConnection.
    destruct (sendToClient_sameRegistry (nextSocket st) (Subscribed [])
                (setConnections
                   (insert (nextSocket st)
                      {| subscribedSymbols := ∅; userId := userId; lastPing := now |})
                   {| connections := connections st; symbolSubscribers := symbolSubscribers st;
                      readyState := <[nextSocket st := OPEN]> (readyState st); sent := sent st;
                      nextSocket := (nextSocket st + 1)%positive |})) as (-> & _ & _).
    cbn. rewrite lookup_insert_eq. eauto.
  - subst st'. cbn [step]. unfold handleConnection, sendToClient, readyStateOf. cbn.
    rewrite lookup_insert_eq. cbn. by rewrite decide_True.
Qed.

(** C6, evaluated where the code departs from it.  With
    [WS_MAX_CONNECTIONS] connections registered, one more connection is
    admitted like any other: the count goes one above the configured cap,
    the new connection has an empty interest set, and the client is sent
    the welcome frame rather than an error. *)
Theorem handleConnection_ignores_WS_MAX_CONNECTIONS (toUpperCase : string → string) :
  let st := run toUpperCase (replicate WS_MAX_CONNECTIONS (Connect None 0)) init in
  let st' := step toUpperCase st (Connect None 0) in
  getConnectionCount st = WS_MAX_CONNECTIONS ∧
  getConnectionCount st' = S WS_MAX_CONNECTIONS ∧
  (∃ connection,
      connections st' !! nextSocket st = Some connection ∧
      subscribedSymbols connection = ∅) ∧
  sent st' = sent st ++ [(nextSocket st, Subscribed [])].
Proof.
  intros st st'.
  assert (getConnectionCount st = WS_MAX_CONNECTIONS) as Hcount.
  { subst st. rewrite getConnectionCount_connects by apply registryInv_init.
    unfold getConnectionCount. cbn [init connections]. rewrite map_size_empty. lia. }
  assert (registryInv st) as Hinv by apply registryInv_run, registryInv_init.
  subst st'. clearbody st.
  destruct (handleConnection_accepts toUpperCase None 0 st Hinv) as (Hone & Hnew & Hsent).
  by rewrite <- Hcount.
Qed.

End PriceHandlerFacts.

(** * Properties of the alert evaluator *)

Module AlertServiceFacts.
Import PriceService AlertService.

Lemma nextStatement_world w :
  priceAlerts (nextStatement w).2 = priceAlerts w ∧ clock (nextStatement w).2 = clock w ∧
  log (nextStatement w).2 = log w ∧ uuids (nextStatement w).2 = uuids w.
Proof. unfold nextStatement. by destruct (outages w). Qed.

Lemma nextStatement_decimal w : decimal (nextStatement w).2 = decimal w.
Proof. unfold nextStatement. by destruct (outages w). Qed.

Lemma nextStatement_healthy w : outages w = [] → nextStatement w = (false, w).
Proof. unfold nextStatement. by intros ->. Qed.

Lemma truthy_numeral (value : string) : value ≠ ""%string → truthy (Some value) = true.
Proof. intros Hne. cbn. by destruct value. Qed.

Section Evaluator.
Variable Number : string → float.

Lemma notifyEach_spec price (alerts : list Types.PriceAlert) :
  ∀ w,
    (notifyEach alerts price w).1 = Returned () ∧
    priceAlerts (notifyEach alerts price w).2 = priceAlerts w ∧
    clock (notifyEach alerts price w).2 = clock w ∧
    outages (notifyEach alerts price w).2 = outages w ∧
    log (notifyEach alerts price w).2 = log w ++ ((λ alert, Announced alert price) <$> alerts).
Proof.
  induction alerts as [|alert alerts IH]; intros w.
  - cbn. by rewrite app_nil_r.
  - change (notifyEach (alert :: alerts) price w)
      with (notifyEach alerts price (record (Announced alert price) w)).
    destruct (IH (record (Announced alert price) w)) as (Hr & Ht & Hc & Ho & Hl).
    cbn in *. rewrite Hr, Ht, Hc, Ho, Hl. by rewrite <- app_assoc.
Qed.

(** The table after the batch update of [ids] at time [at_]. *)
Lemma updated_lookup (ids : list string) at_ (table : gmap string PriceAlertRow) alertId :
  map_imap (λ id row, Some (if decide (id ∈ ids) then markTriggered at_ row else row)) table
    !! alertId
  = (λ row, if decide (alertId ∈ ids) then markTriggered at_ row else row) <$> table !! alertId.
Proof. rewrite map_lookup_imap. by destruct (table !! alertId). Qed.

(** What one pass over one snapshot does: it fails and changes nothing, or
    finds nothing to trigger, or persists all it found in one update and
    then announces them. *)
Lemma checkAlertsForPrice_cases price w :
  let hits := due Number price (priceAlerts w) in
  let r := checkAlertsForPrice Number price w in
  clock r.2 = clock w ∧
  (((∃ error, r.1 = Thrown error) ∧ priceAlerts r.2 = priceAlerts w ∧ log r.2 = log w) ∨
   (hits = [] ∧ r.1 = Returned [] ∧ priceAlerts r.2 = priceAlerts w ∧ log r.2 = log w) ∨
   (hits ≠ [] ∧ r.1 = Returned (toApiAlert Number <$> hits) ∧
    priceAlerts r.2 =
      map_imap (λ id row, Some (if decide (id ∈ hits.*1) then markTriggered (clock w) row
                                else row)) (priceAlerts w) ∧
    log r.2 =
      log w ++ Persisted hits.*1 (clock w)
               :: ((λ alert, Announced alert price) <$> (toApiAlert Number <$> hits)))).
Proof.
  intros hits r. subst r.
  unfold checkAlertsForPrice, mbind, Async_bind, selectActiveBySymbol, statement.
  destruct (nextStatement_world w) as (Ht1 & Hc1 & Hl1 & _).
  destruct (nextStatement w) as [failed1 w1]. cbn in Ht1, Hc1, Hl1.
  destruct failed1; cbn; [split; [done|]; left; eauto|].
  fold (due Number price (priceAlerts w1)). rewrite Ht1. fold hits.
  case_decide as Hlen.
  - unfold updateTriggered, statement, mret, Async_ret.
    destruct (nextStatement_world w1) as (Ht2 & Hc2 & Hl2 & _).
    destruct (nextStatement w1) as [failed2 w2]. cbn in Ht2, Hc2, Hl2.
    destruct failed2; cbn.
    { split; [by rewrite Hc2|]. left. split; [eauto|]. by rewrite Ht2, Hl2. }
    match goal with
    | |- context [notifyEach ?l price ?w0] =>
        destruct (notifyEach_spec price l w0) as (Hr & Ht & Hc & Ho & Hl);
        destruct (notifyEach l price w0) as [r3 w3]
    end.
    cbn in *. subst r3. cbn.
    rewrite Hc2, Hc1 in Hc, Ht, Hl. rewrite Ht2, Ht1 in Ht. rewrite Hl2, Hl1 in Hl.
    split; [done|].
    right. right. split.
    { intros Hnil. rewrite Hnil in Hlen. cbn in Hlen. lia. }
    split; [done|]. split; [done|].
    by rewrite Hl, <- app_assoc.
  - cbn. split; [done|]. right. left.
    assert (hits = []) as Hnil.
    { destruct hits; [done|]. cbn in Hlen. lia. }
    rewrite Hnil. by repeat split.
Qed.

Lemma checkAlertsForPrice_healthy price w :
  outages w = [] →
  (checkAlertsForPrice Number price w).1
  = Returned (toApiAlert Number <$> due Number price (priceAlerts w)).
Proof.
  intros Hhealthy.
  unfold checkAlertsForPrice, mbind, Async_bind, selectActiveBySymbol, statement.
  rewrite nextStatement_healthy by done. cbn.
  fold (due Number price (priceAlerts w)).
  case_decide as Hlen; [|done].
  unfold updateTriggered, statement, mret, Async_ret.
  rewrite nextStatement_healthy by done. cbn.
  match goal with
  | |- context [notifyEach ?l price ?w0] =>
      destruct (notifyEach_spec price l w0) as (Hr & _);
      destruct (notifyEach l price w0) as [r3 w3]
  end.
  cbn in Hr. by subst r3.
Qed.

Lemma elem_of_due price (table : gmap string PriceAlertRow) alertId alert :
  (alertId, alert) ∈ due Number price table ↔
  table !! alertId = Some alert ∧ dueRow Number price alert.
Proof.
  unfold due, dueRow. rewrite !list_elem_of_filter, elem_of_map_to_list. cbn. tauto.
Qed.

Lemma elem_of_due_ids price (table : gmap string PriceAlertRow) alertId :
  alertId ∈ (due Number price table).*1 ↔
  ∃ alert, table !! alertId = Some alert ∧ dueRow Number price alert.
Proof.
  rewrite list_elem_of_fmap. split.
  - intros ([alertId' alert] & -> & Hin). apply elem_of_due in Hin. eauto.
  - intros (alert & Hlook & Hdue). exists (alertId, alert). split; [done|].
    by apply elem_of_due.
Qed.

Lemma elem_of_triggered price (table : gmap string PriceAlertRow) alertId :
  (∃ alert, alert ∈ toApiAlert Number <$> due Number price table ∧ Types.id alert = alertId) ↔
  alertId ∈ (due Number price table).*1.
Proof.
  split.
  - intros (apiAlert & Hin & <-).
    apply list_elem_of_fmap in Hin as ([alertId' alert] & -> & Hin).
    apply list_elem_of_fmap. by exists (alertId', alert).
  - intros Hin. apply list_elem_of_fmap in Hin as ([alertId' alert] & -> & Hin).
    exists (toApiAlert Number (alertId', alert)).
    split; [|done]. apply list_elem_of_fmap. eauto.
Qed.

(** The decision of the loop body is the trigger rule of the
    specification. *)
Lemma shouldTrigger_triggerRule alert price :
  numerals alert →
  shouldTrigger Number alert price = true ↔ triggerRule Number alert (Types.price price).
Proof.
  intros (Htarget & Hpercent & Hbase). unfold shouldTrigger, triggerRule.
  destruct (decide (condition alert = "above"%string)) as [Habove|Habove].
  { rewrite Habove. split.
    - intros [Htruthy Hle]%andb_true_iff. left. split; [done|].
      destruct (targetPrice alert) as [target|]; [eauto | done].
    - intros [[_ (target & Hsome & Hle)] | [[? _] | [? _]]]; [|done..].
      rewrite Hsome in *. rewrite truthy_numeral by congruence. done. }
  destruct (decide (condition alert = "below"%string)) as [Hbelow|Hbelow].
  { rewrite Hbelow. split.
    - intros [Htruthy Hle]%andb_true_iff. right. left. split; [done|].
      destruct (targetPrice alert) as [target|]; [eauto | done].
    - intros [[? _] | [[_ (target & Hsome & Hle)] | [? _]]]; [done| |done].
      rewrite Hsome in *. rewrite truthy_numeral by congruence. done. }
  destruct (decide (condition alert = "percent_change"%string)) as [Hchange|Hchange].
  { rewrite Hchange. split.
    - intros Hfire. right. right. split; [done|].
      destruct (basePrice alert) as [base|]; [|done].
      destruct (percentChange alert) as [threshold|]; [|by rewrite andb_false_r in Hfire].
      exists base, threshold. split; [done|]. split; [done|]. cbn zeta.
      destruct (truthy (Some base) && truthy (Some threshold)); [|done].
      cbn [NumberOf] in Hfire. cbn zeta in Hfire.
      destruct (0 <? Number threshold)%float; cbn in Hfire |- *.
      + destruct (Number threshold <=? _)%float; [by left|].
        destruct (Number threshold <? 0)%float; [|done]. cbn in Hfire.
        destruct (_ <=? Number threshold)%float; [by right | done].
      + destruct (Number threshold <? 0)%float; [|done]. cbn in Hfire.
        destruct (_ <=? Number threshold)%float; [by right | done].
    - intros [[? _] | [[? _] | [_ (base & threshold & Hb & Hp & Hrule)]]]; [done..|].
      rewrite Hb, Hp in *. rewrite !truthy_numeral by congruence.
      cbn [NumberOf andb]. cbn zeta in Hrule |- *.
      destruct Hrule as [[-> ->] | [-> ->]]; [done|].
      by destruct (_ && _). }
  split; [done|]. by intros [[? _] | [[? _] | [? _]]].
Qed.

(** A float that compares equal to zero is neither above nor below it. *)
Lemma zero_threshold (threshold : float) :
  (threshold =? 0)%float = true →
  (0 <? threshold)%float = false ∧ (threshold <? 0)%float = false.
Proof.
  rewrite FloatAxioms.eqb_spec, !FloatAxioms.ltb_spec.
  change (Prim2SF 0) with (S754_zero false).
  by destruct (Prim2SF threshold) as [[]|[]| |[] ? ?].
Qed.

Lemma shouldTrigger_zero_threshold alert price threshold :
  condition alert = "percent_change"%string →
  percentChange alert = Some threshold →
  (Number threshold =? 0)%float = true →
  shouldTrigger Number alert price = false.
Proof.
  intros Hcond Hsome Hzero. unfold shouldTrigger. rewrite Hcond, Hsome.
  destruct (zero_threshold _ Hzero) as [Hgt Hlt].
  cbn [NumberOf]. cbn zeta. rewrite Hgt, Hlt. cbn [andb].
  repeat (case_decide; [done|]). case_decide; [|done].
  by destruct (_ && _).
Qed.


(** An alert that is not due is left alone by a pass over one snapshot. *)
Lemma checkAlertsForPrice_keeps price w alertId alert :
  priceAlerts w !! alertId = Some alert →
  ¬ dueRow Number price alert →
  let r := checkAlertsForPrice Number price w in
  priceAlerts r.2 !! alertId = Some alert ∧
  (∃ effects, log r.2 = log w ++ effects ∧ silentAbout alertId effects) ∧
  (∀ triggered, r.1 = Returned triggered →
     ∀ apiAlert, apiAlert ∈ triggered → Types.id apiAlert ≠ alertId).
Proof.
  intros Hrow Hquiet r.
  assert (alertId ∉ (due Number price (priceAlerts w)).*1) as Hnotin.
  { rewrite elem_of_due_ids. intros (alert' & Hrow' & Hdue). congruence. }
  assert (∀ apiAlert,
            apiAlert ∈ toApiAlert Number <$> due Number price (priceAlerts w) →
            Types.id apiAlert ≠ alertId) as Hapi.
  { intros apiAlert Hin Heq. apply Hnotin, elem_of_triggered. eauto. }
  destruct (checkAlertsForPrice_cases price w) as
    [_ [((error & Hr) & Ht & Hl) | [(Hnil & Hr & Ht & Hl) | (Hsome & Hr & Ht & Hl)]]];
    fold r in Hr, Ht, Hl.
  - rewrite Ht, Hl, Hr. split; [done|]. split.
    + exists []. split; [by rewrite app_nil_r|]. by intros ? ?%elem_of_nil.
    + by intros ? [=].
  - rewrite Ht, Hl, Hr. split; [done|]. split.
    + exists []. split; [by rewrite app_nil_r|]. by intros ? ?%elem_of_nil.
    + intros ? [= <-] ? ?%elem_of_nil. done.
  - rewrite Ht, Hl, Hr. split; [|split].
    + rewrite updated_lookup, Hrow. cbn. by rewrite decide_False.
    + eexists. split; [done|].
      intros effect [->|Hin]%elem_of_cons; [done|].
      apply list_elem_of_fmap in Hin as (apiAlert & -> & Hin). by apply Hapi.
    + intros ? [= <-]. exact Hapi.
Qed.

Lemma checkAllAlerts_unfold price prices w :
  checkAllAlerts Number (price :: prices) w =
    match checkAlertsForPrice Number price w with
    | (Returned triggered, w) =>
        match checkAllAlerts Number prices w with
        | (Returned allTriggered, w) => (Returned (triggered ++ allTriggered), w)
        | (Thrown error, w) => (Thrown error, w)
        end
    | (Thrown error, w) => (Thrown error, w)
    end.
Proof. reflexivity. Qed.

Lemma silentAbout_app alertId effects effects' :
  silentAbout alertId effects → silentAbout alertId effects' →
  silentAbout alertId (effects ++ effects').
Proof. intros H1 H2 effect [?|?]%elem_of_app; [by apply H1 | by apply H2]. Qed.

(** An alert that no snapshot can make due is left alone by a whole pass. *)
Lemma checkAllAlerts_keeps prices alertId alert :
  (∀ price, ¬ dueRow Number price alert) →
  ∀ w, priceAlerts w !! alertId = Some alert →
    let r := checkAllAlerts Number prices w in
    priceAlerts r.2 !! alertId = Some alert ∧
    (∃ effects, log r.2 = log w ++ effects ∧ silentAbout alertId effects) ∧
    (∀ triggered, r.1 = Returned triggered →
       ∀ apiAlert, apiAlert ∈ triggered → Types.id apiAlert ≠ alertId).
Proof.
  intros Hquiet. induction prices as [|price prices IH]; intros w Hrow.
  - cbn. split; [done|]. split.
    + exists []. split; [by rewrite app_nil_r|]. by intros ? ?%elem_of_nil.
    + intros ? [= <-] ? ?%elem_of_nil. done.
  - cbv zeta. rewrite checkAllAlerts_unfold.
    destruct (checkAlertsForPrice_keeps price w alertId alert Hrow (Hquiet price))
      as (Hrow1 & (effects1 & Hlog1 & Hsilent1) & Hret1).
    destruct (checkAlertsForPrice Number price w) as [[triggered|error] w1]; cbn in *.
    2: { split; [done|]. split; [eauto|]. by intros ? [=]. }
    destruct (IH w1 Hrow1) as (Hrow2 & (effects2 & Hlog2 & Hsilent2) & Hret2).
    destruct (checkAllAlerts Number prices w1) as [[allTriggered|error] w2]; cbn in *.
    + split; [done|]. split.
      * exists (effects1 ++ effects2). rewrite Hlog2, Hlog1, <- app_assoc.
        split; [done|]. by apply silentAbout_app.
      * intros ? [= <-] apiAlert [Hin|Hin]%elem_of_app; eauto.
    + split; [done|]. split; [|by intros ? [=]].
      exists (effects1 ++ effects2). rewrite Hlog2, Hlog1, <- app_assoc.
      split; [done|]. by apply silentAbout_app.
Qed.

(** ... and by any number of runs of the job. *)
Lemma evaluations_keeps passes alertId alert :
  (∀ price, ¬ dueRow Number price alert) →
  ∀ w, priceAlerts w !! alertId = Some alert →
    priceAlerts (evaluations Number passes w) !! alertId = Some alert ∧
    ∃ effects,
      log (evaluations Number passes w) = log w ++ effects ∧ silentAbout alertId effects.
Proof.
  intros Hquiet. induction passes as [|pass passes IH]; intros w Hrow.
  - cbn. split; [done|]. exists []. split; [by rewrite app_nil_r|].
    by intros ? ?%elem_of_nil.
  - unfold evaluations in *. cbn [foldl].
    set (w0 := {| priceAlerts := priceAlerts w; clock := time pass; outages := weather pass;
                  uuids := uuids w; log := log w; decimal := decimal w |}).
    destruct (checkAllAlerts_keeps (snapshots pass) alertId alert Hquiet w0 Hrow)
      as (Hrow1 & (effects1 & Hlog1 & Hsilent1) & _).
    destruct (IH (evaluate Number w pass) Hrow1) as (Hrow2 & effects2 & Hlog2 & Hsilent2).
    split; [done|]. exists (effects1 ++ effects2).
    split; [|by apply silentAbout_app].
    rewrite Hlog2. unfold evaluate. fold w0. rewrite Hlog1. cbn. by rewrite <- app_assoc.
Qed.

End Evaluator.

(** The examples of the specification: base price 100, threshold +10
    triggers at 110 and not below; threshold -10 triggers at 90; threshold
    0 triggers nowhere; an [above] alert at 100 triggers at 100. *)
Example shouldTrigger_examples :
  shouldTrigger decimalNumber (changeAlert "100" "10") (Types.snapshot "BTC" 110) = true ∧
  shouldTrigger decimalNumber (changeAlert "100" "10") (Types.snapshot "BTC" 109.5) = false ∧
  shouldTrigger decimalNumber (changeAlert "100" "-10") (Types.snapshot "BTC" 90) = true ∧
  shouldTrigger decimalNumber (changeAlert "100" "-10") (Types.snapshot "BTC" 90.5) = false ∧
  shouldTrigger decimalNumber (changeAlert "100" "0") (Types.snapshot "BTC" 100) = false ∧
  shouldTrigger decimalNumber (changeAlert "100" "0") (Types.snapshot "BTC" 1000000) = false ∧
  shouldTrigger decimalNumber (aboveAlert "u1" "BTC" "100") (Types.snapshot "BTC" 100) = true ∧
  shouldTrigger decimalNumber (aboveAlert "u1" "BTC" "100") (Types.snapshot "BTC" 99.5) = false.
Proof. by vm_compute. Qed.

(** C2.  For an active alert that has not triggered and a snapshot of its
    symbol, the evaluation (with the database answering) returns a list of
    triggered alerts, and the alert is in it exactly under the rule of the
    specification: [above] iff current ≥ target, [below] iff
    current ≤ target, [percent_change] iff, for
    actual = (current - basePrice) / basePrice * 100, either threshold > 0
    and actual ≥ threshold or threshold < 0 and actual ≤ threshold; with a
    threshold equal to zero a [percent_change] alert is never in the
    list. *)
Theorem checkAlertsForPrice_follows_trigger_rule (Number : string → float)
    (w : World) (price : Types.CryptoPrice) (alertId : string) (alert : PriceAlertRow) :
  priceAlerts w !! alertId = Some alert →
  isActive alert = true → isTriggered alert = false →
  symbol alert = Types.symbol price →
  numerals alert →
  outages w = [] →
  ∃ triggered,
    (checkAlertsForPrice Number price w).1 = Returned triggered ∧
    ((∃ apiAlert, apiAlert ∈ triggered ∧ Types.id apiAlert = alertId) ↔
     triggerRule Number alert (Types.price price)) ∧
    (condition alert = "percent_change"%string →
     (∃ threshold,
         percentChange alert = Some threshold ∧ (Number threshold =? 0)%float = true) →
     ¬ ∃ apiAlert, apiAlert ∈ triggered ∧ Types.id apiAlert = alertId).
Proof.
  intros Hrow Hactive Hfresh Hsymbol Hnumerals Hhealthy.
  exists (toApiAlert Number <$> due Number price (priceAlerts w)).
  split; [by apply checkAlertsForPrice_healthy|].
  assert ((∃ apiAlert,
             apiAlert ∈ toApiAlert Number <$> due Number price (priceAlerts w) ∧
             Types.id apiAlert = alertId) ↔
          shouldTrigger Number alert price = true) as Hlist.
  { rewrite elem_of_triggered, elem_of_due_ids. unfold dueRow. split.
    - intros (alert' & Hrow' & _ & Hfire). congruence.
    - intros Hfire. eauto 10. }
  split.
  - by rewrite Hlist, shouldTrigger_triggerRule.
  - intros Hcond (threshold & Hsome & Hzero). rewrite Hlist.
    by rewrite (shouldTrigger_zero_threshold Number alert price threshold).
Qed.

Lemma checkAlertsForPrice_follows_trigger_rule_witness :
  ∃ triggered,
    (checkAlertsForPrice decimalNumber (Types.snapshot "BTC" 150) twoAlerts).1
    = Returned triggered ∧
    ((∃ apiAlert, apiAlert ∈ triggered ∧ Types.id apiAlert = "a1"%string) ↔
     triggerRule decimalNumber (aboveAlert "u1" "BTC" "100") 150) ∧
    (condition (aboveAlert "u1" "BTC" "100") = "percent_change"%string →
     (∃ threshold,
         percentChange (aboveAlert "u1" "BTC" "100") = Some threshold ∧
         (decimalNumber threshold =? 0)%float = true) →
     ¬ ∃ apiAlert, apiAlert ∈ triggered ∧ Types.id apiAlert = "a1"%string).
Proof.
  apply (checkAlertsForPrice_follows_trigger_rule decimalNumber twoAlerts
           (Types.snapshot "BTC" 150) "a1" (aboveAlert "u1" "BTC" "100")).
  - vm_compute. reflexivity.
  - reflexivity.
  - reflexivity.
  - reflexivity.
  - vm_compute. repeat split; discriminate.
  - reflexivity.
Defined.



(** C4.  An alert that is marked triggered is left as it is by every pass
    over any snapshots, under any database weather: its row is unchanged
    (so it does not trigger a second time), it is not in the list the pass
    returns, and neither the update nor an announcement of the pass
    concerns it.  The same holds over any number of runs of the job. *)
Theorem triggered_alert_is_left_alone (Number : string → float) (w : World)
    (alertId : string) (alert : PriceAlertRow) :
  priceAlerts w !! alertId = Some alert →
  isTriggered alert = true →
  (∀ prices,
     let r := checkAllAlerts Number prices w in
     priceAlerts r.2 !! alertId = Some alert ∧
     (∃ effects, log r.2 = log w ++ effects ∧ silentAbout alertId effects) ∧
     (∀ triggered, r.1 = Returned triggered →
        ∀ apiAlert, apiAlert ∈ triggered → Types.id apiAlert ≠ alertId)) ∧
  (∀ passes,
     priceAlerts (evaluations Number passes w) !! alertId = Some alert ∧
     ∃ effects,
       log (evaluations Number passes w) = log w ++ effects ∧ silentAbout alertId effects).
Proof.
  intros Hrow Htriggered.
  assert (∀ price, ¬ dueRow Number price alert) as Hquiet.
  { intros price [(_ & _ & Hfresh) _]. congruence. }
  split.
  - intros prices. by apply checkAllAlerts_keeps.
  - intros passes. by apply evaluations_keeps.
Qed.

(** The BTC alert of [twoAlerts], after it has triggered at time 900. *)
Lemma triggered_alert_is_left_alone_witness :
  let alert := markTriggered 900 (aboveAlert "u1" "BTC" "100") in
  let w := setPriceAlerts (<["a1"%string := alert]> (priceAlerts twoAlerts)) twoAlerts in
  (∀ prices,
     let r := checkAllAlerts decimalNumber prices w in
     priceAlerts r.2 !! "a1"%string = Some alert ∧
     (∃ effects, log r.2 = log w ++ effects ∧ silentAbout "a1" effects) ∧
     (∀ triggered, r.1 = Returned triggered →
        ∀ apiAlert, apiAlert ∈ triggered → Types.id apiAlert ≠ "a1"%string)) ∧
  (∀ passes,
     priceAlerts (evaluations decimalNumber passes w) !! "a1"%string = Some alert ∧
     ∃ effects,
       log (evaluations decimalNumber passes w) = log w ++ effects ∧
       silentAbout "a1" effects).
Proof.
  cbv zeta.
  apply (triggered_alert_is_left_alone decimalNumber
           (setPriceAlerts
              (<["a1"%string := markTriggered 900 (aboveAlert "u1" "BTC" "100")]>
                 (priceAlerts twoAlerts)) twoAlerts)
           "a1" (markTriggered 900 (aboveAlert "u1" "BTC" "100"))).
  - vm_compute. reflexivity.
  - reflexivity.
Defined.

(** *** Creating alerts *)

Section Creation.
Variable Number : string → float.
Variable toString : float → string.
Variable toUpperCase : string → string.

(** The row [createAlert] writes. *)
Lemma createAlert_cases getPrice userId symbol condition targetPrice percentChange w :
  let r := createAlert Number toString toUpperCase getPrice userId symbol condition
             targetPrice percentChange w in
  let newAlert :=
    {| AlertService.userId := userId;
       AlertService.symbol := toUpperCase symbol;
       AlertService.condition := condition;
       AlertService.targetPrice := toString <$> targetPrice;
       AlertService.percentChange := toString <$> percentChange;
       basePrice := toString <$> priceOf (getPrice symbol);
       isTriggered := false; isActive := true; createdAt := clock w;
       triggeredAt := None |} in
  log r.2 = log w ∧
  (((∃ error, r.1 = Thrown error) ∧ priceAlerts r.2 = priceAlerts w) ∨
   (∃ alertId rest,
       uuids w = alertId :: rest ∧ priceAlerts w !! alertId = None ∧
       r.1 = Returned (toApiAlert Number (alertId, stored w newAlert)) ∧
       priceAlerts r.2 = <[alertId := stored w newAlert]> (priceAlerts w))).
Proof.
  intros r newAlert. subst r. unfold createAlert.
  assert (getPrice symbol = SourceFailed ∨ getPrice symbol ≠ SourceFailed) as [Hfailed|Hanswer]
    by (destruct (getPrice symbol); auto).
  { rewrite Hfailed. cbn. split; [done|]. left. eauto. }
  assert (∀ A (x y : A), match getPrice symbol with SourceFailed => x | _ => y end = y)
    as -> by (intros; by destruct (getPrice symbol)).
  unfold mbind, Async_bind, insertAlert, statement.
  destruct (nextStatement_world w) as (Ht & Hc & Hl & Hu).
  pose proof (nextStatement_decimal w) as Hd.
  destruct (nextStatement w) as [failed w1]. cbn in Ht, Hc, Hl, Hu, Hd.
  destruct failed; cbn; [split; [done|]; left; eauto|].
  rewrite Hu, Ht. destruct (uuids w) as [|alertId rest]; cbn; [split; [done|]; left; eauto|].
  destruct (priceAlerts w !! alertId) eqn:Hused; cbn; [split; [done|]; left; eauto|].
  split; [done|]. right. exists alertId, rest. unfold stored. by rewrite Hd.
Qed.

Lemma createAlert_healthy getPrice userId symbol condition targetPrice percentChange w
    alertId rest :
  getPrice symbol ≠ SourceFailed →
  outages w = [] → uuids w = alertId :: rest → priceAlerts w !! alertId = None →
  ∃ error_free,
    (createAlert Number toString toUpperCase getPrice userId symbol condition
       targetPrice percentChange w).1 = Returned error_free.
Proof.
  intros Hanswer Hhealthy Huuids Hfresh. unfold createAlert.
  assert (∀ A (x y : A), match getPrice symbol with SourceFailed => x | _ => y end = y)
    as -> by (intros; by destruct (getPrice symbol)).
  unfold mbind, Async_bind, insertAlert, statement.
  rewrite nextStatement_healthy by done. rewrite Huuids, Hfresh. cbn. eauto.
Qed.

Lemma getAlertCount_world userId w :
  priceAlerts (getAlertCount userId w).2 = priceAlerts w ∧
  uuids (getAlertCount userId w).2 = uuids w ∧
  log (getAlertCount userId w).2 = log w.
Proof.
  unfold getAlertCount, mbind, Async_bind, selectActiveByUser, statement.
  destruct (nextStatement_world w) as (Ht & _ & Hl & Hu).
  destruct (nextStatement w) as [failed w1]. by destruct failed.
Qed.

Lemma getAlertCount_decimal userId w : decimal (getAlertCount userId w).2 = decimal w.
Proof.
  unfold getAlertCount, mbind, Async_bind, selectActiveByUser, statement.
  pose proof (nextStatement_decimal w) as Hd.
  destruct (nextStatement w) as [failed w1]. by destruct failed.
Qed.

(** What [CreateAlertSchema] lets through. *)
Lemma CreateAlertSchema_accepts requestBody body :
  CreateAlertSchema toUpperCase requestBody = Some body →
  bodyCondition body ∈ ["above"; "below"; "percent_change"]%string ∧
  (bodyCondition body = "percent_change"%string → is_Some (bodyPercentChange body)) ∧
  (bodyCondition body ≠ "percent_change"%string → is_Some (bodyTargetPrice body)).
Proof.
  unfold CreateAlertSchema. cbv zeta.
  destruct (_ && _) eqn:Hchecks; [|done]. intros [= <-]. cbn.
  apply andb_true_iff in Hchecks as [Hchecks Hrefine].
  apply andb_true_iff in Hchecks as [Hchecks _].
  apply andb_true_iff in Hchecks as [Hchecks _].
  apply andb_true_iff in Hchecks as [_ Henum].
  apply bool_decide_eq_true in Henum.
  split; [done|].
  case_decide as Hcond; apply bool_decide_eq_true in Hrefine; by split.
Qed.

End Creation.

(** C8 as stated fails.  A body with condition [above], a target price and
    a percent-change threshold passes [CreateAlertSchema], the request is
    answered with 201, and the row stored has both the target price and the
    threshold set. *)
Lemma postAlert_stores_both_fields :
  let requestBody :=
    {| bodySymbol := "btc"; bodyCondition := "above";
       bodyTargetPrice := Some 100%float; bodyPercentChange := Some 5%float |} in
  let r := postAlert decimalNumber integerToString asciiToUpperCase (λ _, NoPrice)
             (Some {| id := "u1"; tier := "free" |}) requestBody emptyWorld in
  status <$> (match r.1 with Returned reply => Some reply | Thrown _ => None end) = Some 201%nat ∧
  ∃ alert,
    priceAlerts r.2 !! "a1"%string = Some alert ∧
    condition alert = "above"%string ∧
    targetPrice alert = Some "100.00000000"%string ∧
    percentChange alert = Some "5.0000"%string.
Proof.
  cbv zeta. split; [by vm_compute|].
  eexists. split; [by vm_compute|]. by vm_compute.
Qed.

(** A request that is turned down: the table is as before, and the reply
    is not a 201. *)
Ltac rejected :=
  cbn; intros [= <- <-]; left; split; [done | intros ? [= <-]; discriminate].

(** POST /alerts either turns the request down and leaves the table alone,
    or stores one new row made of the validated body. *)
Lemma postAlert_cases
    (Number : string → float) (toString : float → string) (toUpperCase : string → string)
    (getPrice : string → PriceAnswer)
    (user : option AuthenticatedUser) (requestBody : CreateAlert) (w : World)
    (outcome : Outcome Reply) (w' : World) :
  postAlert Number toString toUpperCase getPrice user requestBody w = (outcome, w') →
  (priceAlerts w' = priceAlerts w ∧
   ∀ reply, outcome = Returned reply → status reply ≠ 201%nat) ∨
  (∃ body alertId alert apiAlert,
      CreateAlertSchema toUpperCase requestBody = Some body ∧
      outcome = Returned {| status := 201; data := Some apiAlert; code := None |} ∧
      Types.id apiAlert = alertId ∧
      priceAlerts w !! alertId = None ∧
      priceAlerts w' = <[alertId := alert]> (priceAlerts w) ∧
      condition alert = bodyCondition body ∧
      targetPrice alert = decimal w 20 8 <$> (toString <$> bodyTargetPrice body) ∧
      percentChange alert = decimal w 10 4 <$> (toString <$> bodyPercentChange body)).
Proof.
  unfold postAlert, tryCatch.
  destruct user as [user|]; [|rejected].
  case_decide; [rejected|].
  destruct (CreateAlertSchema toUpperCase requestBody) as [body|] eqn:Hschema; [|rejected].
  destruct (negb (isSymbolSupported toUpperCase (bodySymbol body))); [rejected|].
  unfold mbind at 1. unfold Async_bind.
  destruct (getAlertCount_world (id user) w) as (Htable & Huuids & _).
  pose proof (getAlertCount_decimal (id user) w) as Hdecimal.
  destruct (getAlertCount (id user) w) as [[currentCount|error] w1];
    cbn in Htable, Huuids, Hdecimal.
  2: { rewrite <- Htable. rejected. }
  destruct (reached currentCount (getMaxAlerts (tier user))); [rewrite <- Htable; rejected|].
  unfold mbind, Async_bind.
  pose proof (createAlert_cases Number toString toUpperCase getPrice (id user)
                (bodySymbol body) (bodyCondition body) (bodyTargetPrice body)
                (bodyPercentChange body) w1) as Hcreate.
  cbv zeta in Hcreate.
  destruct (createAlert Number toString toUpperCase getPrice (id user) (bodySymbol body)
              (bodyCondition body) (bodyTargetPrice body) (bodyPercentChange body) w1)
    as [[apiAlert|error] w2].
  - destruct Hcreate as [_ [[(? & [=]) _] | (alertId & rest & _ & Hfresh & [= ->] & Hinsert)]].
    cbn in Hinsert |- *. rewrite Htable in Hfresh, Hinsert.
    intros [= <- <-]. right. eexists body, alertId, _, _.
    split; [done|]. split; [done|]. split; [done|]. split; [done|]. split; [exact Hinsert|].
    cbn. by rewrite Hdecimal.
  - destruct Hcreate as [_ [[_ Hsame] | (? & ? & _ & _ & [=] & _)]].
    cbn in Hsame |- *. rewrite Htable in Hsame. rewrite <- Hsame. rejected.
Qed.

(** C8, amended.  Every alert that POST /alerts accepts is stored with the
    field its condition requires: a [percent_change] alert has a
    percent-change threshold, an [above] or [below] alert has a target
    price; the other field is set in the stored alert exactly when the
    client sent it.  If all stored alerts have their required field before a request, all
    have it after the request. *)
Theorem postAlert_stores_required_field
    (Number : string → float) (toString : float → string) (toUpperCase : string → string)
    (getPrice : string → PriceAnswer)
    (user : option AuthenticatedUser) (requestBody : CreateAlert) (w : World) :
  (∀ alertId alert, priceAlerts w !! alertId = Some alert → requiredFieldSet alert) →
  let r := postAlert Number toString toUpperCase getPrice user requestBody w in
  (∀ alertId alert, priceAlerts r.2 !! alertId = Some alert → requiredFieldSet alert) ∧
  (∀ reply, r.1 = Returned reply → status reply = 201%nat →
     ∃ apiAlert alert,
       data reply = Some apiAlert ∧
       priceAlerts w !! Types.id apiAlert = None ∧
       priceAlerts r.2 !! Types.id apiAlert = Some alert ∧
       condition alert = bodyCondition requestBody ∧
       (is_Some (targetPrice alert) ↔ is_Some (bodyTargetPrice requestBody)) ∧
       (is_Some (percentChange alert) ↔ is_Some (bodyPercentChange requestBody)) ∧
       condition alert ∈ ["above"; "below"; "percent_change"]%string ∧
       requiredFieldSet alert).
Proof.
  intros Hstored r.
  destruct r as [outcome w'] eqn:Hr. subst r. cbn [fst snd].
  apply postAlert_cases in Hr
    as [[Htable Hreply] |
        (body & alertId & alert & apiAlert & Hschema & -> & Hid & Hfresh & Htable &
         Hcond & Htarget & Hpercent)].
  - rewrite Htable. split; [exact Hstored|]. intros reply Hret H201. by destruct (Hreply reply).
  - destruct (CreateAlertSchema_accepts toUpperCase requestBody body Hschema)
      as (Henum & Hchange & Hneeded).
    assert (bodyCondition body = bodyCondition requestBody ∧
            bodyTargetPrice body = bodyTargetPrice requestBody ∧
            bodyPercentChange body = bodyPercentChange requestBody) as (Hc & Ht & Hp).
    { unfold CreateAlertSchema in Hschema. cbv zeta in Hschema.
      destruct (_ && _); by simplify_eq/=. }
    assert (requiredFieldSet alert) as Hnew.
    { split.
      - rewrite Hcond, Hpercent, !fmap_is_Some. apply Hchange.
      - rewrite Hcond, Htarget, !fmap_is_Some. intros Hbound.
        apply Hneeded.
        intros Hchanged. rewrite Hchanged in Hbound. by destruct Hbound. }
    split.
    + intros alertId' alert'. rewrite Htable.
      destruct (decide (alertId' = alertId)) as [->|Hne].
      * rewrite lookup_insert_eq. by intros [= <-].
      * rewrite lookup_insert_ne by done. apply Hstored.
    + intros reply [= <-] _. exists apiAlert, alert. cbn.
      rewrite Hid, Htable, lookup_insert_eq. rewrite <- Hc, <- Ht, <- Hp.
      repeat (split; [done|]).
      split; [by rewrite Htarget, !fmap_is_Some|].
      split; [by rewrite Hpercent, !fmap_is_Some|].
      split; [by rewrite Hcond | done].
Qed.

Lemma postAlert_stores_required_field_witness :
  let requestBody :=
    {| bodySymbol := "eth"; bodyCondition := "percent_change";
       bodyTargetPrice := None; bodyPercentChange := Some 10%float |} in
  let r := postAlert decimalNumber integerToString asciiToUpperCase (λ _, NoPrice)
             (Some {| id := "u1"; tier := "free" |}) requestBody twoAlerts in
  (∀ alertId alert, priceAlerts r.2 !! alertId = Some alert → requiredFieldSet alert) ∧
  (∀ reply, r.1 = Returned reply → status reply = 201%nat →
     ∃ apiAlert alert,
       data reply = Some apiAlert ∧
       priceAlerts twoAlerts !! Types.id apiAlert = None ∧
       priceAlerts r.2 !! Types.id apiAlert = Some alert ∧
       condition alert = bodyCondition requestBody ∧
       (is_Some (targetPrice alert) ↔ is_Some (bodyTargetPrice requestBody)) ∧
       (is_Some (percentChange alert) ↔ is_Some (bodyPercentChange requestBody)) ∧
       condition alert ∈ ["above"; "below"; "percent_change"]%string ∧
       requiredFieldSet alert).
Proof.
  cbv zeta.
  apply (postAlert_stores_required_field decimalNumber integerToString asciiToUpperCase
           (λ _, NoPrice) (Some {| id := "u1"; tier := "free" |})
           {| bodySymbol := "eth"; bodyCondition := "percent_change";
              bodyTargetPrice := None; bodyPercentChange := Some 10%float |} twoAlerts).
  intros alertId alert Hrow.
  assert (alert = aboveAlert "u1" "BTC" "100" ∨ alert = aboveAlert "u1" "ETH" "10")
    as [-> | ->].
  { unfold twoAlerts in Hrow. cbn [priceAlerts] in Hrow.
    apply lookup_insert_Some in Hrow as [[_ <-] | [_ Hrow]]; [by left|].
    apply lookup_singleton_Some in Hrow as [_ <-]. by right. }
  - split; cbn; [discriminate | eauto].
  - split; cbn; [discriminate | eauto].
Defined.

(** C10.  When the price service has no price for the symbol, creating a
    [percent_change] alert succeeds (the database answering and giving the
    row a new id), the row has a null base price and is active and not
    triggered, and whatever snapshots the later runs of the job evaluate,
    under whatever database weather, the row stays exactly as it is and no
    update and no announcement concerns it. *)
Theorem percent_change_alert_without_base_price_never_triggers
    (Number : string → float) (toString : float → string) (toUpperCase : string → string)
    (getPrice : string → PriceAnswer)
    (userId symbol : string) (targetPrice : option float) (percentChange : float)
    (w : World) (alertId : string) (rest : list string) :
  getPrice symbol = NoPrice →
  outages w = [] → uuids w = alertId :: rest → priceAlerts w !! alertId = None →
  let r := createAlert Number toString toUpperCase getPrice userId symbol "percent_change"
             targetPrice (Some percentChange) w in
  ∃ apiAlert alert,
    r.1 = Returned apiAlert ∧ Types.id apiAlert = alertId ∧
    priceAlerts r.2 !! alertId = Some alert ∧
    condition alert = "percent_change"%string ∧
    AlertService.percentChange alert = Some (decimal w 10 4 (toString percentChange)) ∧
    basePrice alert = None ∧ isActive alert = true ∧ isTriggered alert = false ∧
    ∀ passes,
      priceAlerts (evaluations Number passes r.2) !! alertId = Some alert ∧
      ∃ effects,
        log (evaluations Number passes r.2) = log r.2 ++ effects ∧
        silentAbout alertId effects.
Proof.
  intros Hnoprice Hhealthy Huuids Hfresh r.
  assert (getPrice symbol ≠ SourceFailed) as Hanswer by (by rewrite Hnoprice).
  destruct (createAlert_healthy Number toString toUpperCase getPrice userId symbol
              "percent_change" targetPrice (Some percentChange) w alertId rest
              Hanswer Hhealthy Huuids Hfresh) as [apiAlert Hreturned].
  fold r in Hreturned.
  destruct (createAlert_cases Number toString toUpperCase getPrice userId symbol
              "percent_change" targetPrice (Some percentChange) w)
    as [_ [[(error & Hthrown) _] | (alertId' & rest' & Huuids' & _ & Hr & Htable)]].
  { fold r in Hthrown. congruence. }
  fold r in Hr, Htable.
  assert (alertId' = alertId) as -> by congruence.
  rewrite Hnoprice in Hr, Htable. cbn in Hr, Htable.
  eexists _, _. split; [exact Hr|]. split; [done|].
  split; [by rewrite Htable, lookup_insert_eq|].
  repeat (split; [done|]).
  intros passes. apply evaluations_keeps; [|by rewrite Htable, lookup_insert_eq].
  intros price [_ Hfire]. by vm_compute in Hfire.
Qed.

Lemma percent_change_alert_without_base_price_never_triggers_witness :
  let r := createAlert decimalNumber integerToString asciiToUpperCase (λ _, NoPrice)
             "u1" "ETH" "percent_change" None (Some 10%float) twoAlerts in
  ∃ apiAlert alert,
    r.1 = Returned apiAlert ∧ Types.id apiAlert = "a3"%string ∧
    priceAlerts r.2 !! "a3"%string = Some alert ∧
    condition alert = "percent_change"%string ∧
    percentChange alert = Some (decimal twoAlerts 10 4 (integerToString 10)) ∧
    basePrice alert = None ∧ isActive alert = true ∧ isTriggered alert = false ∧
    ∀ passes,
      priceAlerts (evaluations decimalNumber passes r.2) !! "a3"%string = Some alert ∧
      ∃ effects,
        log (evaluations decimalNumber passes r.2) = log r.2 ++ effects ∧
        silentAbout "a3" effects.
Proof.
  apply (percent_change_alert_without_base_price_never_triggers decimalNumber
           integerToString asciiToUpperCase (λ _, NoPrice) "u1" "ETH" None 10%float
           twoAlerts "a3" ["a4"%string]).
  - reflexivity.
  - reflexivity.
  - reflexivity.
  - vm_compute. reflexivity.
Defined.

End AlertServiceFacts.

(** * Properties of the rate limiter *)

Module RateLimitFacts.
Import RateLimit.

(** With the store answering, a call is allowed exactly when fewer than
    [limit] entries are left once those at or before [now - windowMs] have
    been removed. *)
Lemma checkRateLimit_decision store now random identifier limit windowMs :
  allowed (checkRateLimit (Some store) (healthy now random) identifier limit windowMs).1
  = (zcard now ("ratelimit:" +:+ identifier)
       (zremrangebyscore now ("ratelimit:" +:+ identifier) 0 (now - windowMs) store)
     <? limit).
Proof.
  unfold checkRateLimit, healthy. cbn.
  by destruct (_ <? limit) eqn:Hcount; cbn; rewrite ?Hcount.
Qed.

(** *** The commands, seen through the members a reader finds *)

Lemma lookupKey_insert now key set (store : gmap string SortedSet) :
  lookupKey now (<[key := set]> store) key
  = match expireAt set with
    | Some deadline => if decide (deadline < now) then None else Some set
    | None => Some set
    end.
Proof. unfold lookupKey. by rewrite lookup_insert_eq. Qed.

Lemma lookupKey_delete now key (store : gmap string SortedSet) :
  lookupKey now (delete key store) key = None.
Proof. unfold lookupKey. by rewrite lookup_delete_eq. Qed.

Lemma lookupKey_live now key set (store : gmap string SortedSet) :
  lookupKey now store key = Some set →
  match expireAt set with
  | Some deadline => if decide (deadline < now) then None else Some set
  | None => Some set
  end = Some set.
Proof.
  unfold lookupKey. destruct (store !! key) as [set'|]; [|done].
  destruct (expireAt set') as [deadline|] eqn:Hexpire.
  - case_decide; [done|]. intros [= ->]. rewrite Hexpire. by rewrite decide_False.
  - intros [= ->]. by rewrite Hexpire.
Qed.

Lemma liveMembers_zremrangebyscore now key min max (store : gmap string SortedSet) :
  liveMembers now (zremrangebyscore now key min max store) key
  = filter (λ entry, ¬ (min ≤ entry.2 ≤ max)) (liveMembers now store key).
Proof.
  unfold liveMembers, zremrangebyscore.
  destruct (lookupKey now store key) as [set|] eqn:Hlook.
  - unfold storeKey. cbn [members]. case_decide as Hempty.
    + by rewrite lookupKey_delete, Hempty.
    + rewrite lookupKey_insert. cbn [expireAt].
      apply lookupKey_live in Hlook. destruct (expireAt set) as [deadline|]; [|done].
      by case_decide.
  - by rewrite lookupKey_delete, map_filter_empty.
Qed.

Lemma liveMembers_zadd now key score member (store : gmap string SortedSet) :
  liveMembers now (zadd now key score member store) key
  = <[member := score]> (liveMembers now store key).
Proof.
  unfold liveMembers, zadd.
  destruct (lookupKey now store key) as [set|] eqn:Hlook.
  - rewrite lookupKey_insert. cbn [expireAt].
    apply lookupKey_live in Hlook. destruct (expireAt set) as [deadline|]; [|done].
    by case_decide.
  - rewrite lookupKey_insert. cbn. by rewrite insert_empty.
Qed.

Lemma liveMembers_pexpire now key milliseconds (store : gmap string SortedSet) :
  0 < milliseconds →
  liveMembers now (pexpire now key milliseconds store) key = liveMembers now store key.
Proof.
  intros Hpositive. unfold liveMembers, pexpire.
  destruct (lookupKey now store key) as [set|] eqn:Hlook.
  - rewrite decide_False by lia. rewrite lookupKey_insert. cbn [expireAt].
    by rewrite decide_False by lia.
  - by rewrite lookupKey_delete.
Qed.

Lemma zcard_liveMembers now key (store : gmap string SortedSet) :
  zcard now key store = Z.of_nat (size (liveMembers now store key)).
Proof.
  unfold zcard, liveMembers. destruct (lookupKey now store key); [done|].
  by rewrite map_size_empty.
Qed.

(** What a call answered by a healthy client does to the window, for a
    window length above zero.  The entries at or before [now - windowMs]
    are dropped.  The call is allowed exactly when fewer than [limit]
    entries are left, and is then recorded.  A rejected call is not
    recorded; the removal that follows the rejection drops, with the entry
    of the call, every entry whose score is [now]. *)
Lemma checkRateLimit_window store now random identifier limit windowMs :
  0 < windowMs →
  let key := ("ratelimit:" +:+ identifier)%string in
  let kept :=
    filter (λ entry, ¬ (0 ≤ entry.2 ≤ now - windowMs)) (liveMembers now store key) in
  let r := checkRateLimit (Some store) (healthy now random) identifier limit windowMs in
  allowed r.1 = (Z.of_nat (size kept) <? limit) ∧
  ∃ store', r.2 = Some store' ∧
    liveMembers now store' key =
      if allowed r.1 then <[(now, random) := now]> kept
      else filter (λ entry, entry.2 ≠ now) (delete (now, random) kept).
Proof.
  intros Hpositive key kept r. subst r. unfold checkRateLimit, healthy. cbn.
  fold key. rewrite zcard_liveMembers, liveMembers_zremrangebyscore. fold kept.
  destruct (Z.of_nat (size kept) <? limit) eqn:Hcount; cbn.
  - split; [done|]. eexists. split; [done|].
    by rewrite liveMembers_pexpire, liveMembers_zadd, liveMembers_zremrangebyscore.
  - split; [done|]. eexists. split; [done|].
    rewrite liveMembers_zremrangebyscore, liveMembers_pexpire, liveMembers_zadd,
      liveMembers_zremrangebyscore by done.
    fold kept. rewrite map_filter_insert_False by (cbn; lia).
    apply map_filter_ext. intros member score _. cbn. lia.
Qed.

(** A rejected call leaves the window as it found it, past the expiry,
    when no entry of the window was made in the millisecond of the call. *)
Lemma checkRateLimit_rejected_keeps_window store now random identifier limit windowMs :
  0 < windowMs →
  let key := ("ratelimit:" +:+ identifier)%string in
  let kept :=
    filter (λ entry, ¬ (0 ≤ entry.2 ≤ now - windowMs)) (liveMembers now store key) in
  let r := checkRateLimit (Some store) (healthy now random) identifier limit windowMs in
  (∀ member score, kept !! member = Some score → member.1 ≠ now ∧ score ≠ now) →
  allowed r.1 = false →
  window r.2 identifier now = map_to_list kept.
Proof.
  intros Hpositive key kept r Hearlier Hrejected.
  destruct (checkRateLimit_window store now random identifier limit windowMs Hpositive)
    as (_ & store' & Hstore & Hmembers).
  fold key kept r in Hstore, Hmembers. rewrite Hrejected in Hmembers.
  rewrite Hstore. unfold window. fold key. rewrite Hmembers. f_equal.
  rewrite delete_id.
  - apply map_filter_id. intros member score Hin. by apply Hearlier in Hin as [_ ?].
  - destruct (kept !! (now, random)) as [score|] eqn:Hin; [|done].
    by apply Hearlier in Hin as [? _].
Qed.

(** The scenario of the specification at distinct milliseconds: with limit
    5 and a window of 60000 ms, five calls are allowed, the sixth is not
    and leaves the five entries in place, and a call made once the oldest
    entry is 60000 ms old is allowed again. *)
Example checkRateLimit_five_then_reject :
  let calls := [healthy 1000 1; healthy 1001 2; healthy 1002 3; healthy 1003 4;
                healthy 1004 5] in
  let five := checks (Some ∅) "ip:1" 5 60000 calls in
  let sixth := checkRateLimit five.2 (healthy 1005 6) "ip:1" 5 60000 in
  let later := checkRateLimit sixth.2 (healthy 61000 7) "ip:1" 5 60000 in
  allowed <$> five.1 = [true; true; true; true; true] ∧
  allowed sixth.1 = false ∧
  window sixth.2 "ip:1" 1005 = window five.2 "ip:1" 1005 ∧
  allowed later.1 = true.
Proof. by vm_compute. Qed.

(** C5, evaluated where the code departs from it.  With limit 2 and a
    window of 60000 ms, two calls in the millisecond 1000 are allowed and
    recorded; a third call in the same millisecond is rejected, and the
    removal that follows the rejection takes both recorded entries with it:
    the window is empty afterwards, and a fourth call in that millisecond
    is allowed. *)
Theorem checkRateLimit_rejection_clears_the_millisecond :
  let two := checks (Some ∅) "ip:1" 2 60000 [healthy 1000 1; healthy 1000 2] in
  let third := checkRateLimit two.2 (healthy 1000 3) "ip:1" 2 60000 in
  let fourth := checkRateLimit third.2 (healthy 1000 4) "ip:1" 2 60000 in
  allowed <$> two.1 = [true; true] ∧
  length (window two.2 "ip:1" 1000) = 2%nat ∧
  allowed third.1 = false ∧
  window third.2 "ip:1" 1000 = [] ∧
  allowed fourth.1 = true.
Proof. by vm_compute. Qed.

(** Where [checkRateLimit] does fail open: no store is configured,
    [pipeline.exec()] rejects or resolves with [null], or the removal that
    follows a rejection rejects.  Then the check answers [allowed], for
    every identifier, limit and window and whatever the store holds. *)
Lemma checkRateLimit_open_arms
    (redis : option (gmap string SortedSet)) (call : Call)
    (identifier : string) (limit windowMs : Z) :
  redis = None ∨ fault call = ExecRejects ∨ fault call = ExecNull ∨
  removalRejects (fault call) = true →
  allowed (checkRateLimit redis call identifier limit windowMs).1 = true.
Proof.
  intros Hunreachable. unfold checkRateLimit.
  destruct redis as [store|]; [|done].
  destruct Hunreachable as [|[Hfault|[Hfault|Hfault]]]; [done|by rewrite Hfault..|].
  destruct (fault call) eqn:Hcall; try done; cbv zeta; rewrite Hfault;
    by destruct (negb _) eqn:Hrejected; [|apply negb_false_iff in Hrejected].
Qed.

(** C9, evaluated where the code departs from it.  When the pipeline
    resolves and the entry of ZCARD among its replies carries an error,
    [currentCount] is [undefined], [remaining] is [NaN] and
    [currentCount < limit] is false; when the removal that follows goes
    through, the call is answered with [allowed] false, whatever the store
    holds, whatever the limit and whatever the other commands replied.
    So it is with an empty store and a limit of 100. *)
Theorem checkRateLimit_rejects_on_count_error
    (store : gmap string SortedSet) (now : Z) (random : N)
    (identifier : string) (limit windowMs : Z) (removed added expired : bool) :
  let replies :=
    {| removeFails := removed; countFails := true; addFails := added;
       expireFails := expired |} in
  let call := {| now := now; random := random; fault := ReplyErrors replies false |} in
  let r := checkRateLimit (Some store) call identifier limit windowMs in
  let first :=
    checkRateLimit (Some ∅)
      {| now := 1000; random := 1;
         fault := ReplyErrors {| removeFails := false; countFails := true;
                                 addFails := false; expireFails := false |} false |}
      "ip:1" 100 60000 in
  allowed r.1 = false ∧ remaining r.1 = NaN ∧
  allowed first.1 = false ∧ window first.2 "ip:1" 1000 = [].
Proof.
  cbv zeta. split; [done|]. split; [done|]. by vm_compute.
Qed.

End RateLimitFacts.

(** * Further properties of the subscription registry *)

Module RegistryFacts.
Import Types PriceService PriceHandler PriceHandlerFacts.

Lemma tidy_sameRegistry st st' : sameRegistry st st' → tidy st → tidy st'.
Proof.
  intros (Hc & Hs & _) [Hpop Hsup]. split.
  - intros symbol subscribers. rewrite Hs. apply Hpop.
  - intros socket connection symbol. rewrite Hc. apply Hsup.
Qed.

Lemma populated_dropSubscriber socket (subs : gmap string (gset positive)) symbol :
  (∀ s S, subs !! s = Some S → S ≠ ∅) →
  ∀ s S, dropSubscriber socket subs symbol !! s = Some S → S ≠ ∅.
Proof.
  intros Hpop s S. unfold dropSubscriber.
  destruct (subs !! symbol) as [subscribers|] eqn:Hsym; [|apply Hpop].
  cbn zeta. case_decide as Hsize.
  - intros Hlook. apply lookup_delete_Some in Hlook as [_ Hlook]. by eapply Hpop.
  - intros Hlook. apply lookup_insert_Some in Hlook as [[_ <-] | [_ Hlook]].
    + intros Hempty. apply Hsize. rewrite Hempty. apply size_empty.
    + by eapply Hpop.
Qed.

Lemma populated_foldl_dropSubscriber socket (f : string → string) symbols :
  ∀ subs : gmap string (gset positive),
    (∀ s S, subs !! s = Some S → S ≠ ∅) →
    ∀ s S,
      foldl (λ subs symbol, dropSubscriber socket subs (f symbol)) subs symbols !! s = Some S →
      S ≠ ∅.
Proof.
  induction symbols as [|symbol symbols IH]; intros subs Hpop; cbn; [done|].
  apply IH. by apply populated_dropSubscriber.
Qed.

Lemma populated_foldl_addSubscriber socket symbols :
  ∀ subs : gmap string (gset positive),
    (∀ s S, subs !! s = Some S → S ≠ ∅) →
    ∀ s S, foldl (addSubscriber socket) subs symbols !! s = Some S → S ≠ ∅.
Proof.
  induction symbols as [|symbol symbols IH]; intros subs Hpop; cbn; [done|].
  apply IH. intros s S. unfold addSubscriber.
  intros Hlook. apply lookup_insert_Some in Hlook as [[_ <-] | [_ Hlook]].
  - set_solver.
  - by eapply Hpop.
Qed.

Section Tidy.
Variable toUpperCase : string → string.

Lemma classify_valid symbols x :
  x ∈ (classify toUpperCase symbols).1 ↔
  x ∈ getSupportedSymbols ∧ ∃ symbol, symbol ∈ symbols ∧ x = toUpperCase symbol.
Proof.
  induction symbols as [|symbol symbols IH]; cbn.
  - split; [by intros ?%elem_of_nil|]. intros (_ & ? & ?%elem_of_nil & _). done.
  - destruct (classify toUpperCase symbols) as [validSymbols invalidSymbols]. cbn in IH.
    case_decide as Hsupported; cbn.
    + rewrite elem_of_cons, IH. split.
      * intros [->|(Hx & y & Hy & ->)]; (split; [done|]); eexists; split; try done;
          set_solver.
      * intros (Hx & y & [->|Hy]%elem_of_cons & ->); [by left | right; eauto].
    + rewrite IH. split.
      * intros (Hx & y & Hy & ->). split; [done|]. exists y. set_solver.
      * intros (Hx & y & [->|Hy]%elem_of_cons & ->); [done | eauto].
Qed.

Lemma classify_invalid symbols :
  (classify toUpperCase symbols).2
  = filter (λ symbol, toUpperCase symbol ∉ getSupportedSymbols) symbols.
Proof.
  induction symbols as [|symbol symbols IH]; [done|].
  rewrite filter_cons. cbn [classify].
  destruct (classify toUpperCase symbols) as [validSymbols invalidSymbols]. cbn [snd] in IH.
  destruct (decide (toUpperCase symbol ∈ getSupportedSymbols)) as [Hsupported|Hsupported].
  - by rewrite decide_False by (by intros ?).
  - by rewrite decide_True, IH.
Qed.

Lemma tidy_handleDisconnection socket st : tidy st → tidy (handleDisconnection socket st).
Proof.
  intros [Hpop Hsup]. unfold handleDisconnection.
  destruct (connections st !! socket) as [connection|] eqn:Hconn; [|by split].
  split.
  - intros s S. cbn.
    apply (populated_foldl_dropSubscriber socket Datatypes.id
             (elements (subscribedSymbols connection)) (symbolSubscribers st) Hpop s S).
  - intros socket' connection' symbol. cbn.
    intros Hlook. apply lookup_delete_Some in Hlook as [_ Hlook]. by eapply Hsup.
Qed.

Lemma tidy_touch socket connection connection' st :
  connections st !! socket = Some connection →
  subscribedSymbols connection' ⊆ subscribedSymbols connection →
  tidy st → tidy (setConnections (insert socket connection') st).
Proof.
  intros Hconn Hsub [Hpop Hsup]. split; [exact Hpop|].
  intros socket' connection'' symbol. cbn.
  intros Hlook. apply lookup_insert_Some in Hlook as [[_ <-] | [_ Hlook]].
  - intros Hin. eapply Hsup; [exact Hconn|]. set_solver.
  - by eapply Hsup.
Qed.

Lemma tidy_handleSubscribe getPrice socket connection symbols st :
  connections st !! socket = Some connection →
  tidy st →
  tidy (handleSubscribe toUpperCase getPrice socket connection symbols st).1.
Proof.
  intros Hconn [Hpop Hsup]. unfold handleSubscribe.
  pose proof (classify_valid symbols) as Hvalid.
  destruct (classify toUpperCase symbols) as [validSymbols invalidSymbols]. cbn in Hvalid.
  set (st1 := if decide (0 < length invalidSymbols)%nat then _ else st).
  assert (sameRegistry st st1) as (Hc & Hs & _).
  { subst st1. case_decide; [apply sendToClient_sameRegistry | apply sameRegistry_refl]. }
  eapply tidy_sameRegistry; [apply sendCurrentPrices_sameRegistry|].
  eapply tidy_sameRegistry; [apply sendToClient_sameRegistry|].
  split.
  - intros s S. cbn. rewrite Hs. by apply populated_foldl_addSubscriber.
  - intros socket' connection' symbol. cbn. rewrite Hc.
    intros Hlook. apply lookup_insert_Some in Hlook as [[_ <-] | [_ Hlook]].
    + cbn. rewrite elem_of_foldl_add. intros [Hin|Hin]; [by eapply Hsup|].
      by apply Hvalid in Hin as [? _].
    + by eapply Hsup.
Qed.

Lemma tidy_handleUnsubscribe socket connection symbols st :
  connections st !! socket = Some connection →
  tidy st →
  tidy (handleUnsubscribe toUpperCase socket connection symbols st).
Proof.
  intros Hconn [Hpop Hsup]. unfold handleUnsubscribe.
  eapply tidy_sameRegistry; [apply sendToClient_sameRegistry|].
  split.
  - intros s S. cbn. by apply populated_foldl_dropSubscriber.
  - intros socket' connection' symbol. cbn.
    intros Hlook. apply lookup_insert_Some in Hlook as [[_ <-] | [_ Hlook]].
    + cbn. rewrite elem_of_foldl_delete. intros [Hin _]. by eapply Hsup.
    + by eapply Hsup.
Qed.

Lemma tidy_handleMessage getPrice socket data now st :
  tidy st → tidy (handleMessage toUpperCase getPrice socket data now st).
Proof.
  intros Hinv. unfold handleMessage.
  destruct (connections st !! socket) as [connection|] eqn:Hconn.
  2: { eapply tidy_sameRegistry; [apply sendToClient_sameRegistry | done]. }
  set (connection' := {| subscribedSymbols := subscribedSymbols connection;
                         userId := PriceHandler.userId connection; lastPing := now |}).
  assert (tidy (setConnections (insert socket connection') st)) as Hinv'.
  { by eapply tidy_touch. }
  assert (connections (setConnections (insert socket connection') st) !! socket
          = Some connection') as Hconn'.
  { cbn. apply lookup_insert_eq. }
  assert (∀ message code,
            tidy (sendError socket message code
                    (setConnections (insert socket connection') st))) as Herr.
  { intros. eapply tidy_sameRegistry; [apply sendToClient_sameRegistry | done]. }
  destruct data as [| |type symbols]; [apply Herr| |].
  - cbn. apply Herr.
  - destruct (WSClientMessageSchema toUpperCase (JMessage type symbols)) as [[upper|upper]|].
    + pose proof (tidy_handleSubscribe getPrice socket connection' upper _ Hconn' Hinv')
        as Hsub.
      destruct (handleSubscribe toUpperCase getPrice socket connection' upper _)
        as [st' threw].
      destruct threw; [|done].
      eapply tidy_sameRegistry; [apply sendToClient_sameRegistry | done].
    + by apply tidy_handleUnsubscribe.
    + apply Herr.
Qed.

Lemma foldl_tidy {A} (f : State → A → State) (l : list A) :
  (∀ st a, tidy st → tidy (f st a)) → ∀ st, tidy st → tidy (foldl f st l).
Proof.
  intros Hf. induction l as [|a l IH]; intros st Hinv; cbn; [done|].
  apply IH, Hf, Hinv.
Qed.

Lemma tidy_step st ev : tidy st → tidy (step toUpperCase st ev).
Proof.
  intros Hinv. destruct ev; cbn.
  - unfold handleConnection.
    eapply tidy_sameRegistry; [apply sendToClient_sameRegistry|].
    destruct Hinv as [Hpop Hsup]. split; [exact Hpop|].
    intros socket connection symbol. cbn.
    intros Hlook. apply lookup_insert_Some in Hlook as [[_ <-] | [_ Hlook]].
    + cbn. set_solver.
    + by eapply Hsup.
  - by apply tidy_handleMessage.
  - unfold handlePing. destruct (connections st !! socket) eqn:Hconn; [|done].
    by eapply tidy_touch.
  - eapply tidy_sameRegistry; [|exact Hinv].
    unfold close. destruct (readyStateOf st socket); by repeat split.
  - apply tidy_handleDisconnection. eapply tidy_sameRegistry; [|exact Hinv]. by repeat split.
  - by apply tidy_handleDisconnection.
  - unfold cleanupStaleConnections. apply foldl_tidy; [|done].
    intros st' [socket connection] Hinv'. case_decide; [|done].
    apply tidy_handleDisconnection. eapply tidy_sameRegistry; [|exact Hinv'].
    unfold close. destruct (readyStateOf st' socket); by repeat split.
  - eapply tidy_sameRegistry; [apply broadcastPriceUpdate_sameRegistry | done].
  - eapply tidy_sameRegistry; [apply broadcastAlertTriggered_sameRegistry | done].
Qed.

Lemma tidy_run events : ∀ st, tidy st → tidy (run toUpperCase events st).
Proof. apply foldl_tidy. intros. by apply tidy_step. Qed.

(** The registry part of what [handleSubscribe] and [handleUnsubscribe]
    leave. *)
Lemma handleSubscribe_registry getPrice socket connection symbols st :
  let st' := (handleSubscribe toUpperCase getPrice socket connection symbols st).1 in
  let validSymbols := (classify toUpperCase symbols).1 in
  connections st' =
    <[socket := {| subscribedSymbols :=
                     foldl (λ set symbol, set ∪ {[symbol]}) (subscribedSymbols connection)
                       validSymbols;
                   userId := PriceHandler.userId connection;
                   lastPing := lastPing connection |}]> (connections st) ∧
  symbolSubscribers st' = foldl (addSubscriber socket) (symbolSubscribers st) validSymbols ∧
  readyState st' = readyState st.
Proof.
  unfold handleSubscribe.
  destruct (classify toUpperCase symbols) as [validSymbols invalidSymbols]. cbn [fst].
  set (st1 := if decide (0 < length invalidSymbols)%nat then _ else st).
  assert (sameRegistry st st1 ∧ readyState st1 = readyState st) as [(Hc & Hs & _) Hr].
  { subst st1. case_decide; [|by split; [apply sameRegistry_refl|]].
    split; [apply sendToClient_sameRegistry | apply sendToClient_readyState]. }
  match goal with
  | |- context [sendCurrentPrices getPrice socket validSymbols ?st0] =>
      pose proof (sendCurrentPrices_sameRegistry getPrice socket validSymbols st0)
        as (Hc' & Hs' & _);
      assert (readyState (sendCurrentPrices getPrice socket validSymbols st0).1
              = readyState st0) as Hr'
  end.
  { clear. match goal with |- context [sendCurrentPrices _ _ _ ?st0] => generalize st0 end.
    induction validSymbols as [|symbol validSymbols IH]; intros st0; cbn; [done|].
    destruct (getPrice symbol); [|apply IH|done].
    by rewrite IH, sendToClient_readyState. }
  cbv zeta. rewrite Hc', Hs', Hr'.
  destruct (sendToClient_sameRegistry socket
              (Subscribed
                 (elements
                    (foldl (λ set symbol, set ∪ {[symbol]}) (subscribedSymbols connection)
                       validSymbols)))
              (setSymbolSubscribers (λ subs, foldl (addSubscriber socket) subs validSymbols)
                 (setConnections
                    (insert socket
                       {| subscribedSymbols :=
                            foldl (λ set symbol, set ∪ {[symbol]})
                              (subscribedSymbols connection) validSymbols;
                          userId := PriceHandler.userId connection;
                          lastPing := lastPing connection |}) st1)))
    as (Hc'' & Hs'' & _).
  cbn in Hc'', Hs'' |- *. rewrite Hc'', Hs'', sendToClient_readyState. cbn.
  by rewrite Hc, Hs, Hr.
Qed.

Lemma handleUnsubscribe_registry socket connection symbols st :
  let st' := handleUnsubscribe toUpperCase socket connection symbols st in
  connections st' =
    <[socket := {| subscribedSymbols :=
                     foldl (λ set symbol, set ∖ {[toUpperCase symbol]})
                       (subscribedSymbols connection) symbols;
                   userId := PriceHandler.userId connection;
                   lastPing := lastPing connection |}]> (connections st) ∧
  symbolSubscribers st' =
    foldl (λ subs symbol, dropSubscriber socket subs (toUpperCase symbol))
      (symbolSubscribers st) symbols ∧
  readyState st' = readyState st.
Proof.
  unfold handleUnsubscribe. cbv zeta.
  match goal with
  | |- context [sendToClient socket ?m ?st0] =>
      destruct (sendToClient_sameRegistry socket m st0) as (Hc & Hs & _);
      rewrite Hc, Hs, sendToClient_readyState
  end.
  done.
Qed.

(** The schema lets a list of symbols through when each has a length
    between one and ten, and upper-cases them. *)
Lemma symbolsSchema_accepts symbols :
  Forall (λ s, 1 ≤ Types.utf16Length s ≤ 10)%nat symbols →
  symbolsSchema toUpperCase symbols = Some (toUpperCase <$> symbols).
Proof.
  intros Hlengths. unfold symbolsSchema.
  rewrite (proj2 (forallb_forall _ symbols)); [done|].
  intros s Hin. apply list_elem_of_In in Hin.
  rewrite Forall_forall in Hlengths. specialize (Hlengths s Hin).
  apply andb_true_iff. split; apply Nat.leb_le; lia.
Qed.

Lemma interestsOf_insert socket connection st socket' :
  interestsOf (setConnections (insert socket connection) st) socket'
  = if decide (socket' = socket) then subscribedSymbols connection else interestsOf st socket'.
Proof.
  unfold interestsOf. cbn. case_decide as Heq.
  - subst. by rewrite lookup_insert_eq.
  - by rewrite lookup_insert_ne.
Qed.

Lemma foldl_add_list_to_set (symbols : list string) (set : gset string) :
  foldl (λ set symbol, set ∪ {[symbol]}) set symbols = set ∪ list_to_set symbols.
Proof.
  apply set_eq. intros x. rewrite elem_of_foldl_add. set_solver.
Qed.

Lemma foldl_delete_list_to_set (f : string → string) (symbols : list string)
    (set : gset string) :
  foldl (λ set symbol, set ∖ {[f symbol]}) set symbols = set ∖ list_to_set (f <$> symbols).
Proof.
  apply set_eq. intros x. rewrite elem_of_foldl_delete. set_solver.
Qed.

(** What a subscribe message does to the registry, whatever the state. *)
Lemma subscribe_message_registry getPrice socket symbols now st :
  let st' := handleMessage toUpperCase getPrice socket (JMessage "subscribe" symbols) now st in
  let added := accepted toUpperCase st socket symbols in
  symbolSubscribers st' = foldl (addSubscriber socket) (symbolSubscribers st) added ∧
  (∀ socket',
     interestsOf st' socket' =
       if decide (socket' = socket) then interestsOf st socket ∪ list_to_set added
       else interestsOf st socket') ∧
  readyState st' = readyState st ∧
  (∀ socket', is_Some (connections st' !! socket') ↔ is_Some (connections st !! socket')).
Proof.
  unfold handleMessage, accepted.
  destruct (connections st !! socket) as [connection|] eqn:Hconn.
  2: { cbv zeta. unfold sendError.
       destruct (sendToClient_sameRegistry socket
                   (Error "Connection not found" (Some "CONNECTION_ERROR"%string)) st)
         as (Hc & Hs & _).
       rewrite Hs, sendToClient_readyState. unfold interestsOf. rewrite Hc, Hconn.
       split; [done|]. split; [|done]. intros socket'. case_decide; [subst|done].
       rewrite Hconn. set_solver. }
  set (connection' := {| subscribedSymbols := subscribedSymbols connection;
                         userId := PriceHandler.userId connection; lastPing := now |}).
  set (st0 := setConnections (insert socket connection') st).
  assert (∀ socket', is_Some (connections st0 !! socket') ↔ is_Some (connections st !! socket'))
    as Hdom.
  { intros socket'. subst st0. cbn. destruct (decide (socket' = socket)) as [->|Hne].
    - rewrite lookup_insert_eq, Hconn. split; eauto.
    - by rewrite lookup_insert_ne. }
  assert (∀ socket', interestsOf st0 socket' = interestsOf st socket') as Hint0.
  { intros socket'. subst st0. rewrite interestsOf_insert. case_decide; [subst|done].
    unfold interestsOf. by rewrite Hconn. }
  cbn [WSClientMessageSchema]. rewrite decide_True by done.
  destruct (symbolsSchema toUpperCase symbols) as [upper|]; cbn.
  - pose proof (handleSubscribe_registry getPrice socket connection' upper st0)
      as (Hc & Hs & Hr).
    cbv zeta in Hc, Hs, Hr.
    destruct (handleSubscribe toUpperCase getPrice socket connection' upper st0)
      as [st1 threw]. cbn [fst] in Hc, Hs, Hr.
    assert (sameRegistry st1 (if threw
                              then sendError socket "Failed to parse message"
                                     (Some "PARSE_ERROR"%string) st1
                              else st1) ∧
            readyState (if threw
                        then sendError socket "Failed to parse message"
                               (Some "PARSE_ERROR"%string) st1
                        else st1) = readyState st1) as [(Hc' & Hs' & _) Hr'].
    { destruct threw; [|by split; [apply sameRegistry_refl|]].
      split; [apply sendToClient_sameRegistry | apply sendToClient_readyState]. }
    rewrite Hs', Hs, Hr', Hr. split; [done|]. split; [|split; [done|]].
    + intros socket'. unfold interestsOf at 1. rewrite Hc', Hc.
      destruct (decide (socket' = socket)) as [->|Hne].
      * rewrite lookup_insert_eq. cbn. rewrite foldl_add_list_to_set.
        unfold interestsOf. by rewrite Hconn.
      * rewrite lookup_insert_ne by done. apply (Hint0 socket').
    + intros socket'. rewrite Hc', Hc, <- Hdom.
      destruct (decide (socket' = socket)) as [->|Hne].
      * rewrite lookup_insert_eq. subst st0. cbn. rewrite lookup_insert_eq. split; eauto.
      * by rewrite lookup_insert_ne.
  - unfold sendError.
    destruct (sendToClient_sameRegistry socket
                (Error "Invalid message format" (Some "INVALID_MESSAGE"%string)) st0)
      as (Hc & Hs & _).
    rewrite Hs, sendToClient_readyState. split; [done|]. split; [|split; [done|]].
    + intros socket'. unfold interestsOf at 1. rewrite Hc.
      change (interestsOf st0 socket' =
              if decide (socket' = socket) then interestsOf st socket ∪ list_to_set []
              else interestsOf st socket').
      rewrite Hint0. case_decide; [subst; set_solver | done].
    + intros socket'. by rewrite Hc.
Qed.

(** What an unsubscribe message does to the registry, whatever the state. *)
Lemma unsubscribe_message_registry getPrice socket symbols now st :
  let st' :=
    handleMessage toUpperCase getPrice socket (JMessage "unsubscribe" symbols) now st in
  let removed := dropped toUpperCase st socket symbols in
  symbolSubscribers st' =
    foldl (λ subs symbol, dropSubscriber socket subs symbol) (symbolSubscribers st) removed ∧
  (∀ socket',
     interestsOf st' socket' =
       if decide (socket' = socket) then interestsOf st socket ∖ list_to_set removed
       else interestsOf st socket') ∧
  readyState st' = readyState st.
Proof.
  unfold handleMessage, dropped.
  destruct (connections st !! socket) as [connection|] eqn:Hconn.
  2: { cbv zeta. unfold sendError.
       destruct (sendToClient_sameRegistry socket
                   (Error "Connection not found" (Some "CONNECTION_ERROR"%string)) st)
         as (Hc & Hs & _).
       rewrite Hs, sendToClient_readyState. unfold interestsOf. rewrite Hc, Hconn.
       split; [done|]. split; [|done]. intros socket'. case_decide; [subst|done].
       rewrite Hconn. set_solver. }
  set (connection' := {| subscribedSymbols := subscribedSymbols connection;
                         userId := PriceHandler.userId connection; lastPing := now |}).
  set (st0 := setConnections (insert socket connection') st).
  assert (∀ socket', interestsOf st0 socket' = interestsOf st socket') as Hint0.
  { intros socket'. subst st0. rewrite interestsOf_insert. case_decide; [subst|done].
    unfold interestsOf. by rewrite Hconn. }
  cbn [WSClientMessageSchema]. rewrite decide_False by done. rewrite decide_True by done.
  destruct (symbolsSchema toUpperCase symbols) as [upper|]; cbn.
  - pose proof (handleUnsubscribe_registry socket connection' upper st0) as (Hc & Hs & Hr).
    cbv zeta in Hc, Hs, Hr. rewrite Hs, Hr. split; [|split; [|done]].
    + cbn. clear. generalize (symbolSubscribers st).
      induction upper as [|symbol upper IH]; intros subs; cbn; [done|]. apply IH.
    + intros socket'. unfold interestsOf at 1. rewrite Hc.
      destruct (decide (socket' = socket)) as [->|Hne].
      * rewrite lookup_insert_eq. cbn. rewrite foldl_delete_list_to_set.
        unfold interestsOf. by rewrite Hconn.
      * rewrite lookup_insert_ne by done. apply (Hint0 socket').
  - unfold sendError.
    destruct (sendToClient_sameRegistry socket
                (Error "Invalid message format" (Some "INVALID_MESSAGE"%string)) st0)
      as (Hc & Hs & _).
    rewrite Hs, sendToClient_readyState. split; [done|]. split; [|done].
    intros socket'. unfold interestsOf at 1. rewrite Hc.
    change (interestsOf st0 socket' =
            if decide (socket' = socket) then interestsOf st socket ∖ list_to_set []
            else interestsOf st socket').
    rewrite Hint0. case_decide; [subst; set_solver | done].
Qed.

End Tidy.

Lemma tidy_init : tidy init.
Proof.
  split.
  - intros symbol subscribers Hlook. cbn in Hlook. by rewrite lookup_empty in Hlook.
  - intros socket connection symbol Hlook. cbn in Hlook. by rewrite lookup_empty in Hlook.
Qed.

Lemma elem_of_getSubscribedSymbols st symbol :
  symbol ∈ getSubscribedSymbols st ↔ is_Some (symbolSubscribers st !! symbol).
Proof.
  unfold getSubscribedSymbols. rewrite list_elem_of_fmap. split.
  - intros ([symbol' subscribers] & -> & Hin). apply elem_of_map_to_list in Hin. by eexists.
  - intros [subscribers Hlook]. exists (symbol, subscribers). split; [done|].
    by apply elem_of_map_to_list.
Qed.

Lemma listed_iff_subscribed st symbol :
  consistent st → populated st →
  symbol ∈ getSubscribedSymbols st ↔
  ∃ socket connection,
    connections st !! socket = Some connection ∧ symbol ∈ subscribedSymbols connection.
Proof.
  intros Hcons Hpop. rewrite elem_of_getSubscribedSymbols. split.
  - intros [subscribers Hlook].
    destruct (set_choose_L subscribers) as [socket Hin]; [by eapply Hpop|].
    destruct (proj1 (Hcons socket symbol)) as (connection & ? & ?); [by exists subscribers|].
    eauto.
  - intros (socket & connection & Hconn & Hin).
    destruct (proj2 (Hcons socket symbol)) as (subscribers & ? & ?); [by exists connection|].
    eauto.
Qed.

(** X1.  In every state the handler can reach, [getSubscribedSymbols] lists
    exactly the symbols that some registered connection is subscribed to:
    a symbol whose last subscriber left is no longer listed, and no symbol
    is listed with an empty set of subscribers. *)
Theorem getSubscribedSymbols_have_subscribers
    (toUpperCase : string → string) (events : list Event) (symbol : string) :
  let st := run toUpperCase events init in
  symbol ∈ getSubscribedSymbols st ↔
  ∃ socket connection,
    connections st !! socket = Some connection ∧ symbol ∈ subscribedSymbols connection.
Proof.
  intros st.
  pose proof (registryInv_run toUpperCase events init registryInv_init) as [Hcons _].
  pose proof (tidy_run toUpperCase events init tidy_init) as [Hpop _].
  by apply listed_iff_subscribed.
Qed.

(** X2.  In every state the handler can reach, a connection is subscribed
    to supported symbols only, and so is every symbol of the reverse
    index: an unsupported symbol of a subscribe message is never stored. *)
Theorem subscriptions_are_supported
    (toUpperCase : string → string) (events : list Event) (symbol : string) :
  let st := run toUpperCase events init in
  (∀ socket connection,
     connections st !! socket = Some connection → symbol ∈ subscribedSymbols connection →
     symbol ∈ getSupportedSymbols) ∧
  (symbol ∈ getSubscribedSymbols st → symbol ∈ getSupportedSymbols).
Proof.
  intros st.
  pose proof (registryInv_run toUpperCase events init registryInv_init) as [Hcons _].
  pose proof (tidy_run toUpperCase events init tidy_init) as [Hpop Hsup].
  fold st in Hcons, Hpop, Hsup.
  split; [intros; by eapply Hsup|].
  intros Hlisted.
  apply listed_iff_subscribed in Hlisted as (socket & connection & Hconn & Hin); [|done..].
  by eapply Hsup.
Qed.

Lemma addSubscriber_interested socket (subs : gmap string (gset positive)) symbol :
  interested subs symbol socket → addSubscriber socket subs symbol = subs.
Proof.
  intros (subscribers & Hlook & Hin). unfold addSubscriber. rewrite Hlook. cbn.
  apply insert_id. rewrite Hlook. f_equal. set_solver.
Qed.

Lemma foldl_addSubscriber_interested socket symbols :
  ∀ subs : gmap string (gset positive),
    (∀ symbol, symbol ∈ symbols → interested subs symbol socket) →
    foldl (addSubscriber socket) subs symbols = subs.
Proof.
  induction symbols as [|symbol symbols IH]; intros subs Hall; cbn; [done|].
  rewrite addSubscriber_interested by (apply Hall; set_solver).
  apply IH. intros. apply Hall. set_solver.
Qed.

Lemma dropSubscriber_not_interested socket (subs : gmap string (gset positive)) symbol :
  (∀ s S, subs !! s = Some S → S ≠ ∅) →
  ¬ interested subs symbol socket → dropSubscriber socket subs symbol = subs.
Proof.
  intros Hpop Hnot. unfold dropSubscriber.
  destruct (subs !! symbol) as [subscribers|] eqn:Hlook; [|done]. cbn zeta.
  assert (subscribers ∖ {[socket]} = subscribers) as ->.
  { apply set_eq. intros k. rewrite elem_of_difference, elem_of_singleton.
    split; [tauto|]. intros Hin. split; [done|]. intros ->. apply Hnot. by exists subscribers. }
  rewrite decide_False.
  - by apply insert_id.
  - intros Hsize. apply size_empty_inv, leibniz_equiv in Hsize. by eapply Hpop.
Qed.

Lemma foldl_dropSubscriber_not_interested socket symbols :
  ∀ subs : gmap string (gset positive),
    (∀ s S, subs !! s = Some S → S ≠ ∅) →
    (∀ symbol, symbol ∈ symbols → ¬ interested subs symbol socket) →
    foldl (λ subs symbol, dropSubscriber socket subs symbol) subs symbols = subs.
Proof.
  induction symbols as [|symbol symbols IH]; intros subs Hpop Hall; cbn; [done|].
  rewrite dropSubscriber_not_interested; [|done|apply Hall; set_solver].
  apply IH; [done|]. intros. apply Hall. set_solver.
Qed.

(** X3.  A subscribe message of a registered connection whose symbols have
    a length between one and ten adds exactly the supported ones,
    upper-cased, to the connection's interest set and enters the
    connection under each of them in the reverse index; symbols that are
    not supported are left out without keeping the supported ones from
    being applied, earlier subscriptions stay, and no other connection is
    touched. *)
Theorem subscribe_adds_supported_symbols
    (toUpperCase : string → string) (st : State) (socket : WebSocket)
    (connection : ClientConnection) (symbols : list string) (now : Z)
    (getPrice : string → PriceAnswer) :
  connections st !! socket = Some connection →
  Forall (λ s, 1 ≤ Types.utf16Length s ≤ 10)%nat symbols →
  let st' := step toUpperCase st (Message socket (JMessage "subscribe" symbols) now getPrice) in
  let requested x := ∃ symbol, symbol ∈ symbols ∧ x = toUpperCase (toUpperCase symbol) in
  (∀ x, x ∈ interestsOf st' socket ↔
        x ∈ subscribedSymbols connection ∨ (x ∈ getSupportedSymbols ∧ requested x)) ∧
  (∀ x, x ∈ getSupportedSymbols → requested x → interested (symbolSubscribers st') x socket) ∧
  (∀ socket', socket' ≠ socket →
     interestsOf st' socket' = interestsOf st socket' ∧
     ∀ x, interested (symbolSubscribers st') x socket' ↔
          interested (symbolSubscribers st) x socket').
Proof.
  intros Hconn Hlengths st' requested. subst st'. cbn [step].
  destruct (subscribe_message_registry toUpperCase getPrice socket symbols now st)
    as (Hs & Hi & _ & _).
  cbv zeta in Hs, Hi. unfold accepted in Hs, Hi.
  rewrite Hconn, symbolsSchema_accepts in Hs, Hi by done.
  assert (∀ x, x ∈ (classify toUpperCase (toUpperCase <$> symbols)).1 ↔
               x ∈ getSupportedSymbols ∧ requested x) as Hadded.
  { intros x. rewrite classify_valid. subst requested. cbn. split.
    - intros (Hx & y & Hy & ->). split; [done|].
      apply list_elem_of_fmap in Hy as (symbol & -> & Hin). eauto.
    - intros (Hx & symbol & Hin & ->). split; [done|].
      exists (toUpperCase symbol). split; [|done]. apply list_elem_of_fmap. eauto. }
  split; [|split].
  - intros x. rewrite Hi, decide_True by done. unfold interestsOf. rewrite Hconn.
    rewrite elem_of_union, elem_of_list_to_set, Hadded. done.
  - intros x Hx Hreq. rewrite Hs, interested_foldl_addSubscriber. right.
    split; [done|]. by apply Hadded.
  - intros socket' Hne. split.
    + by rewrite Hi, decide_False.
    + intros x. rewrite Hs, interested_foldl_addSubscriber. naive_solver.
Qed.

Lemma subscribe_adds_supported_symbols_witness :
  let st := run asciiToUpperCase [Connect None 0] init in
  let st' :=
    step asciiToUpperCase st
      (Message 1 (JMessage "subscribe" ["btc"; "zzz"]%string) 5 (λ _, NoPrice)) in
  let requested x :=
    ∃ symbol, symbol ∈ ["btc"; "zzz"]%string ∧
              x = asciiToUpperCase (asciiToUpperCase symbol) in
  (∀ x, x ∈ interestsOf st' 1 ↔
        x ∈ (∅ : gset string) ∨ (x ∈ getSupportedSymbols ∧ requested x)) ∧
  (∀ x, x ∈ getSupportedSymbols → requested x → interested (symbolSubscribers st') x 1) ∧
  (∀ socket', socket' ≠ 1%positive →
     interestsOf st' socket' = interestsOf st socket' ∧
     ∀ x, interested (symbolSubscribers st') x socket' ↔
          interested (symbolSubscribers st) x socket').
Proof.
  apply (subscribe_adds_supported_symbols asciiToUpperCase
           (run asciiToUpperCase [Connect None 0] init) 1%positive
           {| subscribedSymbols := ∅; userId := None; lastPing := 0 |}
           ["btc"; "zzz"]%string 5 (λ _, NoPrice)).
  - vm_compute. reflexivity.
  - repeat constructor; cbn; lia.
Defined.

(** X4.  Subscribing is idempotent: sending the same subscribe message a
    second time, whatever the state, the time and the answers of the
    price service, changes neither the reverse index nor the interest set
    of any connection. *)
Theorem subscribe_twice_changes_nothing
    (toUpperCase : string → string) (st : State) (socket : WebSocket)
    (symbols : list string) (now now' : Z) (getPrice getPrice' : string → PriceAnswer) :
  let st1 := step toUpperCase st (Message socket (JMessage "subscribe" symbols) now getPrice) in
  let st2 :=
    step toUpperCase st1 (Message socket (JMessage "subscribe" symbols) now' getPrice') in
  symbolSubscribers st2 = symbolSubscribers st1 ∧
  ∀ socket', interestsOf st2 socket' = interestsOf st1 socket'.
Proof.
  intros st1 st2. subst st1 st2. cbn [step].
  set (st1 := handleMessage toUpperCase getPrice socket (JMessage "subscribe" symbols) now st).
  destruct (subscribe_message_registry toUpperCase getPrice socket symbols now st)
    as (Hs1 & Hi1 & _ & Hdom).
  destruct (subscribe_message_registry toUpperCase getPrice' socket symbols now' st1)
    as (Hs2 & Hi2 & _ & _).
  cbv zeta in Hs1, Hi1, Hdom, Hs2, Hi2. fold st1 in Hs1, Hi1, Hdom.
  assert (accepted toUpperCase st1 socket symbols = accepted toUpperCase st socket symbols)
    as Hsame.
  { unfold accepted. specialize (Hdom socket).
    destruct (connections st1 !! socket), (connections st !! socket); try done.
    - destruct Hdom as [Hdom _]. by destruct Hdom.
    - destruct Hdom as [_ Hdom]. by destruct Hdom. }
  rewrite Hsame in Hs2, Hi2. split.
  - rewrite Hs2. apply foldl_addSubscriber_interested.
    intros symbol Hin. rewrite Hs1, interested_foldl_addSubscriber. by right.
  - intros socket'. rewrite Hi2. case_decide; [subst|done].
    rewrite Hi1, decide_True by done. set_solver.
Qed.

(** X5.  An unsubscribe message of a registered connection whose symbols
    have a length between one and ten removes exactly the requested
    symbols, upper-cased, from the connection's interest set and takes the
    connection out of the reverse index under each of them; its other
    subscriptions and all other connections are untouched. *)
Theorem unsubscribe_removes_requested_symbols
    (toUpperCase : string → string) (st : State) (socket : WebSocket)
    (connection : ClientConnection) (symbols : list string) (now : Z)
    (getPrice : string → PriceAnswer) :
  connections st !! socket = Some connection →
  Forall (λ s, 1 ≤ Types.utf16Length s ≤ 10)%nat symbols →
  let st' :=
    step toUpperCase st (Message socket (JMessage "unsubscribe" symbols) now getPrice) in
  let requested x := ∃ symbol, symbol ∈ symbols ∧ x = toUpperCase (toUpperCase symbol) in
  (∀ x, x ∈ interestsOf st' socket ↔ x ∈ subscribedSymbols connection ∧ ¬ requested x) ∧
  (∀ x, interested (symbolSubscribers st') x socket ↔
        interested (symbolSubscribers st) x socket ∧ ¬ requested x) ∧
  (∀ socket', socket' ≠ socket →
     interestsOf st' socket' = interestsOf st socket' ∧
     ∀ x, interested (symbolSubscribers st') x socket' ↔
          interested (symbolSubscribers st) x socket').
Proof.
  intros Hconn Hlengths st' requested. subst st'. cbn [step].
  destruct (unsubscribe_message_registry toUpperCase getPrice socket symbols now st)
    as (Hs & Hi & _).
  cbv zeta in Hs, Hi. unfold dropped in Hs, Hi.
  rewrite Hconn, symbolsSchema_accepts in Hs, Hi by done.
  assert (∀ x, x ∈ toUpperCase <$> (toUpperCase <$> symbols) ↔ requested x) as Hremoved.
  { intros x. subst requested. cbn. rewrite list_elem_of_fmap. split.
    - intros (y & -> & Hy). apply list_elem_of_fmap in Hy as (symbol & -> & Hin). eauto.
    - intros (symbol & Hin & ->). exists (toUpperCase symbol). split; [done|].
      apply list_elem_of_fmap. eauto. }
  pose proof (interested_foldl_dropSubscriber socket Datatypes.id
                (toUpperCase <$> (toUpperCase <$> symbols)) (symbolSubscribers st)) as Hdrop.
  rewrite list_fmap_id in Hdrop. cbn in Hdrop.
  split; [|split].
  - intros x. rewrite Hi, decide_True by done. unfold interestsOf. rewrite Hconn.
    rewrite elem_of_difference, elem_of_list_to_set, Hremoved. done.
  - intros x. rewrite Hs, Hdrop, Hremoved. naive_solver.
  - intros socket' Hne. split.
    + by rewrite Hi, decide_False.
    + intros x. rewrite Hs, Hdrop. naive_solver.
Qed.

Lemma unsubscribe_removes_requested_symbols_witness :
  let st :=
    run asciiToUpperCase
      [Connect None 0;
       Message 1 (JMessage "subscribe" ["btc"; "eth"]%string) 1 (λ _, NoPrice)] init in
  let st' :=
    step asciiToUpperCase st
      (Message 1 (JMessage "unsubscribe" ["eth"; "sol"]%string) 5 (λ _, NoPrice)) in
  let connection :=
    {| subscribedSymbols := {[ "BTC"; "ETH" ]}%string; userId := None; lastPing := 1 |} in
  let requested x :=
    ∃ symbol, symbol ∈ ["eth"; "sol"]%string ∧
              x = asciiToUpperCase (asciiToUpperCase symbol) in
  (∀ x, x ∈ interestsOf st' 1 ↔ x ∈ subscribedSymbols connection ∧ ¬ requested x) ∧
  (∀ x, interested (symbolSubscribers st') x 1 ↔
        interested (symbolSubscribers st) x 1 ∧ ¬ requested x) ∧
  (∀ socket', socket' ≠ 1%positive →
     interestsOf st' socket' = interestsOf st socket' ∧
     ∀ x, interested (symbolSubscribers st') x socket' ↔
          interested (symbolSubscribers st) x socket').
Proof.
  apply (unsubscribe_removes_requested_symbols asciiToUpperCase
           (run asciiToUpperCase
              [Connect None 0;
               Message 1 (JMessage "subscribe" ["btc"; "eth"]%string) 1 (λ _, NoPrice)] init)
           1%positive
           {| subscribedSymbols := {[ "BTC"; "ETH" ]}%string; userId := None; lastPing := 1 |}
           ["eth"; "sol"]%string 5 (λ _, NoPrice)).
  - vm_compute. reflexivity.
  - repeat constructor; cbn; lia.
Defined.

Lemma unsubscribe_message_sent (toUpperCase : string → string) getPrice socket connection
    symbols now st :
  connections st !! socket = Some connection →
  Forall (λ s, 1 ≤ Types.utf16Length s ≤ 10)%nat symbols →
  sent (handleMessage toUpperCase getPrice socket (JMessage "unsubscribe" symbols) now st) =
    sent st ++
      (if decide (readyStateOf st socket = OPEN)
       then [(socket, Unsubscribed (toUpperCase <$> (toUpperCase <$> symbols)))] else []).
Proof.
  intros Hconn Hlengths. unfold handleMessage. rewrite Hconn. cbv zeta.
  unfold WSClientMessageSchema. rewrite decide_False by done. rewrite decide_True by done.
  rewrite symbolsSchema_accepts by done. cbn [fmap option_fmap option_map].
  unfold handleUnsubscribe, sendToClient, readyStateOf. cbn.
  case_decide; cbn; [done|by rewrite app_nil_r].
Qed.

(** X6.  In every reachable state, unsubscribing from symbols the
    connection is not subscribed to is no error: the reverse index and every
    interest set stay as they are, and the only frame sent is the
    confirmation listing the requested symbols, upper-cased, if the socket
    is OPEN. *)
Theorem unsubscribing_unknown_symbols_is_confirmed
    (toUpperCase : string → string) (events : list Event) (socket : WebSocket)
    (connection : ClientConnection) (symbols : list string) (now : Z)
    (getPrice : string → PriceAnswer) :
  let st := run toUpperCase events init in
  connections st !! socket = Some connection →
  Forall (λ s, 1 ≤ Types.utf16Length s ≤ 10)%nat symbols →
  (∀ symbol, symbol ∈ symbols →
     toUpperCase (toUpperCase symbol) ∉ subscribedSymbols connection) →
  let st' :=
    step toUpperCase st (Message socket (JMessage "unsubscribe" symbols) now getPrice) in
  symbolSubscribers st' = symbolSubscribers st ∧
  (∀ socket', interestsOf st' socket' = interestsOf st socket') ∧
  framesSince st st' =
    if decide (readyStateOf st socket = OPEN)
    then [(socket, Unsubscribed (toUpperCase <$> (toUpperCase <$> symbols)))] else [].
Proof.
  intros st Hconn Hlengths Hnone st'.
  pose proof (registryInv_run toUpperCase events init registryInv_init) as [Hcons _].
  pose proof (tidy_run toUpperCase events init tidy_init) as [Hpop _].
  fold st in Hcons, Hpop. subst st'. clearbody st. cbn [step].
  destruct (unsubscribe_message_registry toUpperCase getPrice socket symbols now st)
    as (Hs & Hi & _).
  cbv zeta in Hs, Hi. unfold dropped in Hs, Hi.
  rewrite Hconn, symbolsSchema_accepts in Hs, Hi by done.
  assert (∀ x, x ∈ toUpperCase <$> (toUpperCase <$> symbols) →
               x ∉ subscribedSymbols connection) as Hremoved.
  { intros x Hx. apply list_elem_of_fmap in Hx as (y & -> & Hy).
    apply list_elem_of_fmap in Hy as (symbol & -> & Hin). by apply Hnone. }
  split; [|split].
  - rewrite Hs. apply foldl_dropSubscriber_not_interested; [exact Hpop|].
    intros x Hx Hint. apply Hcons in Hint as (c & Hc & Hin).
    rewrite Hconn in Hc. injection Hc as <-. by eapply Hremoved.
  - intros socket'. rewrite Hi. case_decide; [subst|done].
    unfold interestsOf. rewrite Hconn. apply set_eq. intros x.
    rewrite elem_of_difference, elem_of_list_to_set. naive_solver.
  - unfold framesSince. rewrite (unsubscribe_message_sent _ _ _ connection) by done.
    apply drop_app_length.
Qed.

Lemma unsubscribing_unknown_symbols_is_confirmed_witness :
  let st := run asciiToUpperCase [Connect None 0] init in
  let st' :=
    step asciiToUpperCase st
      (Message 1 (JMessage "unsubscribe" ["btc"]%string) 5 (λ _, NoPrice)) in
  symbolSubscribers st' = symbolSubscribers st ∧
  (∀ socket', interestsOf st' socket' = interestsOf st socket') ∧
  framesSince st st' =
    if decide (readyStateOf st 1 = OPEN)
    then [(1%positive,
           Unsubscribed (asciiToUpperCase <$> (asciiToUpperCase <$> ["btc"]%string)))]
    else [].
Proof.
  apply (unsubscribing_unknown_symbols_is_confirmed asciiToUpperCase [Connect None 0]
           1%positive {| subscribedSymbols := ∅; userId := None; lastPing := 0 |}
           ["btc"]%string 5 (λ _, NoPrice)).
  - vm_compute. reflexivity.
  - repeat constructor; cbn; lia.
  - intros symbol _. cbn. set_solver.
Defined.

Lemma connections_handleDisconnection socket st :
  connections (handleDisconnection socket st) = delete socket (connections st).
Proof.
  unfold handleDisconnection. destruct (connections st !! socket) eqn:Hconn; cbn; [done|].
  symmetry. by apply delete_id.
Qed.

Lemma readyState_handleDisconnection socket st :
  readyState (handleDisconnection socket st) = readyState st.
Proof. unfold handleDisconnection. by destruct (connections st !! socket). Qed.

Lemma sent_handleDisconnection socket st :
  sent (handleDisconnection socket st) = sent st.
Proof. unfold handleDisconnection. by destruct (connections st !! socket). Qed.

Lemma interested_handleDisconnection socket st symbol socket' :
  socket' ≠ socket →
  interested (symbolSubscribers (handleDisconnection socket st)) symbol socket' ↔
  interested (symbolSubscribers st) symbol socket'.
Proof.
  intros Hne. unfold handleDisconnection.
  destruct (connections st !! socket) as [connection|]; [|done]. cbn.
  pose proof (interested_foldl_dropSubscriber socket Datatypes.id
                (elements (subscribedSymbols connection)) (symbolSubscribers st)
                symbol socket') as Hdrop.
  cbn in Hdrop. rewrite Hdrop. naive_solver.
Qed.

(** X7.  In every reachable state, handling the disconnection of a socket
    removes its connection and takes the socket out of every interest set,
    sends nothing, and leaves every other connection and its subscriptions
    as they are; handling it a second time changes nothing. *)
Theorem handleDisconnection_removes_only_that_socket
    (toUpperCase : string → string) (events : list Event) (socket : WebSocket) :
  let st := run toUpperCase events init in
  let st' := handleDisconnection socket st in
  connections st' = delete socket (connections st) ∧
  (∀ symbol, ¬ interested (symbolSubscribers st') symbol socket) ∧
  (∀ socket' symbol,
     socket' ≠ socket →
     interested (symbolSubscribers st') symbol socket' ↔
     interested (symbolSubscribers st) symbol socket') ∧
  sent st' = sent st ∧
  handleDisconnection socket st' = st'.
Proof.
  intros st st'.
  pose proof (registryInv_run toUpperCase events init registryInv_init) as Hinv.
  fold st in Hinv. subst st'. clearbody st.
  split; [apply connections_handleDisconnection|].
  split; [by apply handleDisconnection_gone|].
  split; [intros; by apply interested_handleDisconnection|].
  split; [apply sent_handleDisconnection|].
  unfold handleDisconnection at 1.
  by rewrite connections_handleDisconnection, lookup_delete_eq.
Qed.

Lemma elem_of_subscribers (subs : gmap string (gset positive)) symbol socket :
  socket ∈ default ∅ (subs !! symbol) ↔ interested subs symbol socket.
Proof.
  unfold interested. destruct (subs !! symbol) as [subscribers|]; cbn.
  - naive_solver.
  - split; [set_solver|]. by intros (? & ? & _).
Qed.

(** X8.  In every reachable state, a price broadcast hands exactly one
    price-update frame to every OPEN socket whose connection is subscribed
    to the symbol of the price, and no frame to anybody else. *)
Theorem broadcastPriceUpdate_reaches_open_subscribers
    (toUpperCase : string → string) (events : list Event) (price : CryptoPrice) :
  let st := run toUpperCase events init in
  let st' := broadcastPriceUpdate price st in
  NoDup (framesSince st st') ∧
  ∀ socket message,
    (socket, message) ∈ framesSince st st' ↔
    message = PriceUpdate price ∧ readyStateOf st socket = OPEN ∧
    ∃ connection,
      connections st !! socket = Some connection ∧
      symbol price ∈ subscribedSymbols connection.
Proof.
  intros st st'.
  pose proof (registryInv_run toUpperCase events init registryInv_init) as [Hcons _].
  fold st in Hcons. subst st'. clearbody st.
  unfold framesSince. rewrite broadcastPriceUpdate_sent, drop_app_length. split.
  - apply NoDup_fmap_2; [by intros ?? [=]|]. apply NoDup_filter, NoDup_elements.
  - intros socket message. rewrite list_elem_of_fmap. split.
    + intros (socket' & [= <- ->] & Hin).
      apply list_elem_of_filter in Hin as [Hopen Hin].
      apply elem_of_elements, elem_of_subscribers, Hcons in Hin. done.
    + intros (-> & Hopen & Hsub). exists socket. split; [done|].
      apply list_elem_of_filter. split; [done|].
      by apply elem_of_elements, elem_of_subscribers, Hcons.
Qed.

Lemma sent_sendToClient socket message st :
  sent (sendToClient socket message st) =
    sent st ++ (if decide (readyStateOf st socket = OPEN) then [(socket, message)] else []).
Proof. unfold sendToClient. case_decide; cbn; [done|by rewrite app_nil_r]. Qed.

Lemma foldl_alert_frames alert price (rs : gmap positive ReadyState)
    (l : list (positive * ClientConnection)) :
  ∀ st,
    readyState st = rs →
    let st' :=
      foldl (λ st '(socket, connection),
               if decide (userId connection = Some (Types.userId alert)) then
                 sendToClient socket (PriceUpdate price)
                   (sendToClient socket (AlertTriggered alert) st)
               else st) st l in
    readyState st' = rs ∧
    sent st' =
      sent st ++
        (l ≫= λ '(socket, connection),
           if decide (userId connection = Some (Types.userId alert) ∧
                      default CLOSED (rs !! socket) = OPEN)
           then [(socket, AlertTriggered alert); (socket, PriceUpdate price)] else []).
Proof.
  induction l as [|[socket connection] l IH]; intros st Hrs; cbn [foldl].
  - split; [done|]. cbn. by rewrite app_nil_r.
  - rewrite bind_cons.
    destruct (decide (userId connection = Some (Types.userId alert))) as [Hu|Hu].
    + destruct (IH (sendToClient socket (PriceUpdate price)
                      (sendToClient socket (AlertTriggered alert) st))) as [Hrs' Hsent].
      { by rewrite !sendToClient_readyState. }
      split; [done|]. rewrite Hsent, !sent_sendToClient.
      unfold readyStateOf. rewrite sendToClient_readyState, Hrs.
      destruct (decide (default CLOSED (rs !! socket) = OPEN)) as [Hopen|Hopen].
      * rewrite decide_True by done. by rewrite <- !app_assoc.
      * rewrite decide_False by tauto. by rewrite !app_nil_r.
    + destruct (IH st Hrs) as [Hrs' Hsent]. split; [done|].
      rewrite Hsent, decide_False by tauto. done.
Qed.

(** X9.  An alert broadcast reaches exactly the OPEN sockets of the
    connections whose user is the owner of the alert, whatever they are
    subscribed to: each of them is handed the alert frame and the price
    frame, once each; nobody else is handed anything, connections without a
    user included, and the registry is left as it is. *)
Theorem broadcastAlertTriggered_reaches_owner
    (alert : PriceAlert) (price : CryptoPrice) (st : State) :
  let st' := broadcastAlertTriggered alert price st in
  connections st' = connections st ∧
  symbolSubscribers st' = symbolSubscribers st ∧
  NoDup (framesSince st st') ∧
  ∀ socket message,
    (socket, message) ∈ framesSince st st' ↔
    (message = AlertTriggered alert ∨ message = PriceUpdate price) ∧
    readyStateOf st socket = OPEN ∧
    ∃ connection,
      connections st !! socket = Some connection ∧
      userId connection = Some (Types.userId alert).
Proof.
  intros st'.
  destruct (broadcastAlertTriggered_sameRegistry alert price st) as (Hc & Hs & _).
  fold st' in Hc, Hs. split; [done|]. split; [done|].
  destruct (foldl_alert_frames alert price (readyState st) (map_to_list (connections st))
              st eq_refl) as [_ Hsent].
  cbv zeta in Hsent. fold (broadcastAlertTriggered alert price st) in Hsent.
  unfold framesSince. subst st'. rewrite Hsent, drop_app_length. split.
  - apply NoDup_bind.
    + intros [k1 c1] [k2 c2] frame Hin1 Hin2 Hf1 Hf2.
      assert (frame.1 = k1) as H1.
      { clear Hf2. case_decide; [|by apply elem_of_nil in Hf1]. set_solver. }
      assert (frame.1 = k2) as H2.
      { clear Hf1. case_decide; [|by apply elem_of_nil in Hf2]. set_solver. }
      assert (k1 = k2) as <- by congruence.
      apply elem_of_map_to_list in Hin1, Hin2. congruence.
    + intros [k c] _. case_decide; [|constructor].
      apply NoDup_cons. split; [|apply NoDup_singleton]. set_solver.
    + apply NoDup_map_to_list.
  - intros socket message. rewrite list_elem_of_bind. split.
    + intros ([k c] & Hin & Hkc). apply elem_of_map_to_list in Hkc.
      case_decide as Hd; [|by apply elem_of_nil in Hin]. destruct Hd as [Hu Hopen].
      assert (socket = k ∧ (message = AlertTriggered alert ∨ message = PriceUpdate price))
        as [-> Hm] by set_solver.
      split; [done|]. split; [done|]. eauto.
    + intros (Hm & Hopen & connection & Hconn & Hu).
      exists (socket, connection). split; [|by apply elem_of_map_to_list].
      rewrite decide_True by done. set_solver.
Qed.

(** *** The heartbeat sweep *)

Lemma connections_close socket st : connections (close socket st) = connections st.
Proof. unfold close. by destruct (readyStateOf st socket). Qed.

Lemma sent_close socket st : sent (close socket st) = sent st.
Proof. unfold close. by destruct (readyStateOf st socket). Qed.

Lemma readyState_close_ne socket st k :
  k ≠ socket → readyState (close socket st) !! k = readyState st !! k.
Proof.
  intros Hne. unfold close.
  destruct (readyStateOf st socket); cbn; by rewrite ?lookup_insert_ne.
Qed.

Lemma readyStateOf_close_eq socket st : readyStateOf (close socket st) socket ≠ OPEN.
Proof.
  unfold close. destruct (readyStateOf st socket) eqn:Hrs;
    try (unfold readyStateOf; cbn; by rewrite lookup_insert_eq).
  by rewrite Hrs.
Qed.

Lemma readyStateOf_close socket st k :
  readyStateOf st k ≠ OPEN → readyStateOf (close socket st) k ≠ OPEN.
Proof.
  intros Hk. destruct (decide (k = socket)) as [->|Hne].
  - apply readyStateOf_close_eq.
  - unfold readyStateOf. by rewrite readyState_close_ne.
Qed.

Lemma sweep_fold maxAge now (l : list (positive * ClientConnection)) :
  ∀ st,
    let st' :=
      foldl (λ st '(socket, connection),
               if decide (now - lastPing connection > maxAge) then
                 handleDisconnection socket (close socket st)
               else st) st l in
    (∀ k, (∀ c, (k, c) ∈ l → ¬ stale maxAge now c) →
          connections st' !! k = connections st !! k ∧
          readyState st' !! k = readyState st !! k) ∧
    (∀ k, connections st !! k = None → connections st' !! k = None) ∧
    (∀ k, readyStateOf st k ≠ OPEN → readyStateOf st' k ≠ OPEN) ∧
    (∀ k c, (k, c) ∈ l → stale maxAge now c →
            connections st' !! k = None ∧ readyStateOf st' k ≠ OPEN) ∧
    sent st' = sent st.
Proof.
  induction l as [|[socket connection] l IH]; intros st; cbn [foldl].
  - cbv zeta. split; [done|]. split; [done|]. split; [done|]. split; [|done].
    intros k c Hin. by apply elem_of_nil in Hin.
  - destruct (decide (now - lastPing connection > maxAge)) as [Hstale|Hfresh].
    + destruct (IH (handleDisconnection socket (close socket st)))
        as (Hkeep & Hnone & Hclosed & Hgone & Hsent).
      cbv zeta. split; [|split; [|split; [|split]]].
      * intros k Hk.
        assert (k ≠ socket) as Hne.
        { intros ->. apply (Hk connection); [left|done]. }
        destruct (Hkeep k) as [-> ->]; [intros c Hin; apply Hk; by right|].
        rewrite connections_handleDisconnection, connections_close,
          readyState_handleDisconnection.
        by rewrite lookup_delete_ne, readyState_close_ne.
      * intros k Hk. apply Hnone.
        rewrite connections_handleDisconnection, connections_close.
        apply lookup_delete_None. by right.
      * intros k Hk. apply Hclosed. unfold readyStateOf.
        rewrite readyState_handleDisconnection. by apply readyStateOf_close.
      * intros k c Hin Hc. apply elem_of_cons in Hin as [[= -> ->]|Hin]; [|by eapply Hgone].
        split.
        { apply Hnone. rewrite connections_handleDisconnection. apply lookup_delete_eq. }
        apply Hclosed. unfold readyStateOf. rewrite readyState_handleDisconnection.
        apply readyStateOf_close_eq.
      * by rewrite Hsent, sent_handleDisconnection, sent_close.
    + destruct (IH st) as (Hkeep & Hnone & Hclosed & Hgone & Hsent).
      cbv zeta. split; [|split; [|split; [|split]]]; try done.
      * intros k Hk. apply Hkeep. intros c Hin. apply Hk. by right.
      * intros k c Hin Hc. apply elem_of_cons in Hin as [[= -> ->]|Hin]; [done|].
        by eapply Hgone.
Qed.

(** What a sweep leaves, in a state where the two views of a subscription
    agree. *)
Lemma cleanupStaleConnections_spec maxAge now st :
  registryInv st →
  let st' := cleanupStaleConnections maxAge now st in
  connections st' = filter (λ kc, ¬ stale maxAge now kc.2) (connections st) ∧
  (∀ socket connection,
     connections st !! socket = Some connection → stale maxAge now connection →
     readyStateOf st' socket ≠ OPEN ∧
     ∀ symbol, ¬ interested (symbolSubscribers st') symbol socket) ∧
  (∀ socket connection,
     connections st !! socket = Some connection → ¬ stale maxAge now connection →
     readyStateOf st' socket = readyStateOf st socket ∧
     ∀ symbol,
       interested (symbolSubscribers st') symbol socket ↔
       symbol ∈ subscribedSymbols connection) ∧
  sent st' = sent st.
Proof.
  intros Hinv st'.
  pose proof (registryInv_cleanupStaleConnections maxAge now st Hinv) as [Hcons _].
  subst st'. unfold cleanupStaleConnections in *.
  destruct (sweep_fold maxAge now (map_to_list (connections st)) st)
    as (Hkeep & Hnone & _ & Hgone & Hsent).
  cbv zeta in Hkeep, Hnone, Hgone, Hsent.
  set (st' := foldl _ st (map_to_list (connections st))) in *.
  assert (∀ k c, connections st !! k = Some c → ¬ stale maxAge now c →
                 connections st' !! k = Some c ∧ readyState st' !! k = readyState st !! k)
    as Hfresh.
  { intros k c Hk Hc. destruct (Hkeep k) as [-> ->]; [|done].
    intros c' Hin. apply elem_of_map_to_list in Hin. congruence. }
  split; [|split; [|split]]; [| | |done].
  - apply map_eq. intros k. apply option_eq. intros c.
    rewrite map_lookup_filter_Some. cbn. split.
    + intros Hk. destruct (connections st !! k) as [c'|] eqn:Hk'.
      * destruct (decide (stale maxAge now c')) as [Hc|Hc].
        { destruct (Hgone k c') as [Hn _]; [by apply elem_of_map_to_list|done|]. congruence. }
        destruct (Hfresh k c' Hk' Hc) as [Hk'' _]. by simplify_eq.
      * rewrite Hnone in Hk by done. done.
    + intros [Hk Hc]. by apply Hfresh.
  - intros socket connection Hconn Hc.
    destruct (Hgone socket connection) as [Hn Hclosed]; [by apply elem_of_map_to_list|done|].
    split; [done|]. intros symbol Hint. apply Hcons in Hint as (c & Hc' & _). congruence.
  - intros socket connection Hconn Hc. destruct (Hfresh socket connection Hconn Hc) as [Hk Hrs].
    split; [unfold readyStateOf; by rewrite Hrs|].
    intros symbol. rewrite (Hcons socket symbol). unfold subscribed. rewrite Hk. naive_solver.
Qed.

(** X10.  In every reachable state, a heartbeat sweep removes exactly the
    connections whose last ping is more than [maxAge] old: the connection
    map is left with the fresh ones; a stale connection's socket is no
    longer OPEN and is in no interest set; a fresh connection keeps its
    socket state and its subscriptions; no frame is sent. *)
Theorem cleanupStaleConnections_removes_the_stale
    (toUpperCase : string → string) (events : list Event) (maxAge now : Z) :
  let st := run toUpperCase events init in
  let st' := cleanupStaleConnections maxAge now st in
  connections st' = filter (λ kc, ¬ stale maxAge now kc.2) (connections st) ∧
  (∀ socket connection,
     connections st !! socket = Some connection → stale maxAge now connection →
     readyStateOf st' socket ≠ OPEN ∧
     ∀ symbol, ¬ interested (symbolSubscribers st') symbol socket) ∧
  (∀ socket connection,
     connections st !! socket = Some connection → ¬ stale maxAge now connection →
     readyStateOf st' socket = readyStateOf st socket ∧
     ∀ symbol,
       interested (symbolSubscribers st') symbol socket ↔
       symbol ∈ subscribedSymbols connection) ∧
  sent st' = sent st.
Proof.
  intros st. apply cleanupStaleConnections_spec.
  apply registryInv_run, registryInv_init.
Qed.

(** X11.  In every reachable state, a ping keeps a connection alive: after
    a ping at [now], a sweep at [now'] with [now' - now <= maxAge] leaves
    the connection registered with that ping time, its socket state and all
    its subscriptions. *)
Theorem pinged_connection_survives_sweep
    (toUpperCase : string → string) (events : list Event) (socket : WebSocket)
    (connection : ClientConnection) (now maxAge now' : Z) :
  let st := run toUpperCase events init in
  connections st !! socket = Some connection →
  now' - now ≤ maxAge →
  let st' := run toUpperCase [Ping socket now; Heartbeat maxAge now'] st in
  connections st' !! socket =
    Some {| subscribedSymbols := subscribedSymbols connection;
            userId := userId connection; lastPing := now |} ∧
  readyStateOf st' socket = readyStateOf st socket ∧
  ∀ symbol,
    interested (symbolSubscribers st') symbol socket ↔
    symbol ∈ subscribedSymbols connection.
Proof.
  intros st Hconn Hage st'.
  pose proof (registryInv_run toUpperCase events init registryInv_init) as Hinv.
  fold st in Hinv. subst st'. clearbody st. unfold run. cbn [foldl step].
  set (connection' := {| subscribedSymbols := subscribedSymbols connection;
                         userId := userId connection; lastPing := now |}).
  assert (handlePing socket now st = setConnections (insert socket connection') st) as Hping.
  { unfold handlePing. by rewrite Hconn. }
  assert (registryInv (handlePing socket now st)) as Hinv' by by apply registryInv_handlePing.
  destruct (cleanupStaleConnections_spec maxAge now' _ Hinv') as (Hc & _ & Hfresh & _).
  cbv zeta in Hc, Hfresh.
  assert (connections (handlePing socket now st) !! socket = Some connection') as Hconn'.
  { rewrite Hping. cbn. apply lookup_insert_eq. }
  assert (¬ stale maxAge now' connection') as Hnew.
  { unfold stale. cbn. lia. }
  destruct (Hfresh socket connection' Hconn' Hnew) as [Hrs Hint].
  split; [|split].
  - rewrite Hc. by apply map_lookup_filter_Some.
  - rewrite Hrs, Hping. done.
  - exact Hint.
Qed.

Lemma pinged_connection_survives_sweep_witness :
  let st := run asciiToUpperCase closingSubscriber init in
  let connection :=
    {| subscribedSymbols := {[ "BTC"%string ]}; userId := None; lastPing := 1 |} in
  let st' := run asciiToUpperCase [Ping 1 100; Heartbeat 30 130] st in
  connections st' !! 1%positive =
    Some {| subscribedSymbols := subscribedSymbols connection;
            userId := userId connection; lastPing := 100 |} ∧
  readyStateOf st' 1 = readyStateOf st 1 ∧
  ∀ symbol,
    interested (symbolSubscribers st') symbol 1 ↔ symbol ∈ subscribedSymbols connection.
Proof.
  apply (pinged_connection_survives_sweep asciiToUpperCase closingSubscriber 1%positive
           {| subscribedSymbols := {[ "BTC"%string ]}; userId := None; lastPing := 1 |}
           100 30 130).
  - vm_compute. reflexivity.
  - lia.
Defined.

(** *** Messages that are refused *)

(** X12.  A message whose symbols, if it has any, are ASCII strings and
    that [WSClientMessageSchema] refuses (it is not JSON, not a subscribe
    or unsubscribe message, or has a symbol that is empty or longer than
    ten characters) changes no subscription: the reverse index and
    every interest set stay as they are, and the sender, if its socket is
    OPEN, is handed exactly one error frame: CONNECTION_ERROR when it has no
    connection, PARSE_ERROR when the text is not JSON, INVALID_MESSAGE
    otherwise. *)
Theorem malformed_message_changes_no_subscription
    (toUpperCase : string → string) (getPrice : string → PriceAnswer)
    (socket : WebSocket) (data : Json) (now : Z) (st : State) :
  asciiSymbols data →
  WSClientMessageSchema toUpperCase data = None →
  let st' := step toUpperCase st (Message socket data now getPrice) in
  let reply :=
    match connections st !! socket with
    | None => Error "Connection not found" (Some "CONNECTION_ERROR"%string)
    | Some _ =>
        match data with
        | JUnparsable => Error "Failed to parse message" (Some "PARSE_ERROR"%string)
        | _ => Error "Invalid message format" (Some "INVALID_MESSAGE"%string)
        end
    end in
  symbolSubscribers st' = symbolSubscribers st ∧
  (∀ socket', interestsOf st' socket' = interestsOf st socket') ∧
  framesSince st st' =
    if decide (readyStateOf st socket = OPEN) then [(socket, reply)] else [].
Proof.
  intros _ Hschema st' reply. subst st' reply. cbn [step]. unfold handleMessage, framesSince.
  destruct (connections st !! socket) as [connection|] eqn:Hconn.
  - cbv zeta.
    set (st0 := setConnections _ st).
    assert (∀ socket', interestsOf st0 socket' = interestsOf st socket') as Hsame.
    { intros socket'. subst st0. rewrite interestsOf_insert. cbn.
      case_decide; [subst|done]. unfold interestsOf. by rewrite Hconn. }
    assert (∀ message code,
              let st' := sendError socket message code st0 in
              symbolSubscribers st' = symbolSubscribers st ∧
              (∀ socket', interestsOf st' socket' = interestsOf st socket') ∧
              drop (length (sent st)) (sent st') =
                if decide (readyStateOf st socket = OPEN)
                then [(socket, Error message code)] else []) as Hreply.
    { intros message code. cbv zeta. unfold sendError.
      destruct (sendToClient_sameRegistry socket (Error message code) st0) as (Hc & Hs & _).
      split; [by rewrite Hs|]. split.
      - intros socket'. rewrite <- Hsame. unfold interestsOf. by rewrite Hc.
      - rewrite sent_sendToClient. apply drop_app_length. }
    destruct data as [| |type symbols]; [apply Hreply| |]; rewrite Hschema; apply Hreply.
  - unfold sendError.
    destruct (sendToClient_sameRegistry socket
                (Error "Connection not found" (Some "CONNECTION_ERROR"%string)) st)
      as (Hc & Hs & _).
    split; [done|]. split.
    + intros socket'. unfold interestsOf. by rewrite Hc.
    + rewrite sent_sendToClient. apply drop_app_length.
Qed.

Lemma malformed_message_changes_no_subscription_witness :
  let st := run asciiToUpperCase [Connect None 0] init in
  let data := JMessage "subscribe" ["btc"; "ABCDEFGHIJK"]%string in
  let st' := step asciiToUpperCase st (Message 1 data 5 (λ _, NoPrice)) in
  let reply :=
    match connections st !! 1%positive with
    | None => Error "Connection not found" (Some "CONNECTION_ERROR"%string)
    | Some _ =>
        match data with
        | JUnparsable => Error "Failed to parse message" (Some "PARSE_ERROR"%string)
        | _ => Error "Invalid message format" (Some "INVALID_MESSAGE"%string)
        end
    end in
  symbolSubscribers st' = symbolSubscribers st ∧
  (∀ socket', interestsOf st' socket' = interestsOf st socket') ∧
  framesSince st st' =
    if decide (readyStateOf st 1 = OPEN) then [(1%positive, reply)] else [].
Proof.
  apply (malformed_message_changes_no_subscription asciiToUpperCase (λ _, NoPrice) 1%positive
           (JMessage "subscribe" ["btc"; "ABCDEFGHIJK"]%string) 5
           (run asciiToUpperCase [Connect None 0] init)).
  - repeat constructor.
  - vm_compute. reflexivity.
Defined.

Lemma sendCurrentPrices_threw getPrice socket symbols :
  ∀ st,
    (sendCurrentPrices getPrice socket symbols st).2 = true ↔
    Exists (λ symbol, getPrice symbol = SourceFailed) symbols.
Proof.
  induction symbols as [|symbol symbols IH]; intros st; cbn.
  - split; [done|]. intros Hex. by apply Exists_nil in Hex.
  - rewrite Exists_cons. destruct (getPrice symbol) eqn:Hprice.
    + rewrite IH. naive_solver.
    + rewrite IH. naive_solver.
    + cbn. naive_solver.
Qed.

(** X13.  A failure of the price source while the current prices are being
    sent does not undo a subscription: the accepted symbols are registered
    in both views, and the last frame handed to the OPEN socket of the
    subscriber is the error frame PARSE_ERROR, Failed to parse message. *)
Theorem subscribe_survives_price_failure
    (toUpperCase : string → string) (st : State) (socket : WebSocket)
    (connection : ClientConnection) (symbols : list string) (now : Z)
    (getPrice : string → PriceAnswer) :
  connections st !! socket = Some connection →
  readyStateOf st socket = OPEN →
  Forall (λ s, 1 ≤ Types.utf16Length s ≤ 10)%nat symbols →
  (∃ x, x ∈ accepted toUpperCase st socket symbols ∧ getPrice x = SourceFailed) →
  let st' := step toUpperCase st (Message socket (JMessage "subscribe" symbols) now getPrice) in
  last (sent st') =
    Some (socket, Error "Failed to parse message" (Some "PARSE_ERROR"%string)) ∧
  ∀ x, x ∈ accepted toUpperCase st socket symbols →
       x ∈ interestsOf st' socket ∧ interested (symbolSubscribers st') x socket.
Proof.
  intros Hconn Hopen Hlengths (x & Hx & Hfail) st'. subst st'. cbn [step]. split.
  - unfold accepted in Hx. rewrite Hconn, symbolsSchema_accepts in Hx by done.
    unfold handleMessage. rewrite Hconn. cbv zeta.
    unfold WSClientMessageSchema. rewrite decide_True by done.
    rewrite symbolsSchema_accepts by done. cbn [fmap option_fmap option_map].
    set (connection' := {| subscribedSymbols := subscribedSymbols connection;
                           userId := userId connection; lastPing := now |}).
    set (st0 := setConnections (insert socket connection') st).
    pose proof (handleSubscribe_registry toUpperCase getPrice socket connection'
                  (toUpperCase <$> symbols) st0) as (_ & _ & Hrs).
    cbv zeta in Hrs.
    assert ((handleSubscribe toUpperCase getPrice socket connection'
               (toUpperCase <$> symbols) st0).2 = true) as Hthrew.
    { unfold handleSubscribe.
      destruct (classify toUpperCase (toUpperCase <$> symbols)) as [valid invalid].
      cbn [fst] in Hx. apply sendCurrentPrices_threw, Exists_exists. eauto. }
    destruct (handleSubscribe toUpperCase getPrice socket connection'
                (toUpperCase <$> symbols) st0) as [st2 threw].
    cbn [fst snd] in Hrs, Hthrew. subst threw.
    unfold sendError. rewrite sent_sendToClient, decide_True.
    + apply last_snoc.
    + unfold readyStateOf. rewrite Hrs. exact Hopen.
  - intros y Hy.
    destruct (subscribe_message_registry toUpperCase getPrice socket symbols now st)
      as (Hs & Hi & _).
    cbv zeta in Hs, Hi. rewrite Hs, Hi, decide_True by done.
    split; [rewrite elem_of_union, elem_of_list_to_set; by right|].
    apply interested_foldl_addSubscriber. by right.
Qed.

Lemma subscribe_survives_price_failure_witness :
  let st := run asciiToUpperCase [Connect None 0] init in
  let getPrice := λ _ : string, SourceFailed in
  let st' :=
    step asciiToUpperCase st (Message 1 (JMessage "subscribe" ["btc"]%string) 5 getPrice) in
  last (sent st') =
    Some (1%positive, Error "Failed to parse message" (Some "PARSE_ERROR"%string)) ∧
  ∀ x, x ∈ accepted asciiToUpperCase st 1 ["btc"]%string →
       x ∈ interestsOf st' 1 ∧ interested (symbolSubscribers st') x 1.
Proof.
  apply (subscribe_survives_price_failure asciiToUpperCase
           (run asciiToUpperCase [Connect None 0] init) 1%positive
           {| subscribedSymbols := ∅; userId := None; lastPing := 0 |}
           ["btc"]%string 5 (λ _, SourceFailed)).
  - vm_compute. reflexivity.
  - vm_compute. reflexivity.
  - repeat constructor; cbn; lia.
  - exists "BTC"%string. split; [|done]. vm_compute. left.
Defined.

End RegistryFacts.

(** * Reading, deleting and deactivating alerts *)

Module AlertAccessFacts.
Import PriceService AlertService AlertServiceFacts.

(** A statement is rejected, which needs bad weather and changes nothing,
    or it takes effect. *)
Lemma statement_cases {A} (effect : World → Outcome A * World) w :
  (∃ w1, statement effect w = (Thrown "database error"%string, w1) ∧ outages w ≠ [] ∧
         priceAlerts w1 = priceAlerts w ∧ log w1 = log w) ∨
  (∃ w1, statement effect w = effect w1 ∧
         priceAlerts w1 = priceAlerts w ∧ clock w1 = clock w ∧ log w1 = log w ∧
         uuids w1 = uuids w).
Proof.
  unfold statement, nextStatement.
  destruct (outages w) as [|[] rest]; cbn.
  - right. by exists w.
  - left. eexists. by repeat split.
  - right. eexists. by repeat split.
Qed.

Lemma statement_healthy {A} (effect : World → Outcome A * World) w :
  outages w = [] → statement effect w = effect w.
Proof. intros Hhealthy. unfold statement. by rewrite nextStatement_healthy. Qed.

Lemma owned_foreign alertId u (table : gmap string PriceAlertRow) :
  (∀ row, table !! alertId = Some row → userId row ≠ u) → owned alertId u table = [].
Proof.
  intros Hforeign. unfold owned. destruct (table !! alertId) as [row|]; [|done].
  rewrite decide_False; [done|]. by apply Hforeign.
Qed.

Lemma owned_own alertId row (table : gmap string PriceAlertRow) :
  table !! alertId = Some row → owned alertId (userId row) table = [(alertId, row)].
Proof. intros Hrow. unfold owned. rewrite Hrow. by rewrite decide_True. Qed.

Section Access.
Variable Number : string → float.

Lemma getAlert_cases alertId u w :
  let r := getAlert Number alertId u w in
  priceAlerts r.2 = priceAlerts w ∧ log r.2 = log w ∧
  (((∃ error, r.1 = Thrown error) ∧ outages w ≠ []) ∨
   r.1 = Returned (toApiAlert Number <$> head (owned alertId u (priceAlerts w)))).
Proof.
  cbv zeta. unfold getAlert, mbind, Async_bind, selectOwned.
  match goal with
  | |- context [statement ?e w] =>
      destruct (statement_cases e w) as [(w1 & -> & Hbad & Ht & Hl) | (w1 & -> & Ht & _ & Hl & _)]
  end; cbn.
  - split; [done|]. split; [done|]. left. eauto.
  - split; [done|]. split; [done|]. right. by rewrite Ht.
Qed.

Lemma deleteAlert_cases alertId u w :
  let r := deleteAlert alertId u w in
  let matched := owned alertId u (priceAlerts w) in
  log r.2 = log w ∧
  (((∃ error, r.1 = Thrown error) ∧ outages w ≠ [] ∧ priceAlerts r.2 = priceAlerts w) ∨
   (r.1 = Returned (bool_decide (0 < length matched)%nat) ∧
    priceAlerts r.2 = foldl (λ table id, delete id table) (priceAlerts w) matched.*1)).
Proof.
  cbv zeta. unfold deleteAlert, mbind, Async_bind, deleteOwned.
  match goal with
  | |- context [statement ?e w] =>
      destruct (statement_cases e w) as [(w1 & -> & Hbad & Ht & Hl) | (w1 & -> & Ht & _ & Hl & _)]
  end; cbn.
  - split; [done|]. left. eauto.
  - split; [done|]. right. rewrite Ht. by rewrite length_fmap.
Qed.

Lemma deactivateAlert_cases alertId u w :
  let r := deactivateAlert Number alertId u w in
  let updated := prod_map Datatypes.id deactivated <$> owned alertId u (priceAlerts w) in
  log r.2 = log w ∧
  (((∃ error, r.1 = Thrown error) ∧ outages w ≠ [] ∧ priceAlerts r.2 = priceAlerts w) ∨
   (r.1 = Returned (toApiAlert Number <$> head updated) ∧
    priceAlerts r.2 =
      foldl (λ table alert, <[alert.1 := alert.2]> table) (priceAlerts w) updated)).
Proof.
  cbv zeta. unfold deactivateAlert, mbind, Async_bind, deactivateOwned.
  match goal with
  | |- context [statement ?e w] =>
      destruct (statement_cases e w) as [(w1 & -> & Hbad & Ht & Hl) | (w1 & -> & Ht & _ & Hl & _)]
  end; cbn.
  - split; [done|]. left. eauto.
  - split; [done|]. right. by rewrite Ht.
Qed.

(** An alert that is not in the table is not brought in by a pass, and the
    pass is silent about it. *)
Lemma checkAlertsForPrice_absent price w alertId :
  priceAlerts w !! alertId = None →
  let r := checkAlertsForPrice Number price w in
  priceAlerts r.2 !! alertId = None ∧
  ∃ effects, log r.2 = log w ++ effects ∧ silentAbout alertId effects.
Proof.
  intros Hrow r.
  assert (alertId ∉ (due Number price (priceAlerts w)).*1) as Hnotin.
  { rewrite elem_of_due_ids. intros (alert' & Hrow' & Hdue). congruence. }
  assert (∀ apiAlert,
            apiAlert ∈ toApiAlert Number <$> due Number price (priceAlerts w) →
            Types.id apiAlert ≠ alertId) as Hapi.
  { intros apiAlert Hin Heq. apply Hnotin, elem_of_triggered. eauto. }
  destruct (checkAlertsForPrice_cases Number price w) as
    [_ [((error & Hr) & Ht & Hl) | [(Hnil & Hr & Ht & Hl) | (Hsome & Hr & Ht & Hl)]]];
    fold r in Hr, Ht, Hl.
  - rewrite Ht, Hl. split; [done|].
    exists []. split; [by rewrite app_nil_r|]. by intros ? ?%elem_of_nil.
  - rewrite Ht, Hl. split; [done|].
    exists []. split; [by rewrite app_nil_r|]. by intros ? ?%elem_of_nil.
  - rewrite Ht, Hl. split.
    + by rewrite updated_lookup, Hrow.
    + eexists. split; [done|].
      intros effect [->|Hin]%elem_of_cons; [done|].
      apply list_elem_of_fmap in Hin as (apiAlert & -> & Hin). by apply Hapi.
Qed.

Lemma checkAllAlerts_absent prices alertId :
  ∀ w, priceAlerts w !! alertId = None →
    let r := checkAllAlerts Number prices w in
    priceAlerts r.2 !! alertId = None ∧
    ∃ effects, log r.2 = log w ++ effects ∧ silentAbout alertId effects.
Proof.
  induction prices as [|price prices IH]; intros w Hrow.
  - cbn. split; [done|]. exists []. split; [by rewrite app_nil_r|].
    by intros ? ?%elem_of_nil.
  - cbv zeta. rewrite checkAllAlerts_unfold.
    destruct (checkAlertsForPrice_absent price w alertId Hrow)
      as (Hrow1 & effects1 & Hlog1 & Hsilent1).
    destruct (checkAlertsForPrice Number price w) as [[triggered|error] w1]; cbn in *.
    2: { split; [done|]. eauto. }
    destruct (IH w1 Hrow1) as (Hrow2 & effects2 & Hlog2 & Hsilent2).
    destruct (checkAllAlerts Number prices w1) as [[allTriggered|error] w2]; cbn in *.
    all: split; [done|]; exists (effects1 ++ effects2);
      rewrite Hlog2, Hlog1, <- app_assoc; split; [done|]; by apply silentAbout_app.
Qed.

Lemma evaluations_absent passes alertId :
  ∀ w, priceAlerts w !! alertId = None →
    priceAlerts (evaluations Number passes w) !! alertId = None ∧
    ∃ effects,
      log (evaluations Number passes w) = log w ++ effects ∧ silentAbout alertId effects.
Proof.
  induction passes as [|pass passes IH]; intros w Hrow.
  - cbn. split; [done|]. exists []. split; [by rewrite app_nil_r|].
    by intros ? ?%elem_of_nil.
  - unfold evaluations in *. cbn [foldl].
    set (w0 := {| priceAlerts := priceAlerts w; clock := time pass; outages := weather pass;
                  uuids := uuids w; log := log w; decimal := decimal w |}).
    destruct (checkAllAlerts_absent (snapshots pass) alertId w0 Hrow)
      as (Hrow1 & effects1 & Hlog1 & Hsilent1).
    destruct (IH (evaluate Number w pass) Hrow1) as (Hrow2 & effects2 & Hlog2 & Hsilent2).
    split; [done|]. exists (effects1 ++ effects2).
    split; [|by apply silentAbout_app].
    rewrite Hlog2. unfold evaluate. fold w0. rewrite Hlog1. cbn. by rewrite <- app_assoc.
Qed.

End Access.

(** X14.  Reading, deleting and deactivating an alert are scoped to its
    owner: for an alert id that is not in the table or that belongs to
    another user, [getAlert] and [deactivateAlert] return null and
    [deleteAlert] returns false, unless the database rejects the statement,
    and in every case the table is left exactly as it was. *)
Theorem alerts_of_other_users_are_out_of_reach
    (Number : string → float) (alertId u : string) (w : World) :
  (∀ row, priceAlerts w !! alertId = Some row → userId row ≠ u) →
  let read := getAlert Number alertId u w in
  let removed := deleteAlert alertId u w in
  let switched := deactivateAlert Number alertId u w in
  (read.1 = Returned None ∨ ∃ error, read.1 = Thrown error) ∧
  (removed.1 = Returned false ∨ ∃ error, removed.1 = Thrown error) ∧
  (switched.1 = Returned None ∨ ∃ error, switched.1 = Thrown error) ∧
  priceAlerts read.2 = priceAlerts w ∧
  priceAlerts removed.2 = priceAlerts w ∧
  priceAlerts switched.2 = priceAlerts w.
Proof.
  intros Hforeign read removed switched.
  pose proof (owned_foreign alertId u (priceAlerts w) Hforeign) as Hnone.
  destruct (getAlert_cases Number alertId u w) as (Ht1 & _ & Hr1).
  destruct (deleteAlert_cases alertId u w) as (_ & Hr2).
  destruct (deactivateAlert_cases Number alertId u w) as (_ & Hr3).
  cbv zeta in Ht1, Hr1, Hr2, Hr3. rewrite Hnone in Hr1, Hr2, Hr3. cbn in Hr2, Hr3.
  subst read removed switched.
  split; [destruct Hr1 as [[? _]|?]; eauto|].
  split; [destruct Hr2 as [(? & _)|[? _]]; eauto|].
  split; [destruct Hr3 as [(? & _)|[? _]]; eauto|].
  split; [done|].
  split; [by destruct Hr2 as [(_ & _ & ?)|[_ ?]]|by destruct Hr3 as [(_ & _ & ?)|[_ ?]]].
Qed.

Lemma alerts_of_other_users_are_out_of_reach_witness :
  let read := getAlert decimalNumber "a1" "u2" twoAlerts in
  let removed := deleteAlert "a1" "u2" twoAlerts in
  let switched := deactivateAlert decimalNumber "a1" "u2" twoAlerts in
  (read.1 = Returned None ∨ ∃ error, read.1 = Thrown error) ∧
  (removed.1 = Returned false ∨ ∃ error, removed.1 = Thrown error) ∧
  (switched.1 = Returned None ∨ ∃ error, switched.1 = Thrown error) ∧
  priceAlerts read.2 = priceAlerts twoAlerts ∧
  priceAlerts removed.2 = priceAlerts twoAlerts ∧
  priceAlerts switched.2 = priceAlerts twoAlerts.
Proof.
  apply (alerts_of_other_users_are_out_of_reach decimalNumber "a1" "u2" twoAlerts).
  intros row Hrow. vm_compute in Hrow. injection Hrow as <-. cbn. discriminate.
Defined.

(** X15.  With the database up, deleting one's own alert returns true and
    removes exactly that row; from then on no run of the alert job, under
    any weather, brings the row back, marks it or announces it. *)
Theorem deleted_alert_is_gone
    (Number : string → float) (w : World) (alertId : string) (row : PriceAlertRow) :
  priceAlerts w !! alertId = Some row →
  outages w = [] →
  let r := deleteAlert alertId (userId row) w in
  r.1 = Returned true ∧
  priceAlerts r.2 = delete alertId (priceAlerts w) ∧
  log r.2 = log w ∧
  ∀ passes,
    priceAlerts (evaluations Number passes r.2) !! alertId = None ∧
    ∃ effects,
      log (evaluations Number passes r.2) = log w ++ effects ∧ silentAbout alertId effects.
Proof.
  intros Hrow Hhealthy r.
  destruct (deleteAlert_cases alertId (userId row) w) as (Hl & Hr).
  cbv zeta in Hl, Hr. fold r in Hl, Hr.
  rewrite (owned_own alertId row) in Hr by done. cbn in Hr.
  destruct Hr as [(_ & Hbad & _)|[Hr Ht]]; [done|].
  split; [done|]. split; [done|]. split; [done|].
  intros passes. rewrite <- Hl. apply evaluations_absent.
  rewrite Ht. apply lookup_delete_eq.
Qed.

Lemma deleted_alert_is_gone_witness :
  let r := deleteAlert "a1" (userId (aboveAlert "u1" "BTC" "100")) twoAlerts in
  r.1 = Returned true ∧
  priceAlerts r.2 = delete "a1"%string (priceAlerts twoAlerts) ∧
  log r.2 = log twoAlerts ∧
  ∀ passes,
    priceAlerts (evaluations decimalNumber passes r.2) !! "a1"%string = None ∧
    ∃ effects,
      log (evaluations decimalNumber passes r.2) = log twoAlerts ++ effects ∧
      silentAbout "a1" effects.
Proof.
  apply (deleted_alert_is_gone decimalNumber twoAlerts "a1" (aboveAlert "u1" "BTC" "100")).
  - vm_compute. reflexivity.
  - reflexivity.
Defined.

(** X16.  With the database up, deactivating one's own alert returns the
    alert with [isActive] false and stores it so, every other field as it
    was; from then on no run of the alert job, under any weather, marks it
    as triggered or announces it. *)
Theorem deactivated_alert_never_triggers
    (Number : string → float) (w : World) (alertId : string) (row : PriceAlertRow) :
  priceAlerts w !! alertId = Some row →
  outages w = [] →
  let r := deactivateAlert Number alertId (userId row) w in
  r.1 = Returned (Some (toApiAlert Number (alertId, deactivated row))) ∧
  priceAlerts r.2 = <[alertId := deactivated row]> (priceAlerts w) ∧
  ∀ passes,
    priceAlerts (evaluations Number passes r.2) !! alertId = Some (deactivated row) ∧
    ∃ effects,
      log (evaluations Number passes r.2) = log w ++ effects ∧ silentAbout alertId effects.
Proof.
  intros Hrow Hhealthy r.
  destruct (deactivateAlert_cases Number alertId (userId row) w) as (Hl & Hr).
  cbv zeta in Hl, Hr. fold r in Hl, Hr.
  rewrite (owned_own alertId row) in Hr by done. cbn in Hr.
  destruct Hr as [(_ & Hbad & _)|[Hr Ht]]; [done|].
  split; [done|]. split; [done|].
  intros passes. rewrite <- Hl. apply evaluations_keeps.
  - intros price [(_ & Hactive & _) _]. discriminate.
  - rewrite Ht. apply lookup_insert_eq.
Qed.

Lemma deactivated_alert_never_triggers_witness :
  let row := aboveAlert "u1" "BTC" "100" in
  let r := deactivateAlert decimalNumber "a1" (userId row) twoAlerts in
  r.1 = Returned (Some (toApiAlert decimalNumber ("a1"%string, deactivated row))) ∧
  priceAlerts r.2 = <["a1"%string := deactivated row]> (priceAlerts twoAlerts) ∧
  ∀ passes,
    priceAlerts (evaluations decimalNumber passes r.2) !! "a1"%string
      = Some (deactivated row) ∧
    ∃ effects,
      log (evaluations decimalNumber passes r.2) = log twoAlerts ++ effects ∧
      silentAbout "a1" effects.
Proof.
  apply (deactivated_alert_never_triggers decimalNumber twoAlerts "a1"
           (aboveAlert "u1" "BTC" "100")).
  - vm_compute. reflexivity.
  - reflexivity.
Defined.

(** *** Listing *)

Lemma olderFirst_total : Total olderFirst.
Proof. intros a b. unfold olderFirst. lia. Qed.

(** X17.  With the database up, [getUserAlerts] returns exactly the alerts
    of the user, every one once and none of another user, oldest first, and
    [getActiveAlerts] returns exactly those of them that are active and not
    triggered, oldest first; neither changes anything. *)
Theorem getUserAlerts_lists_own_alerts
    (Number : string → float) (u : string) (w : World) :
  outages w = [] →
  ∃ rows open,
    getUserAlerts Number u w = (Returned (toApiAlert Number <$> rows), w) ∧
    getActiveAlerts Number u w = (Returned (toApiAlert Number <$> open), w) ∧
    (∀ alertId row,
       (alertId, row) ∈ rows ↔ priceAlerts w !! alertId = Some row ∧ userId row = u) ∧
    (∀ alertId row,
       (alertId, row) ∈ open ↔
       (alertId, row) ∈ rows ∧ isActive row = true ∧ isTriggered row = false) ∧
    NoDup rows.*1 ∧ Sorted olderFirst rows ∧ Sorted olderFirst open.
Proof.
  intros Hhealthy.
  set (rows := merge_sort olderFirst
                 (filter (λ alert, userId alert.2 = u) (map_to_list (priceAlerts w)))).
  set (open := merge_sort olderFirst
                 (filter (λ alert, userId alert.2 = u ∧ isActive alert.2 = true ∧
                                   isTriggered alert.2 = false)
                    (map_to_list (priceAlerts w)))).
  assert (∀ alertId row,
            (alertId, row) ∈ rows ↔ priceAlerts w !! alertId = Some row ∧ userId row = u)
    as Hrows.
  { intros alertId row. subst rows. rewrite merge_sort_Permutation.
    rewrite list_elem_of_filter, elem_of_map_to_list. cbn. tauto. }
  exists rows, open. split; [|split; [|split; [|split; [|split; [|split]]]]].
  - unfold getUserAlerts, mbind, Async_bind, selectByUser.
    by rewrite statement_healthy.
  - unfold getActiveAlerts, mbind, Async_bind, selectOpenByUser.
    by rewrite statement_healthy.
  - exact Hrows.
  - intros alertId row. rewrite Hrows. subst open. rewrite merge_sort_Permutation.
    rewrite list_elem_of_filter, elem_of_map_to_list. cbn. tauto.
  - apply NoDup_fmap_fst.
    + intros alertId row1 row2 H1 H2. apply Hrows in H1 as [H1 _], H2 as [H2 _]. congruence.
    + subst rows. rewrite merge_sort_Permutation. apply NoDup_filter, NoDup_map_to_list.
  - apply Sorted_merge_sort, olderFirst_total.
  - apply Sorted_merge_sort, olderFirst_total.
Qed.

Lemma getUserAlerts_lists_own_alerts_witness :
  ∃ rows open,
    getUserAlerts decimalNumber "u1" twoAlerts
      = (Returned (toApiAlert decimalNumber <$> rows), twoAlerts) ∧
    getActiveAlerts decimalNumber "u1" twoAlerts
      = (Returned (toApiAlert decimalNumber <$> open), twoAlerts) ∧
    (∀ alertId row,
       (alertId, row) ∈ rows ↔
       priceAlerts twoAlerts !! alertId = Some row ∧ userId row = "u1"%string) ∧
    (∀ alertId row,
       (alertId, row) ∈ open ↔
       (alertId, row) ∈ rows ∧ isActive row = true ∧ isTriggered row = false) ∧
    NoDup rows.*1 ∧ Sorted olderFirst rows ∧ Sorted olderFirst open.
Proof.
  apply (getUserAlerts_lists_own_alerts decimalNumber "u1" twoAlerts). reflexivity.
Defined.

(** *** The alert limit *)



Lemma activeCount_updated u (ids : list string) at_ (table : gmap string PriceAlertRow) :
  activeCount u
    (map_imap (λ id row, Some (if decide (id ∈ ids) then markTriggered at_ row else row))
       table)
  = activeCount u table.
Proof.
  unfold activeCount.
  induction table as [|alertId row table Hfresh IH] using map_ind.
  - by rewrite map_imap_empty.
  - rewrite map_imap_insert. cbv beta iota.
    set (P := λ alert : string * PriceAlertRow, userId alert.2 = u ∧ isActive alert.2 = true)
      in *.
    set (f := λ id row, Some (if decide (id ∈ ids) then markTriggered at_ row else row)) in *.
    assert (map_imap f table !! alertId = None) as Hfresh'.
    { by rewrite map_lookup_imap, Hfresh. }
    rewrite (Permutation_length
               (filter_Permutation P _ _ (map_to_list_insert _ _ _ Hfresh'))).
    rewrite (Permutation_length
               (filter_Permutation P _ _ (map_to_list_insert _ _ row Hfresh))).
    rewrite !filter_cons.
    assert (P (alertId, if decide (alertId ∈ ids) then markTriggered at_ row else row)
            ↔ P (alertId, row)) as Hsame.
    { subst P. cbn. by case_decide. }
    destruct (decide (P (alertId, row))) as [Hp|Hp].
    + rewrite decide_True by by apply Hsame. cbn. by rewrite IH.
    + rewrite decide_False by by rewrite Hsame. done.
Qed.

(** X19.  An alert that has fired keeps counting against the limit of its
    owner: whatever snapshots a run of the alert job evaluates, under
    whatever weather, the number of alerts that [getAlertCount] counts is
    the same after the run as before, for every user. *)
Theorem triggered_alerts_still_count
    (Number : string → float) (prices : list Types.CryptoPrice) (u : string) :
  ∀ w,
    activeCount u (priceAlerts (checkAllAlerts Number prices w).2)
    = activeCount u (priceAlerts w).
Proof.
  induction prices as [|price prices IH]; intros w; [done|].
  rewrite checkAllAlerts_unfold.
  assert (activeCount u (priceAlerts (checkAlertsForPrice Number price w).2)
          = activeCount u (priceAlerts w)) as Hone.
  { destruct (checkAlertsForPrice_cases Number price w) as
      [_ [(_ & Ht & _) | [(_ & _ & Ht & _) | (_ & _ & Ht & _)]]]; rewrite Ht; [done..|].
    apply activeCount_updated. }
  destruct (checkAlertsForPrice Number price w) as [[triggered|error] w1]; cbn in *; [|done].
  specialize (IH w1).
  destruct (checkAllAlerts Number prices w1) as [[allTriggered|error] w2]; cbn in *;
    by rewrite IH.
Qed.

(** X20.  Evaluating the same snapshot again triggers nothing: after a
    pass over a snapshot that was not cut short by the database, a second
    pass over the same snapshot, under any weather, changes no row, logs
    nothing and, unless the database rejects its query, returns no alert. *)
Theorem checkAlertsForPrice_twice_triggers_once
    (Number : string → float) (price : Types.CryptoPrice) (w : World)
    (triggered : list Types.PriceAlert) :
  (checkAlertsForPrice Number price w).1 = Returned triggered →
  let r1 := checkAlertsForPrice Number price w in
  let r2 := checkAlertsForPrice Number price r1.2 in
  priceAlerts r2.2 = priceAlerts r1.2 ∧
  log r2.2 = log r1.2 ∧
  (r2.1 = Returned [] ∨ ∃ error, r2.1 = Thrown error).
Proof.
  intros Hreturned r1 r2.
  assert (due Number price (priceAlerts r1.2) = []) as Hquiet.
  { destruct (checkAlertsForPrice_cases Number price w) as
      [_ [((error & Hr) & _) | [(Hnil & _ & Ht & _) | (_ & _ & Ht & _)]]].
    - congruence.
    - fold r1 in Ht. by rewrite Ht.
    - fold r1 in Ht. apply elem_of_nil_inv. intros [alertId row'] Hin.
      apply elem_of_due in Hin as [Hrow' Hdue]. rewrite Ht, updated_lookup in Hrow'.
      destruct (priceAlerts w !! alertId) as [row|] eqn:Hrow; [|done].
      cbn in Hrow'. injection Hrow' as <-.
      case_decide as Hin.
      + destruct Hdue as [(_ & _ & Hfresh) _]. discriminate.
      + apply Hin, elem_of_due_ids. eauto. }
  destruct (checkAlertsForPrice_cases Number price r1.2) as
    [_ [((error & Hr) & Ht & Hl) | [(_ & Hr & Ht & Hl) | (Hsome & _)]]].
  - fold r2 in Hr, Ht, Hl. eauto.
  - fold r2 in Hr, Ht, Hl. eauto.
  - done.
Qed.

Lemma checkAlertsForPrice_twice_triggers_once_witness :
  let price := Types.snapshot "BTC" 150 in
  let r1 := checkAlertsForPrice decimalNumber price twoAlerts in
  let r2 := checkAlertsForPrice decimalNumber price r1.2 in
  priceAlerts r2.2 = priceAlerts r1.2 ∧
  log r2.2 = log r1.2 ∧
  (r2.1 = Returned [] ∨ ∃ error, r2.1 = Thrown error).
Proof.
  apply (checkAlertsForPrice_twice_triggers_once decimalNumber (Types.snapshot "BTC" 150) twoAlerts
           (toApiAlert decimalNumber
              <$> due decimalNumber (Types.snapshot "BTC" 150) (priceAlerts twoAlerts))).
  by apply checkAlertsForPrice_healthy.
Defined.

Lemma getAlert_healthy (Number : string → float) alertId u w :
  outages w = [] →
  getAlert Number alertId u w
  = (Returned (toApiAlert Number <$> head (owned alertId u (priceAlerts w))), w).
Proof.
  intros Hhealthy. unfold getAlert, mbind, Async_bind, selectOwned.
  by rewrite statement_healthy.
Qed.

(** X21.  An alert that has been created can be read back: with the
    database up, the price source answering and a fresh id at hand,
    [createAlert] returns an active, untriggered alert of the user on the
    upper-cased symbol, [getAlert] with its id returns the same alert to
    its owner, and null to anybody else. *)
Theorem created_alert_can_be_read_back
    (Number : string → float) (toString : float → string) (toUpperCase : string → string)
    (getPrice : string → PriceAnswer) (userId symbol condition : string)
    (targetPrice percentChange : option float) (w : World) (alertId : string)
    (rest : list string) :
  getPrice symbol ≠ SourceFailed →
  outages w = [] → uuids w = alertId :: rest → priceAlerts w !! alertId = None →
  let r := createAlert Number toString toUpperCase getPrice userId symbol condition
             targetPrice percentChange w in
  ∃ alert,
    r.1 = Returned alert ∧
    Types.id alert = alertId ∧ Types.userId alert = userId ∧
    Types.alertSymbol alert = toUpperCase symbol ∧
    Types.isActive alert = true ∧ Types.isTriggered alert = false ∧
    (getAlert Number alertId userId r.2).1 = Returned (Some alert) ∧
    ∀ other, other ≠ userId → (getAlert Number alertId other r.2).1 = Returned None.
Proof.
  intros Hanswer Hhealthy Huuids Hfresh r. subst r. unfold createAlert.
  assert (∀ A (x y : A), match getPrice symbol with SourceFailed => x | _ => y end = y)
    as -> by (intros; by destruct (getPrice symbol)).
  unfold mbind, Async_bind, insertAlert.
  rewrite statement_healthy by done. rewrite Huuids, Hfresh. cbn [fst snd mret Async_ret].
  eexists. split; [done|]. cbn [toApiAlert Types.id Types.userId Types.alertSymbol
                                 Types.isActive Types.isTriggered].
  split; [done|]. split; [done|]. split; [done|]. split; [done|]. split; [done|].
  split.
  - rewrite getAlert_healthy by done. cbn [fst priceAlerts setPriceAlerts].
    unfold owned. rewrite lookup_insert_eq. cbv beta iota. by rewrite decide_True.
  - intros other Hother. rewrite getAlert_healthy by done. cbn [fst priceAlerts setPriceAlerts].
    unfold owned. rewrite lookup_insert_eq. cbv beta iota.
    rewrite decide_False; [done|]. cbn. congruence.
Qed.

Lemma created_alert_can_be_read_back_witness :
  let r := createAlert decimalNumber integerToString asciiToUpperCase (λ _, NoPrice)
             "u1" "btc" "above" (Some 100%float) None emptyWorld in
  ∃ alert,
    r.1 = Returned alert ∧
    Types.id alert = "a1"%string ∧ Types.userId alert = "u1"%string ∧
    Types.alertSymbol alert = asciiToUpperCase "btc" ∧
    Types.isActive alert = true ∧ Types.isTriggered alert = false ∧
    (getAlert decimalNumber "a1" "u1" r.2).1 = Returned (Some alert) ∧
    ∀ other, other ≠ "u1"%string →
             (getAlert decimalNumber "a1" other r.2).1 = Returned None.
Proof.
  apply (created_alert_can_be_read_back decimalNumber integerToString asciiToUpperCase
           (λ _, NoPrice) "u1" "btc" "above" (Some 100%float) None emptyWorld
           "a1" ["a2"%string]).
  - discriminate.
  - reflexivity.
  - reflexivity.
  - reflexivity.
Defined.

End AlertAccessFacts.

(** * The windows of the rate limiter *)

Module RateLimitWindowFacts.
Import RateLimit RateLimitFacts.

(** The commands touch the key they are given and no other. *)
Lemma storeKey_other key key' set (store : gmap string SortedSet) :
  key' ≠ key → storeKey key set store !! key' = store !! key'.
Proof.
  intros Hne. unfold storeKey.
  case_decide; by rewrite ?lookup_delete_ne, ?lookup_insert_ne.
Qed.

Lemma zremrangebyscore_other now key key' min max (store : gmap string SortedSet) :
  key' ≠ key → zremrangebyscore now key min max store !! key' = store !! key'.
Proof.
  intros Hne. unfold zremrangebyscore.
  destruct (lookupKey now store key); [by apply storeKey_other|by rewrite lookup_delete_ne].
Qed.

Lemma zadd_other now key key' score member (store : gmap string SortedSet) :
  key' ≠ key → zadd now key score member store !! key' = store !! key'.
Proof.
  intros Hne. unfold zadd. destruct (lookupKey now store key); by rewrite lookup_insert_ne.
Qed.

Lemma pexpire_other now key key' milliseconds (store : gmap string SortedSet) :
  key' ≠ key → pexpire now key milliseconds store !! key' = store !! key'.
Proof.
  intros Hne. unfold pexpire. destruct (lookupKey now store key); [case_decide|];
    by rewrite ?lookup_delete_ne, ?lookup_insert_ne.
Qed.

Lemma checkRateLimit_other store call identifier limit windowMs key' :
  key' ≠ ("ratelimit:" +:+ identifier)%string →
  ∃ store',
    (checkRateLimit (Some store) call identifier limit windowMs).2 = Some store' ∧
    store' !! key' = store !! key'.
Proof.
  intros Hne. unfold checkRateLimit.
  destruct (fault call) as [| | | |given rejects] eqn:Hfault; try (by eexists); cbv zeta.
  all: set (answers := repliesOf _).
  all: set (s1 := if removeFails answers then store else _).
  all: set (s2 := if addFails answers then s1 else _).
  all: set (s3 := if expireFails answers then s2 else _).
  all: assert (s1 !! key' = store !! key') as H1
         by (subst s1; destruct (removeFails answers); by rewrite ?zremrangebyscore_other).
  all: assert (s2 !! key' = store !! key') as H2
         by (subst s2; destruct (addFails answers); by rewrite ?zadd_other).
  all: assert (s3 !! key' = store !! key') as H3
         by (subst s3; destruct (expireFails answers); by rewrite ?pexpire_other).
  all: destruct (negb _); [destruct (removalRejects _)|]; eexists; (split; [done|]).
  all: by rewrite ?zremrangebyscore_other.
Qed.

Lemma window_key (store store' : gmap string SortedSet) identifier at_ :
  store' !! ("ratelimit:" +:+ identifier)%string = store !! ("ratelimit:" +:+ identifier)%string →
  window (Some store') identifier at_ = window (Some store) identifier at_.
Proof. intros Hsame. unfold window, liveMembers, lookupKey. by rewrite Hsame. Qed.

Lemma checkRateLimit_window_other redis call identifier other limit windowMs at_ :
  other ≠ identifier →
  window (checkRateLimit redis call identifier limit windowMs).2 other at_
  = window redis other at_.
Proof.
  intros Hne. destruct redis as [store|]; [|done].
  destruct (checkRateLimit_other store call identifier limit windowMs
              ("ratelimit:" +:+ other)%string) as (store' & -> & Hsame).
  - cbn. intros [= ?]. done.
  - by apply window_key.
Qed.

(** X22.  The budgets of different identifiers are separate: a call of
    [checkRateLimit] for one identifier, whatever the client does with its
    commands, leaves the window of every other identifier as it is, at
    every time of reading. *)
Theorem checkRateLimit_touches_one_identifier
    (redis : option (gmap string SortedSet)) (call : Call)
    (identifier other : string) (limit windowMs : Z) :
  other ≠ identifier →
  let r := checkRateLimit redis call identifier limit windowMs in
  ∀ at_, window r.2 other at_ = window redis other at_.
Proof.
  intros Hne r at_. subst r. by apply checkRateLimit_window_other.
Qed.

Lemma checkRateLimit_touches_one_identifier_witness :
  let redis :=
    (checks (Some ∅) "user:u2" 5 60000 [healthy 1000 1; healthy 1001 2]).2 in
  let r := checkRateLimit redis (healthy 1002 3) "user:u1" 5 60000 in
  "user:u2"%string ≠ "user:u1"%string ∧
  ∀ at_, window r.2 "user:u2" at_ = window redis "user:u2" at_.
Proof.
  cbv zeta. split; [discriminate|].
  apply (checkRateLimit_touches_one_identifier
           (checks (Some ∅) "user:u2" 5 60000 [healthy 1000 1; healthy 1001 2]).2
           (healthy 1002 3) "user:u1" "user:u2" 5 60000).
  discriminate.
Defined.

(** A reader that comes later finds what the earlier one found, or
    nothing. *)
Lemma liveMembers_later now now' (store : gmap string SortedSet) key :
  now ≤ now' →
  liveMembers now' store key = liveMembers now store key ∨ liveMembers now' store key = ∅.
Proof.
  intros Hle. unfold liveMembers, lookupKey.
  destruct (store !! key) as [set|]; [|by left].
  destruct (expireAt set) as [deadline|]; [|by left].
  repeat case_decide; auto; lia.
Qed.

Lemma size_liveMembers_later now now' (store : gmap string SortedSet) key :
  now ≤ now' →
  (size (liveMembers now' store key) ≤ size (liveMembers now store key))%nat.
Proof.
  intros Hle. destruct (liveMembers_later now now' store key Hle) as [-> | ->]; [done|].
  rewrite map_size_empty. lia.
Qed.

(** A call answered by a healthy client keeps the window within the
    limit. *)
Lemma checkRateLimit_bound store now random identifier limit windowMs :
  0 < windowMs →
  let key := ("ratelimit:" +:+ identifier)%string in
  Z.of_nat (size (liveMembers now store key)) ≤ limit →
  ∃ store',
    (checkRateLimit (Some store) (healthy now random) identifier limit windowMs).2
      = Some store' ∧
    Z.of_nat (size (liveMembers now store' key)) ≤ limit.
Proof.
  intros Hpositive key Hbound.
  destruct (checkRateLimit_window store now random identifier limit windowMs Hpositive)
    as (Hallowed & store' & Hstore & Hlive).
  fold key in Hallowed, Hlive.
  set (kept := filter (λ entry : Z * N * Z, ¬ (0 ≤ entry.2 ≤ now - windowMs))
                 (liveMembers now store key)) in *.
  assert (size kept ≤ size (liveMembers now store key))%nat as Hkept
    by apply map_size_filter.
  exists store'. split; [done|]. rewrite Hlive.
  destruct (allowed _) eqn:Hdecision.
  - symmetry in Hallowed. apply Z.ltb_lt in Hallowed.
    rewrite map_size_insert. destruct (kept !! (now, random)); cbn; lia.
  - pose proof (map_size_filter (λ entry : Z * N * Z, entry.2 ≠ now)
                  (delete (now, random) kept)) as Hfilter.
    pose proof (map_subseteq_size _ _ (delete_subseteq kept (now, random))) as Hdelete.
    lia.
Qed.

Lemma checks_bound identifier limit windowMs calls :
  0 < windowMs →
  let key := ("ratelimit:" +:+ identifier)%string in
  ∀ store t0,
    Z.of_nat (size (liveMembers t0 store key)) ≤ limit →
    Forall (λ call, fault call = Healthy ∧ t0 ≤ now call) calls →
    StronglySorted (λ a b, now a ≤ now b) calls →
    ∃ store',
      (checks (Some store) identifier limit windowMs calls).2 = Some store' ∧
      ∀ t, t0 ≤ t → Forall (λ call, now call ≤ t) calls →
           Z.of_nat (size (liveMembers t store' key)) ≤ limit.
Proof.
  intros Hpositive key.
  induction calls as [|call calls IH]; intros store t0 Hbound Hcalls Hsorted.
  - exists store. split; [done|]. intros t Ht _.
    pose proof (size_liveMembers_later t0 t store key Ht). lia.
  - apply Forall_cons in Hcalls as [[Hhealthy Hafter] Hcalls].
    apply StronglySorted_inv in Hsorted as [Hsorted Hfirst].
    destruct call as [now random fault]. cbn in Hhealthy, Hafter, Hfirst. subst fault.
    destruct (checkRateLimit_bound store now random identifier limit windowMs Hpositive)
      as (store1 & Hstore1 & Hbound1).
    { pose proof (size_liveMembers_later t0 now store key Hafter). fold key. lia. }
    fold key in Hbound1.
    destruct (IH store1 now Hbound1) as (store' & Hstore' & Hlater).
    { apply Forall_forall. intros call Hin. split.
      - by apply (proj1 (Forall_forall _ _) Hcalls).
      - by apply (proj1 (Forall_forall _ _) Hfirst). }
    { done. }
    exists store'. split.
    + cbn [checks]. change {| RateLimit.now := now; random := random; fault := Healthy |}
        with (healthy now random).
      rewrite (surjective_pairing (checkRateLimit _ _ _ _ _)), Hstore1.
      rewrite (surjective_pairing (checks _ _ _ _ _)), Hstore'. done.
    + intros t Ht Hbefore. apply Forall_cons in Hbefore as [Hnow Hbefore].
      cbn in Hnow. by apply Hlater.
Qed.

(** X23.  The window holds at most [limit] entries: after any number of
    calls for one identifier, answered by a healthy client at times that do
    not go backwards, starting from an empty store, a reader at any time
    from the last call on finds at most [limit] entries recorded for the
    identifier. *)
Theorem window_never_exceeds_the_limit
    (identifier : string) (limit windowMs : Z) (calls : list Call) (t : Z) :
  0 < windowMs → 0 ≤ limit →
  Forall (λ call, fault call = Healthy) calls →
  StronglySorted (λ a b, now a ≤ now b) calls →
  Forall (λ call, now call ≤ t) calls →
  Z.of_nat (length (window (checks (Some ∅) identifier limit windowMs calls).2 identifier t))
  ≤ limit.
Proof.
  intros Hpositive Hlimit Hhealthy Hsorted Hbefore.
  set (t0 := match calls with [] => t | call :: _ => now call end).
  destruct (checks_bound identifier limit windowMs calls Hpositive ∅ t0)
    as (store' & -> & Hbound).
  - unfold liveMembers, lookupKey. rewrite lookup_empty, map_size_empty. lia.
  - apply Forall_forall. intros call Hin. split.
    + by apply (proj1 (Forall_forall _ _) Hhealthy).
    + subst t0. destruct calls as [|first calls]; [by apply elem_of_nil in Hin|].
      apply elem_of_cons in Hin as [->|Hin]; [lia|].
      apply StronglySorted_inv in Hsorted as [_ Hfirst].
      by apply (proj1 (Forall_forall _ _) Hfirst).
  - done.
  - unfold window. rewrite length_map_to_list. apply Hbound; [|done].
    subst t0. destruct calls as [|first calls]; [lia|].
    by apply Forall_cons in Hbefore as [? _].
Qed.

Lemma window_never_exceeds_the_limit_witness :
  Z.of_nat
    (length
       (window
          (checks (Some ∅) "user:u1" 2 60000
             [healthy 1000 1; healthy 1000 2; healthy 1001 3; healthy 1002 4]).2
          "user:u1" 2000))
  ≤ 2.
Proof.
  apply (window_never_exceeds_the_limit "user:u1" 2 60000
           [healthy 1000 1; healthy 1000 2; healthy 1001 3; healthy 1002 4] 2000).
  - lia.
  - lia.
  - repeat constructor.
  - repeat (constructor; [|repeat constructor; cbn; lia]). constructor.
  - repeat constructor; cbn; lia.
Defined.

(** *** The middlewares *)

Lemma rateLimitMiddleware_store env redis call later request :
  (rateLimitMiddleware env redis call later request).2
  = (checkRateLimit redis call (standardLimit env request).2
       (standardLimit env request).1.1 (standardLimit env request).1.2).2.
Proof.
  unfold rateLimitMiddleware. destruct (standardLimit env request) as [[limit windowMs] key].
  cbn. by destruct (checkRateLimit redis call key limit windowMs).
Qed.

Lemma strictRateLimitMiddleware_store redis call later request :
  (strictRateLimitMiddleware redis call later request).2
  = (checkRateLimit redis call (strictLimit request).2
       (strictLimit request).1.1 (strictLimit request).1.2).2.
Proof.
  unfold strictRateLimitMiddleware. destruct (strictLimit request) as [[limit windowMs] key].
  cbn. by destruct (checkRateLimit redis call key limit windowMs).
Qed.

(** X24.  The standard and the strict limiter keep separate budgets, and
    so do users and addresses: a request that goes through
    [rateLimitMiddleware] leaves the window of every strict identifier as
    it is, a request that goes through [strictRateLimitMiddleware] leaves
    the window of every standard identifier as it is, and a request without
    a user leaves the window of every user as it is. *)
Theorem limiters_keep_separate_budgets
    (env : Env) (redis : option (gmap string SortedSet)) (call : Call) (later : Z)
    (request request' : Request) (anyUser : string) (at_ : Z) :
  let standard := rateLimitMiddleware env redis call later request in
  let strict := strictRateLimitMiddleware redis call later request in
  let anonymous :=
    rateLimitMiddleware env redis call later {| user := None; ip := ip request |} in
  window standard.2 (strictLimit request').2 at_ = window redis (strictLimit request').2 at_ ∧
  window strict.2 (standardLimit env request').2 at_
    = window redis (standardLimit env request').2 at_ ∧
  window anonymous.2 ("user:" +:+ anyUser) at_ = window redis ("user:" +:+ anyUser) at_.
Proof.
  cbv zeta. rewrite !rateLimitMiddleware_store, strictRateLimitMiddleware_store.
  split; [|split]; apply checkRateLimit_window_other.
  - unfold strictLimit, standardLimit. destruct (user request'), (user request); by cbn.
  - unfold strictLimit, standardLimit. destruct (user request'), (user request); by cbn.
  - by cbn.
Qed.



End RateLimitWindowFacts.

(** * The API-key cache *)

Module AuthFacts.
Import Auth.

Section Validation.
Variable Number : string → float.

(** Without a good cache entry the database decides, and a refusal leaves
    the cache as it is. *)
Lemma validateApiKey_uncached cache users failed key now later :
  uncached cache key now →
  validateApiKey Number cache users failed key now later =
    if failed then (None, cache)
    else
      match users !! key with
      | Some row =>
          if Users.isActive row then
            (Some (authenticatedUser Number key row),
             <[key := {| user := authenticatedUser Number key row;
                         expiresAt := later + CACHE_TTL_MS |}]> cache)
          else (None, cache)
      | None => (None, cache)
      end.
Proof.
  intros Hmiss. unfold validateApiKey.
  destruct (cache !! key) as [cached|] eqn:Hcached; [|done].
  rewrite decide_False; [done|]. specialize (Hmiss cached Hcached). lia.
Qed.

Lemma validateApiKey_refuses cache users failed key now later :
  uncached cache key now → failed = true ∨ revoked users key →
  validateApiKey Number cache users failed key now later = (None, cache).
Proof.
  intros Hmiss Hrefused. rewrite validateApiKey_uncached by done.
  destruct Hrefused as [-> | Hrevoked]; [done|].
  destruct failed; [done|].
  destruct (users !! key) as [row|] eqn:Hrow; [|done].
  by rewrite (Hrevoked row).
Qed.

End Validation.

(** X26.  A key stays good for five minutes after the database has
    confirmed it: once [validateApiKey] has accepted a key on the word of
    the database, every request with that key before the cache entry
    expires is authenticated as the same user without the database being
    asked, whatever has become of the user's row and whether or not the
    database answers. *)
Theorem cached_key_outlives_revocation
    (Number : string → float) (cache cache' : gmap string CacheEntry)
    (users : gmap string Users.Row) (key : string) (now later : Z)
    (authenticated : AuthenticatedUser) :
  key ≠ ""%string →
  uncached cache key now →
  validateApiKey Number cache users false key now later = (Some authenticated, cache') →
  ∀ users' failed' t later',
    t < later + CACHE_TTL_MS →
    authMiddleware Number cache' users' failed' (Some key) t later'
    = (Authenticated authenticated, cache').
Proof.
  intros Hkey Hmiss Hvalid users' failed' t later' Hfresh.
  rewrite validateApiKey_uncached in Hvalid by done.
  destruct (users !! key) as [row|]; [|done].
  destruct (Users.isActive row); [|done].
  injection Hvalid as <- <-.
  unfold authMiddleware, validateApiKey. rewrite decide_False by done.
  rewrite lookup_insert_eq. cbn [expiresAt user]. by rewrite decide_True.
Qed.

Lemma cached_key_outlives_revocation_witness :
  let authenticated :=
    {| id := "u1"; apiKey := "k1"; tier := "free";
       rateLimit := AlertService.decimalNumber "100" |} in
  let cache' : gmap string CacheEntry :=
    <["k1"%string := {| user := authenticated; expiresAt := 1001 + CACHE_TTL_MS |}]> ∅ in
  validateApiKey AlertService.decimalNumber ∅ oneUser false "k1" 1000 1001
    = (Some authenticated, cache') ∧
  ∀ users' failed' t later',
    t < 1001 + CACHE_TTL_MS →
    authMiddleware AlertService.decimalNumber cache' users' failed' (Some "k1"%string) t later'
    = (Authenticated authenticated, cache').
Proof.
  cbv zeta. split; [reflexivity|].
  apply (cached_key_outlives_revocation AlertService.decimalNumber ∅
           (<["k1"%string :=
                {| user := {| id := "u1"; apiKey := "k1"; tier := "free";
                              rateLimit := AlertService.decimalNumber "100" |};
                   expiresAt := 1001 + CACHE_TTL_MS |}]> ∅)
           oneUser "k1" 1000 1001
           {| id := "u1"; apiKey := "k1"; tier := "free";
              rateLimit := AlertService.decimalNumber "100" |}).
  - discriminate.
  - intros cached Hcached. by rewrite lookup_empty in Hcached.
  - reflexivity.
Defined.

(** X27.  Authentication fails closed: when the cache has no good entry for
    the key and the database rejects the query, or has no row for the key,
    or has an inactive one, the request is answered 401 INVALID_API_KEY and
    the refusal is not cached; a request without a key, or with an empty
    one, is answered 401 MISSING_API_KEY. *)
Theorem authMiddleware_fails_closed
    (Number : string → float) (cache : gmap string CacheEntry)
    (users : gmap string Users.Row) (failed : bool) (key : string) (now later : Z) :
  key ≠ ""%string →
  uncached cache key now →
  failed = true ∨ revoked users key →
  authMiddleware Number cache users failed (Some key) now later
    = (Unauthorized "INVALID_API_KEY", cache) ∧
  authMiddleware Number cache users failed None now later
    = (Unauthorized "MISSING_API_KEY", cache) ∧
  authMiddleware Number cache users failed (Some ""%string) now later
    = (Unauthorized "MISSING_API_KEY", cache).
Proof.
  intros Hkey Hmiss Hrefused. split; [|done].
  unfold authMiddleware. rewrite decide_False by done.
  by rewrite validateApiKey_refuses.
Qed.

Lemma authMiddleware_fails_closed_witness :
  authMiddleware AlertService.decimalNumber ∅ oneUser true (Some "k1"%string) 1000 1001
    = (Unauthorized "INVALID_API_KEY", ∅) ∧
  authMiddleware AlertService.decimalNumber ∅ oneUser true None 1000 1001
    = (Unauthorized "MISSING_API_KEY", ∅) ∧
  authMiddleware AlertService.decimalNumber ∅ oneUser true (Some ""%string) 1000 1001
    = (Unauthorized "MISSING_API_KEY", ∅).
Proof.
  apply (authMiddleware_fails_closed AlertService.decimalNumber ∅ oneUser true "k1" 1000 1001).
  - discriminate.
  - intros cached Hcached. by rewrite lookup_empty in Hcached.
  - by left.
Defined.

(** X28.  Invalidating a key ends what the cache granted: after
    [invalidateApiKeyCache], or [clearApiKeyCache], a request with the key
    of a user whose row is gone or inactive is answered 401
    INVALID_API_KEY, whatever the cache held before; invalidating one key
    leaves the entries of all other keys as they are. *)
Theorem invalidateApiKeyCache_ends_the_grant
    (Number : string → float) (cache : gmap string CacheEntry)
    (users : gmap string Users.Row) (failed : bool) (key : string) (now later : Z) :
  key ≠ ""%string →
  revoked users key →
  authMiddleware Number (invalidateApiKeyCache key cache) users failed (Some key) now later
    = (Unauthorized "INVALID_API_KEY", invalidateApiKeyCache key cache) ∧
  authMiddleware Number (clearApiKeyCache cache) users failed (Some key) now later
    = (Unauthorized "INVALID_API_KEY", clearApiKeyCache cache) ∧
  ∀ other, other ≠ key → invalidateApiKeyCache key cache !! other = cache !! other.
Proof.
  intros Hkey Hrevoked. unfold authMiddleware. rewrite !decide_False by done.
  rewrite !validateApiKey_refuses; auto.
  - split; [done|]. split; [done|]. intros other Hother.
    unfold invalidateApiKeyCache. by rewrite lookup_delete_ne.
  - intros cached Hcached. unfold clearApiKeyCache in Hcached.
    by rewrite lookup_empty in Hcached.
  - intros cached Hcached. unfold invalidateApiKeyCache in Hcached.
    by rewrite lookup_delete_eq in Hcached.
Qed.

Lemma invalidateApiKeyCache_ends_the_grant_witness :
  let cache : gmap string CacheEntry :=
    <["k1"%string :=
        {| user := {| id := "u1"; apiKey := "k1"; tier := "free"; rateLimit := 100 |};
           expiresAt := 1001 + CACHE_TTL_MS |}]> ∅ in
  authMiddleware AlertService.decimalNumber (invalidateApiKeyCache "k1" cache) ∅ false
    (Some "k1"%string) 2000 2001
    = (Unauthorized "INVALID_API_KEY", invalidateApiKeyCache "k1" cache) ∧
  authMiddleware AlertService.decimalNumber (clearApiKeyCache cache) ∅ false
    (Some "k1"%string) 2000 2001
    = (Unauthorized "INVALID_API_KEY", clearApiKeyCache cache) ∧
  ∀ other, other ≠ "k1"%string → invalidateApiKeyCache "k1" cache !! other = cache !! other.
Proof.
  apply (invalidateApiKeyCache_ends_the_grant AlertService.decimalNumber
           (<["k1"%string :=
                {| user := {| id := "u1"; apiKey := "k1"; tier := "free"; rateLimit := 100 |};
                   expiresAt := 1001 + CACHE_TTL_MS |}]> ∅)
           ∅ false "k1" 2000 2001).
  - discriminate.
  - intros row Hrow. by rewrite lookup_empty in Hrow.
Defined.

End AuthFacts.

(** * The price-update job *)

Module PriceUpdaterFacts.
Import Types PriceHandler PriceHandlerFacts RegistryFacts PriceUpdater.









End PriceUpdaterFacts.
